(** * Huffman compressor (main.cpp): shallow embedding and verification

    The development follows main.cpp function by function.  Text, code words
    and the intermediate bit sequence are [list ascii] (the source keeps all
    of them in [std::string]); a byte of the packed file is a [Z] in
    [0, 256); a frequency is a 32-bit [unsigned], i.e. a [Z] reduced modulo
    [2^32] after every arithmetic operation.

    A file is the list of its bytes: [ReadFile] is the identity, and the
    streams opened in text mode translate nothing (as on POSIX systems).

    What the C++ library decides (the iteration order of [unordered_map],
    the arrangement of the heap behind [priority_queue]) is a parameter,
    [StdLib], constrained by what the standard promises, [StdLibSpec]; the
    heap algorithms of libstdc++ are modelled and shown to keep these
    promises. *)

From Stdlib Require Import ZArith Lia Ascii String List.
From stdpp Require Import base tactics option list gmap strings sorting.

Local Open Scope Z_scope.

(** ** Characters and strings *)

Abbreviation std_string := (list ascii).

(** A string literal as a [std::string]. *)
Definition lit (s : string) : std_string := list_ascii_of_string s.

Definition ch_0 : ascii := "0"%char.
Definition ch_1 : ascii := "1"%char.
Definition ch_colon : ascii := ":"%char.
Definition ch_dollar : ascii := "$"%char.
Definition ch_backslash : ascii := "\"%char.
Definition ch_n : ascii := "n"%char.
(** ['\n'], byte 10. *)
Definition ch_nl : ascii := ascii_of_nat 10.
(** [charT()], the character [s[s.size()]] of a [std::string]. *)
Definition ch_nul : ascii := ascii_of_nat 0.

Definition is_bit_char (c : ascii) : bool :=
  bool_decide (c = ch_0) || bool_decide (c = ch_1).

(** A string made of ['0'] and ['1'] only: what code words and the encoded
    bit sequence are. *)
Definition is_bits (s : std_string) : Prop := Forall (λ c, c = ch_0 ∨ c = ch_1) s.

(** [std::isspace] in the "C" locale, used by the [skipws] of formatted
    input. *)
Definition isspace (c : ascii) : bool :=
  let n := nat_of_ascii c in
  bool_decide (n = 32%nat) || (bool_decide (9 ≤ n)%nat && bool_decide (n ≤ 13)%nat).

(** ** [std::bitset<8>] *)

(** [bitset<8>(str)]: the last character of [str] is bit 0. *)
Definition bitset_of_string (tmp : std_string) : Z :=
  fold_left (λ v c, 2 * v + (if bool_decide (c = ch_1) then 1 else 0)) tmp 0.

(** [bits.to_string()]: eight characters, bit 7 first. *)
Definition bitset_to_string (v : Z) : std_string :=
  map (λ i : Z, if Z.testbit v i then ch_1 else ch_0) [7; 6; 5; 4; 3; 2; 1; 0].

(** ** [std::stringstream] read side *)

Record istream := mk_istream {
  rdbuf : std_string;        (* characters not yet extracted *)
  eofbit : bool;
  failbit : bool
}.

Definition good (s : istream) : bool := negb (eofbit s) && negb (failbit s).

Fixpoint skipws (l : std_string) : std_string :=
  match l with
  | c :: r => if isspace c then skipws r else l
  | [] => []
  end.

(** The extraction loop of [operator>>(istream&, bitset<N>&)]: up to [n]
    characters ['0']/['1'] are taken; end of input sets [eofbit] (third
    component), any other character stays in the buffer. *)
Fixpoint get_bits (n : nat) (l : std_string) : std_string * std_string * bool :=
  match n with
  | O => ([], l, false)
  | S n' =>
      match l with
      | [] => ([], [], true)
      | c :: r =>
          if is_bit_char c then
            let '(t, rest, e) := get_bits n' r in (c :: t, rest, e)
          else ([], l, false)
      end
  end.

(** [sstream >> bits].  The sentry fails on a stream that is not good or
    that ends while white space is skipped, and then [bits] is left as it
    was; when no character is stored [failbit] is set and [bits] is left as
    it was too. *)
Definition extract_bitset (s : istream) (bits : Z) : istream * Z :=
  if good s then
    match skipws (rdbuf s) with
    | [] => (mk_istream [] true true, bits)
    | l =>
        let '(tmp, rest, e) := get_bits 8 l in
        match tmp with
        | [] => (mk_istream rest e true, bits)
        | _ => (mk_istream rest e false, bitset_of_string tmp)
        end
    end
  else (mk_istream (rdbuf s) (eofbit s) true, bits).

(** ** [WriteEncodedStringToFile] *)

(** The [while (sstream.good())] loop; the result is the list of bytes
    written.  [None]: the loop is still running when the fuel is gone. *)
Fixpoint write_loop (fuel : nat) (s : istream) (bits : Z) : option (list Z) :=
  if good s then
    match fuel with
    | O => None
    | S fuel' =>
        let '(s', bits') := extract_bitset s bits in
        cons bits' <$> write_loop fuel' s' bits'
    end
  else Some [].

Definition WriteEncodedStringToFile (encodedString : std_string) : option (list Z) :=
  write_loop (S (length encodedString)) (mk_istream encodedString false false) 0.

(** ** [DecodeBinaryFile], the unpacking loop *)

Definition unpack (encodedBinaryString : list Z) : std_string :=
  concat (map bitset_to_string encodedBinaryString).

(** ** [Decode] *)

(** The loop of [Decode]: [temp] is the candidate accumulated so far.  The
    result is the text written to the output file, paired with the value of
    [temp] when the bits run out. *)
Fixpoint Decode_loop (huffmanCodes : gmap std_string ascii) (temp : std_string)
    (encodedString : std_string) : std_string * std_string :=
  match encodedString with
  | [] => ([], temp)
  | bit :: rest =>
      let temp' := temp ++ [bit] in
      match huffmanCodes !! temp' with
      | Some c =>
          let '(out, t) := Decode_loop huffmanCodes [] rest in (c :: out, t)
      | None => Decode_loop huffmanCodes temp' rest
      end
  end.

Definition Decode (encodedString : std_string) (huffmanCodes : gmap std_string ascii) : std_string :=
  (Decode_loop huffmanCodes [] encodedString).1.

Definition DecodeBinaryFile (encodedBinaryString : list Z)
    (huffmanCodes : gmap std_string ascii) : std_string :=
  Decode (unpack encodedBinaryString) huffmanCodes.

(** ** [DecodeFile] *)

(** The successive results of [getline(codeFile, line)]: [line] holds the
    characters read since the last delimiter. *)
Fixpoint getlines (line : std_string) (codeFile : std_string) : list std_string :=
  match codeFile with
  | [] => match line with [] => [] | _ => [line] end
  | c :: rest =>
      if bool_decide (c = ch_nl) then line :: getlines [] rest
      else getlines (line ++ [c]) rest
  end.

(** [line.find(':')]; [None] is [npos]. *)
Fixpoint find_char (c : ascii) (line : std_string) : option nat :=
  match line with
  | [] => None
  | x :: rest => if bool_decide (x = c) then Some O else S <$> find_char c rest
  end.

(** [symbol] and [code] of one line.  Without a [':'], [find] is [npos]:
    [substr(0, npos)] is the whole line and [npos + 1] wraps to [0], so
    [substr(npos + 1)] is the whole line too. *)
Definition split_record (line : std_string) : std_string * std_string :=
  match find_char ch_colon line with
  | Some i => (take i line, drop (S i) line)
  | None => (line, line)
  end.

(** One round of the [while (getline(codeFile, line))] loop. *)
Definition add_record (huffmanCodes : gmap std_string ascii) (line : std_string) : gmap std_string ascii :=
  match line with
  | [] => huffmanCodes
  | _ =>
      let '(symbol, code) := split_record line in
      if bool_decide (symbol = [ch_backslash; ch_n])
      then <[code := ch_nl]> huffmanCodes
      else <[code := hd ch_nul symbol]> huffmanCodes
  end.

Definition read_code_table (codeFile : std_string) : gmap std_string ascii :=
  fold_left add_record (getlines [] codeFile) ∅.

(** [DecodeFile]: the content of the output file, from the content of the
    packed file and of the [.huff] file. *)
Definition DecodeFile (encodedFile : list Z) (huffFile : std_string) : std_string :=
  DecodeBinaryFile encodedFile (read_code_table huffFile).

(** ** [unsigned] and [std::unordered_map<char, V>] *)

Definition UINT_MODULUS : Z := 2 ^ 32.

Definition unsigned_wrap (x : Z) : Z := x mod UINT_MODULUS.

(** The entries of an [unordered_map<char, V>], in the order in which their
    keys were first inserted.  The order in which a range-[for] visits them
    is the library's (see [StdLib]). *)
Abbreviation umap V := (list (ascii * V)).

Fixpoint umap_find {V} (k : ascii) (m : umap V) : option V :=
  match m with
  | [] => None
  | (k', v) :: rest => if bool_decide (k' = k) then Some v else umap_find k rest
  end.

(** [m[k] = f(m[k])], where [operator[]] first inserts a value-initialized
    entry when [k] is absent ([f None] stands for [f] of that value). *)
Fixpoint umap_update {V} (k : ascii) (f : option V → V) (m : umap V) : umap V :=
  match m with
  | [] => [(k, f None)]
  | (k', v) :: rest =>
      if bool_decide (k' = k) then (k', f (Some v)) :: rest
      else (k', v) :: umap_update k f rest
  end.

(** [charFrequencyMap[ch]++] *)
Definition increment (ch : ascii) (m : umap Z) : umap Z :=
  umap_update ch (λ o, unsigned_wrap (default 0 o + 1)) m.

(** Lines 80-84 of [BuildHuffmanTree]. *)
Definition count_frequencies (inputText : std_string) : umap Z :=
  increment ch_nl (fold_left (λ m ch, increment ch m) inputText []).

(** ** [TreeNode] *)

(** A [TreeNode*]: null, or the address of a node with its four fields. *)
Inductive TreeNodePtr : Type :=
  | nullptr
  | Node (character : ascii) (frequency : Z) (left right : TreeNodePtr).

Global Instance TreeNodePtr_eq_dec : EqDecision TreeNodePtr.
Proof. solve_decision. Defined.

Global Instance TreeNodePtr_inhabited : Inhabited TreeNodePtr := populate nullptr.

(** [new TreeNode(character, frequency)] *)
Definition new_TreeNode (character : ascii) (frequency : Z) : TreeNodePtr :=
  Node character frequency nullptr nullptr.

(** [p->frequency]; only nodes are ever dereferenced. *)
Definition frequency_of (p : TreeNodePtr) : Z :=
  match p with
  | nullptr => 0
  | Node _ f _ _ => f
  end.

Definition is_null (p : TreeNodePtr) : bool :=
  match p with nullptr => true | _ => false end.

(** [CompareNodes::operator()] *)
Definition CompareNodes (left right : TreeNodePtr) : bool :=
  bool_decide (frequency_of left > frequency_of right).

(** ** [GenerateHuffmanCodes] *)

Fixpoint GenerateHuffmanCodes (root : TreeNodePtr) (str : std_string)
    (huffmanCodes : umap std_string) : umap std_string :=
  match root with
  | nullptr => huffmanCodes
  | Node character _ root_left root_right =>
      let codes1 :=
        if is_null root_left && is_null root_right
        then umap_update character (λ _, str) huffmanCodes
        else huffmanCodes in
      let codes2 := GenerateHuffmanCodes root_left (str ++ [ch_0]) codes1 in
      GenerateHuffmanCodes root_right (str ++ [ch_1]) codes2
  end.

(** ** The standard library's part

    Two things the source leaves to the C++ library: the order in which a
    range-[for] visits an [unordered_map], and how [push_heap]/[pop_heap]
    (behind [priority_queue::push] and [pop]) arrange the vector. *)

Class StdLib := {
  umap_iterate : ∀ {V}, umap V → umap V;
  push_heap : list TreeNodePtr → list TreeNodePtr;
  pop_heap : list TreeNodePtr → list TreeNodePtr
}.

(** A heap with respect to [CompareNodes] ([alg.heap.operations]): no
    element compares greater than its parent, so a parent's frequency is
    at most its children's. *)
Definition is_heap (c : list TreeNodePtr) : Prop :=
  ∀ (i : nat) p x, (0 < i)%nat → c !! ((i - 1) / 2)%nat = Some p → c !! i = Some x →
    CompareNodes p x = false.

(** What the C++ standard promises of these operations. *)
Class StdLibSpec (L : StdLib) : Prop := {
  umap_iterate_perm : ∀ V (m : umap V), umap_iterate m ≡ₚ m;
  push_heap_spec : ∀ c x,
    is_heap c → is_heap (push_heap (c ++ [x])) ∧ push_heap (c ++ [x]) ≡ₚ c ++ [x];
  pop_heap_spec : ∀ x c,
    is_heap (x :: c) → ∃ c', pop_heap (x :: c) = c' ++ [x] ∧ is_heap c' ∧ c' ≡ₚ c
}.

Section Compressor.
Context {L : StdLib}.

(** ** [std::priority_queue<TreeNode*, vector<TreeNode*>, CompareNodes>] *)

Definition pq_push (x : TreeNodePtr) (c : list TreeNodePtr) : list TreeNodePtr :=
  push_heap (c ++ [x]).

Definition pq_top (c : list TreeNodePtr) : option TreeNodePtr := head c.

Definition pq_pop (c : list TreeNodePtr) : list TreeNodePtr :=
  removelast (pop_heap c).

(** ** [BuildHuffmanTree] *)

(** Lines 86-87: one leaf per entry of the frequency map, pushed in the
    order of the range-[for]. *)
Definition push_leaves (charFrequencyMap : umap Z)
    (priorityQueue : list TreeNodePtr) : list TreeNodePtr :=
  fold_left (λ q (pair : ascii * Z), pq_push (new_TreeNode pair.1 pair.2) q)
    (umap_iterate charFrequencyMap) priorityQueue.

(** Lines 89-97, the [while (priorityQueue.size() != 1)] loop.  [None]: the
    loop is still running when the fuel is gone, or [top] was called on an
    empty queue. *)
Fixpoint merge_loop (fuel : nat) (priorityQueue : list TreeNodePtr)
    : option (list TreeNodePtr) :=
  if bool_decide (length priorityQueue = 1%nat) then Some priorityQueue
  else
    match fuel with
    | O => None
    | S fuel' =>
        leftNode ← pq_top priorityQueue;
        let q1 := pq_pop priorityQueue in
        rightNode ← pq_top q1;
        let q2 := pq_pop q1 in
        let parentNode :=
          Node ch_dollar (unsigned_wrap (frequency_of leftNode + frequency_of rightNode))
            leftNode rightNode in
        merge_loop fuel' (pq_push parentNode q2)
    end.

(** Lines 102-109: the [.huff] file. *)
Definition code_record (pair : ascii * std_string) : std_string :=
  (if bool_decide (pair.1 = ch_nl) then [ch_backslash; ch_n] else [pair.1])
    ++ [ch_colon] ++ pair.2 ++ [ch_nl].

Definition write_code_file (huffmanCodeMap : umap std_string) : std_string :=
  concat (map code_record (umap_iterate huffmanCodeMap)).

(** Line 113; [huffmanCodeMap[ch]] of an absent [ch] is the empty string. *)
Definition encode (huffmanCodeMap : umap std_string) (inputText : std_string) : std_string :=
  concat (map (λ ch, default [] (umap_find ch huffmanCodeMap)) inputText).

(** Lines 86-97: the tree left in the queue, from the frequency map. *)
Definition huffman_tree (charFrequencyMap : umap Z) (priorityQueue : list TreeNodePtr)
    : option TreeNodePtr :=
  let q := push_leaves charFrequencyMap priorityQueue in
  merge_loop (length q) q ≫= pq_top.

Definition build_tree (inputText : std_string) (priorityQueue : list TreeNodePtr)
    : option TreeNodePtr :=
  huffman_tree (count_frequencies inputText) priorityQueue.

(** Lines 99-100. *)
Definition code_table (inputText : std_string) (priorityQueue : list TreeNodePtr)
    : option (umap std_string) :=
  root ← build_tree inputText priorityQueue;
  Some (GenerateHuffmanCodes root [] []).

(** The two files written: [outputFileName + ".huff"] and [outputFileName]. *)
Record compressed := mk_compressed {
  huff_file : std_string;
  packed_file : list Z
}.

Definition BuildHuffmanTree (inputText : std_string) (priorityQueue : list TreeNodePtr)
    : option compressed :=
  huffmanCodeMap ← code_table inputText priorityQueue;
  packed ← WriteEncodedStringToFile (encode huffmanCodeMap inputText);
  Some (mk_compressed (write_code_file huffmanCodeMap) packed).

(** [main] with action ["c"]: the queue handed over is empty. *)
Definition compress (text : std_string) : option compressed := BuildHuffmanTree text [].

(** [main] with action ["d"] on the two files of a compression. *)
Definition decompress (c : compressed) : std_string :=
  DecodeFile (packed_file c) (huff_file c).

End Compressor.

(** ** An implementation of the library's part

    [push_heap] and [pop_heap] as libstdc++ writes them (bits/stl_heap.h),
    over the vector as a list. *)

Module libstdcxx.

(** [__push_heap(first, holeIndex, topIndex, value, comp)].  The hole moves
    to its parent in every round, so [holeIndex] rounds are enough. *)
Fixpoint push_heap_loop (fuel : nat) (c : list TreeNodePtr)
    (holeIndex topIndex : nat) (value : TreeNodePtr) : list TreeNodePtr :=
  let parent := ((holeIndex - 1) / 2)%nat in
  match fuel with
  | O => <[holeIndex := value]> c
  | S fuel' =>
      if bool_decide (topIndex < holeIndex)%nat && CompareNodes (c !!! parent) value
      then push_heap_loop fuel' (<[holeIndex := c !!! parent]> c) parent topIndex value
      else <[holeIndex := value]> c
  end.

Definition push_heap_at (c : list TreeNodePtr) (holeIndex topIndex : nat)
    (value : TreeNodePtr) : list TreeNodePtr :=
  push_heap_loop holeIndex c holeIndex topIndex value.

(** [std::push_heap(first, last, comp)], on a range that is not empty. *)
Definition push_heap (c : list TreeNodePtr) : list TreeNodePtr :=
  match c with
  | [] => []
  | _ => let n := length c in push_heap_at c (n - 1) 0 (c !!! (n - 1)%nat)
  end.

(** The [while (secondChild < (len - 1) / 2)] loop of [__adjust_heap]; the
    result carries [holeIndex] and [secondChild] at the exit. *)
Fixpoint adjust_heap_loop (fuel : nat) (c : list TreeNodePtr)
    (holeIndex secondChild len : nat) : list TreeNodePtr * nat * nat :=
  match fuel with
  | O => (c, holeIndex, secondChild)
  | S fuel' =>
      if bool_decide (secondChild < (len - 1) / 2)%nat then
        let secondChild := (2 * (secondChild + 1))%nat in
        let secondChild :=
          if CompareNodes (c !!! secondChild) (c !!! (secondChild - 1)%nat)
          then (secondChild - 1)%nat else secondChild in
        adjust_heap_loop fuel' (<[holeIndex := c !!! secondChild]> c)
          secondChild secondChild len
      else (c, holeIndex, secondChild)
  end.

(** [__adjust_heap(first, holeIndex, len, value, comp)].  [len] is a signed
    distance: for [len = 0] the source's [(len - 2) / 2] is [-1] and its
    test fails, which [2 ≤ len] says over [nat]. *)
Definition adjust_heap (c : list TreeNodePtr) (holeIndex len : nat)
    (value : TreeNodePtr) : list TreeNodePtr :=
  let topIndex := holeIndex in
  let '(c, holeIndex, secondChild) := adjust_heap_loop len c holeIndex holeIndex len in
  let '(c, holeIndex) :=
    if bool_decide (len mod 2 = 0)%nat && bool_decide (2 ≤ len)%nat
       && bool_decide (secondChild = (len - 2) / 2)%nat
    then
      let secondChild := (2 * (secondChild + 1))%nat in
      (<[holeIndex := c !!! (secondChild - 1)%nat]> c, (secondChild - 1)%nat)
    else (c, holeIndex) in
  push_heap_at c holeIndex topIndex value.

(** [std::pop_heap(first, last, comp)] *)
Definition pop_heap (c : list TreeNodePtr) : list TreeNodePtr :=
  let n := length c in
  if bool_decide (1 < n)%nat then
    let last := (n - 1)%nat in
    let value := c !!! last in
    adjust_heap (<[last := c !!! 0%nat]> c) 0 last value
  else c.

End libstdcxx.

(** The library with a range-[for] that visits entries in the order of
    insertion. *)
Definition insertion_order_lib : StdLib :=
  {| umap_iterate := λ V m, m;
     push_heap := libstdcxx.push_heap;
     pop_heap := libstdcxx.pop_heap |}.

(** The library with a range-[for] that visits the newest entry first. *)
Definition newest_first_lib : StdLib :=
  {| umap_iterate := λ V m, reverse m;
     push_heap := libstdcxx.push_heap;
     pop_heap := libstdcxx.pop_heap |}.

(** The data bytes the packer is meant to write: [k] groups of eight
    characters, from the left. *)
Fixpoint full_chunks (k : nat) (s : std_string) : list std_string :=
  match k with
  | O => []
  | S k' => take 8 s :: full_chunks k' (drop 8 s)
  end.

(** ** Notions the statements below use *)

(** How often [c] stands in [text]. *)
Fixpoint occurrences (c : ascii) (text : std_string) : Z :=
  match text with
  | [] => 0
  | x :: rest => (if bool_decide (x = c) then 1 else 0) + occurrences c rest
  end.

(** The sum of the counts of a frequency map. *)
Definition sum_counts (m : umap Z) : Z := foldr (λ p s, p.2 + s) 0 m.

(** The keys of a map, in insertion order. *)
Definition keys {V} (m : umap V) : list ascii := m.*1.

(** The character a record without separator is entered under. *)
Definition unseparated_symbol (line : std_string) : ascii :=
  if bool_decide (line = [ch_backslash; ch_n]) then ch_nl else hd ch_nul line.

(** The count of [c], zero when [c] has no entry. *)
Definition count_of (c : ascii) (m : umap Z) : Z := default 0 (umap_find c m).

(** Every count is a value of [unsigned]. *)
Definition counts_in_range (m : umap Z) : Prop :=
  Forall (λ p : ascii * Z, 0 ≤ p.2 < UINT_MODULUS) m.

(** The loop of line 81, from a map [m]. *)
Definition count_all (inputText : std_string) (m : umap Z) : umap Z :=
  fold_left (λ m ch, increment ch m) inputText m.

(** ** Trees *)

(** A node without children: what [GenerateHuffmanCodes] gives a code. *)
Definition is_leaf (p : TreeNodePtr) : bool :=
  match p with
  | Node _ _ l r => is_null l && is_null r
  | nullptr => false
  end.

(** The leaves of a tree from left to right, each with its character, its
    frequency and the path that leads to it from a root reached by [str]
    (['0'] to the left, ['1'] to the right). *)
Fixpoint leaf_records (t : TreeNodePtr) (str : std_string)
    : list (ascii * Z * std_string) :=
  match t with
  | nullptr => []
  | Node c f l r =>
      (if is_null l && is_null r then [(c, f, str)] else [])
        ++ leaf_records l (str ++ [ch_0]) ++ leaf_records r (str ++ [ch_1])
  end.

Definition leaves (t : TreeNodePtr) : umap Z :=
  (λ rec : ascii * Z * std_string, (rec.1.1, rec.1.2)) <$> leaf_records t [].

Definition paths (t : TreeNodePtr) (str : std_string) : umap std_string :=
  (λ rec : ascii * Z * std_string, (rec.1.1, rec.2)) <$> leaf_records t str.

(** A tree as [BuildHuffmanTree] makes them: a node is a leaf, or has two
    such trees as children and the wrapped sum of their frequencies as its
    own. *)
Fixpoint proper (t : TreeNodePtr) : Prop :=
  match t with
  | nullptr => False
  | Node _ f l r =>
      (l = nullptr ∧ r = nullptr)
      ∨ (proper l ∧ proper r ∧ f = unsigned_wrap (frequency_of l + frequency_of r))
  end.

(** The parent node made in one round of the loop. *)
Definition merge_nodes (leftNode rightNode : TreeNodePtr) : TreeNodePtr :=
  Node ch_dollar (unsigned_wrap (frequency_of leftNode + frequency_of rightNode))
    leftNode rightNode.

(** The leaves of all the trees of a queue. *)
Definition forest_leaves (q : list TreeNodePtr) : umap Z := q ≫= leaves.

(** [huffmanCodes[p.1] = p.2] *)
Definition set_code (m : umap std_string) (p : ascii * std_string) : umap std_string :=
  umap_update p.1 (λ _, p.2) m.

(** ** Notions for the heap algorithms *)

Definition parent_index (i : nat) : nat := ((i - 1) / 2)%nat.

(** The first [len] elements of [c] form a heap. *)
Definition heap_on (len : nat) (c : list TreeNodePtr) : Prop :=
  ∀ i, (0 < i < len)%nat →
    frequency_of (c !!! parent_index i) ≤ frequency_of (c !!! i).

(** The state of [__push_heap]: the first [len] elements of [c] form a heap
    once [value] is stored at [holeIndex] or above it; what [c] holds at
    [holeIndex] itself does not count. *)
Definition hole_heap (len : nat) (c : list TreeNodePtr) (holeIndex : nat)
    (value : TreeNodePtr) : Prop :=
  (∀ i, (0 < i < len)%nat → i ≠ holeIndex → parent_index i ≠ holeIndex →
     frequency_of (c !!! parent_index i) ≤ frequency_of (c !!! i))
  ∧ (∀ i, (0 < i < len)%nat → parent_index i = holeIndex →
       frequency_of value ≤ frequency_of (c !!! i)
       ∧ ((0 < holeIndex)%nat →
            frequency_of (c !!! parent_index holeIndex) ≤ frequency_of (c !!! i))).

(** ** Notions for the optimality of the tree *)

(** The sum of the frequencies of the leaves of [t]. *)
Fixpoint weight (t : TreeNodePtr) : Z :=
  match t with
  | nullptr => 0
  | Node _ f l r => if is_null l && is_null r then f else weight l + weight r
  end.

(** The weighted path length of [t]: the sum over its leaves of frequency
    times depth. *)
Fixpoint cost (t : TreeNodePtr) : Z :=
  match t with
  | nullptr => 0
  | Node _ _ l r =>
      if is_null l && is_null r then 0 else cost l + cost r + weight l + weight r
  end.

(** The weighted path length of a code for the symbols of [m]: the sum over
    the entries of count times code word length. *)
Definition weighted_length (m : umap Z) (code : ascii → std_string) : Z :=
  foldr (λ (p : ascii * Z) s, p.2 * Z.of_nat (length (code p.1)) + s) 0 m.

(** The code of a code map, as a function. *)
Definition code_of (codes : umap std_string) (c : ascii) : std_string :=
  default [] (umap_find c codes).

(** A code as the list of its pairs of weight and code word over bits. *)
Definition code_cost (code : list (Z * list bool)) : Z :=
  foldr (λ (e : Z * list bool) s, e.1 * Z.of_nat (length e.2) + s) 0 code.

(** The number of bits of all the words of [cs]. *)
Definition total_length (cs : list (list bool)) : nat :=
  foldr (λ (c : list bool) s, (length c + s)%nat) 0%nat cs.

(** No word of [cs] is a prefix of a word at another position. *)
Fixpoint prefix_free (cs : list (list bool)) : Prop :=
  match cs with
  | [] => True
  | c :: rest =>
      Forall (λ c', ¬ c `prefix_of` c' ∧ ¬ c' `prefix_of` c) rest ∧ prefix_free rest
  end.

(** The cost of merging the two least weights until one is left: the
    weighted path length that the greedy construction reaches. *)
Fixpoint greedy_cost_fuel (fuel : nat) (ws : list Z) : Z :=
  match fuel with
  | O => 0
  | S fuel' =>
      match merge_sort Z.le ws with
      | a :: b :: rest => a + b + greedy_cost_fuel fuel' ((a + b) :: rest)
      | _ => 0
      end
  end.

Definition greedy_cost (ws : list Z) : Z := greedy_cost_fuel (length ws) ws.

(** A string of ['0'] and ['1'] as bits. *)
Definition to_bools (s : std_string) : list bool := (λ c, bool_decide (c = ch_1)) <$> s.

Definition sum_Z (l : list Z) : Z := foldr Z.add 0 l.

(** The sum over the leaves of frequency times path length. *)
Definition record_cost (recs : list (ascii * Z * std_string)) : Z :=
  foldr (λ (rec : ascii * Z * std_string) s, rec.1.2 * Z.of_nat (length rec.2) + s) 0 recs.

(** What the loop keeps true of the queue while no sum wraps: every tree
    holds the sum of its leaves' frequencies, the queue weighs [W] in all,
    and the cost of the trees built plus the greedy cost of what is left to
    merge is [G]. *)
Definition cost_invariant (W G : Z) (q : list TreeNodePtr) : Prop :=
  Forall proper q
  ∧ Forall (λ t, 0 ≤ weight t ∧ frequency_of t = weight t) q
  ∧ sum_Z (weight <$> q) = W
  ∧ sum_Z (cost <$> q) + greedy_cost (weight <$> q) = G.

(** ** Tactics *)

(** A character that does not occur in a given literal string. *)
Ltac not_in_literal :=
  unfold lit; simpl; rewrite ?elem_of_cons, elem_of_nil;
  intros H; repeat (destruct H as [H | H]; [discriminate H |]); exact H.

(** ** Files, [ReadFile], [FileSizeCompress], [FileSizeDecompress], [main] *)

(** The functions above take and return the content of their files.  Here
    the files are kept by name, so that the order in which [main] and
    [DecodeFile] open, read and write them shows, and so does a stream that
    cannot be opened.

    The files that [fs::file_size] finds, by name, each with its bytes.  A
    name stands for one file, and no two names for the same file.  Whether
    a stream on a name can be opened is the system's: see [readable] and
    [writable] below.  Once a stream is open, every read and every write on
    it succeeds. *)
Abbreviation files := (gmap std_string std_string).

(** [static_cast<char>(bits.to_ulong())], and the [unsigned char] of the
    loop of [DecodeBinaryFile]. *)
Definition to_char (v : Z) : ascii := ascii_of_nat (Z.to_nat (v mod 256)).

Definition to_unsigned_char (c : ascii) : Z := Z.of_nat (nat_of_ascii c).

(** [fs::file_size(p)]; [None]: it throws [filesystem_error]. *)
Definition file_size (fs : files) (p : std_string) : option Z :=
  (λ content : std_string, Z.of_nat (length content)) <$> fs !! p.

(** [FileSizeCompress]: the two sizes it prints, or [None] when one of the
    calls of [file_size], which come first, throws.  The percentage, a
    computation in [double] on the two sizes, is left out. *)
Definition FileSizeCompress (inputFileName outputFileName : std_string) (fs : files)
    : option (Z * Z) :=
  inputSize ← file_size fs inputFileName;
  outputSize ← file_size fs outputFileName;
  Some (inputSize, outputSize).

Definition FileSizeDecompress (inputFileName outputFileName : std_string) (fs : files)
    : option (Z * Z) :=
  inputSize ← file_size fs inputFileName;
  outputSize ← file_size fs outputFileName;
  Some (inputSize, outputSize).

(** How [main] ends: it returns a status, or the exception of [file_size],
    which nothing catches, ends the program through [std::terminate]. *)
Inductive exit_status : Type :=
  | returned (status : Z)
  | terminated.

Record run := mk_run {
  status : exit_status;
  disk : files;                      (* the files when the program ends *)
  sizes_printed : option (Z * Z)
}.

Definition finish (fs : files) (sizes : option (Z * Z)) : run :=
  match sizes with
  | Some s => mk_run (returned 0) fs (Some s)
  | None => mk_run terminated fs None
  end.

Section Program.
Context {L : StdLib}.

(** The names on which an [ifstream] can be opened when the file is there,
    and the names on which an [ofstream] can be opened: the empty name, a
    name in a directory that is not there, the name of a directory, a file
    without the permission are not among them. *)
Context (readable writable : std_string → bool).

(** What an [ifstream] on [name] gives to its end.  A stream that could
    not be opened gives no character, as the stream of an empty file does;
    no function of the program checks it. *)
Definition ifstream_content (fs : files) (name : std_string) : std_string :=
  if readable name then default [] (fs !! name) else [].

(** [ofstream f(name)], the writes of [content], and the closing of the
    stream.  [f] creates the file or empties the one that is there; when
    it cannot be opened every write is lost, nothing is created, and no
    function of the program checks it. *)
Definition ofstream_write (name content : std_string) (fs : files) : files :=
  if writable name then <[name := content]> fs else fs.

(** [ReadFile] *)
Definition ReadFile (fs : files) (fileName : std_string) : std_string :=
  ifstream_content fs fileName.

(** [BuildHuffmanTree] on the files: the [.huff] file is written and closed
    (lines 102-110), then the packed file (lines 63-71, called at line
    115). *)
Definition BuildHuffmanTree_files (inputText outputFileName : std_string) (fs : files)
    : option files :=
  c ← BuildHuffmanTree inputText [];
  Some (ofstream_write outputFileName (to_char <$> packed_file c)
          (ofstream_write (outputFileName ++ lit ".huff") (huff_file c) fs)).

(** [DecodeFile] on the files: the code file is read to its end and closed
    (lines 169-184); then the output file is opened, which empties it (line
    186); only then [DecodeBinaryFile] reads the packed file (lines
    149-153); what [Decode] writes is in the output file when it is closed
    (line 188). *)
Definition DecodeFile_files (encodedFileName huffFileName outputFileName : std_string)
    (fs : files) : files :=
  let codeFile := ifstream_content fs huffFileName in
  let fs1 := ofstream_write outputFileName [] fs in
  let encodedBinaryString := ifstream_content fs1 encodedFileName in
  ofstream_write outputFileName
    (DecodeFile (to_unsigned_char <$> encodedBinaryString) codeFile) fs1.

(** [main]; [argv] has [argc] entries, the program's name first.  [None]:
    a loop of the compression is still running when its fuel is gone. *)
Definition main (argv : list std_string) (fs : files) : option run :=
  match argv with
  | [_; action; inputFileName; outputFileName] =>
      if bool_decide (action = lit "c") then
        fs' ← BuildHuffmanTree_files (ReadFile fs inputFileName) outputFileName fs;
        Some (finish fs' (FileSizeCompress inputFileName outputFileName fs'))
      else if bool_decide (action = lit "d") then
        let fs' :=
          DecodeFile_files inputFileName (inputFileName ++ lit ".huff") outputFileName fs in
        Some (finish fs' (FileSizeDecompress inputFileName outputFileName fs'))
      else Some (mk_run (returned 1) fs None)
  | _ => Some (mk_run (returned 1) fs None)
  end.


End Program.

(** ** Further notions the statements use *)

(** The table entry that the record written for [pair] is read back as: a
    record starts with the symbol, so the record of [':'] starts with the
    separator. *)
Definition read_back (pair : ascii * std_string) : std_string * ascii :=
  if bool_decide (pair.1 = ch_colon) then (ch_colon :: pair.2, ch_nul)
  else (pair.2, pair.1).

(** The insertion of [huffmanCodes[code] = symbol] for a list of entries. *)
Definition insert_all (entries : list (std_string * ascii))
    (huffmanCodes : gmap std_string ascii) : gmap std_string ascii :=
  fold_left (λ T (e : std_string * ascii), <[e.1 := e.2]> T) entries huffmanCodes.

(** The eight bits of a character: the code that spends a byte on every
    symbol. *)
Definition ascii_bits (c : ascii) : list bool :=
  let '(Ascii b0 b1 b2 b3 b4 b5 b6 b7) := c in [b7; b6; b5; b4; b3; b2; b1; b0].


(** ** Notions for the inputs on which no two nodes tie *)

(** No round of the merging meets a tie: of the frequencies [ws] the least
    is below the second, the second below all others, and so on after they
    are replaced by their wrapped sum. *)
Fixpoint no_ties_fuel (fuel : nat) (ws : list Z) : Prop :=
  match fuel with
  | O => True
  | S fuel' =>
      match merge_sort Z.le ws with
      | a :: b :: rest =>
          a < b ∧ Forall (λ w, b < w) rest
          ∧ no_ties_fuel fuel' (unsigned_wrap (a + b) :: rest)
      | _ => True
      end
  end.

Definition no_ties (m : umap Z) : Prop := no_ties_fuel (length m) (m.*2).

(** A record of the code file without the newline that ends it. *)
Definition code_line (pair : ascii * std_string) : std_string :=
  (if bool_decide (pair.1 = ch_nl) then [ch_backslash; ch_n] else [pair.1])
    ++ [ch_colon] ++ pair.2.

(** ** An input on which the counts wrap *)

(** [2^31] letters [a], as many letters [b], [2^31 + 5] letters [c] and
    [2^31 + 4] newlines. *)
Definition wrapping_input : std_string :=
  repeat "a"%char (Z.to_nat 2147483648) ++ repeat "b"%char (Z.to_nat 2147483648)
    ++ repeat "c"%char (Z.to_nat 2147483653) ++ repeat ch_nl (Z.to_nat 2147483652).
(** * The compressor at work *)

Example count_frequencies_aab :
  count_frequencies (lit "aab") = [("a"%char, 2); ("b"%char, 1); (ch_nl, 1)].
Proof. reflexivity. Qed.

Example code_table_aab :
  @code_table insertion_order_lib (lit "aab") [] =
    Some [("a"%char, lit "0"); ("b"%char, lit "10"); (ch_nl, lit "11")].
Proof. reflexivity. Qed.

Example compress_aab :
  @compress insertion_order_lib (lit "aab") =
    Some (mk_compressed
            (lit "a:0" ++ [ch_nl] ++ lit "b:10" ++ [ch_nl]
               ++ [ch_backslash; ch_n] ++ lit ":11" ++ [ch_nl])
            [2]).
Proof. reflexivity. Qed.

Example decompress_aab :
  decompress <$> @compress insertion_order_lib (lit "aab") = Some (lit "aaaaaab").
Proof. reflexivity. Qed.

(** * Properties of the packer *)

Section Packer.

Lemma is_bit_char_true c : c = ch_0 ∨ c = ch_1 → is_bit_char c = true.
Proof. unfold is_bit_char. intros [-> | ->]; reflexivity. Qed.

Lemma is_bit_char_spec c : is_bit_char c = true ↔ (c = ch_0 ∨ c = ch_1).
Proof.
  unfold is_bit_char. rewrite orb_true_iff, !bool_decide_eq_true. done.
Qed.

(** [is_bits] by computation. *)
Lemma is_bits_forallb s : forallb is_bit_char s = true → is_bits s.
Proof.
  intros H. apply Forall_forall. intros c Hc.
  apply is_bit_char_spec. rewrite forallb_forall in H. apply H.
  by apply list_elem_of_In.
Qed.

Lemma isspace_bit c : c = ch_0 ∨ c = ch_1 → isspace c = false.
Proof. intros [-> | ->]; reflexivity. Qed.

Lemma skipws_bits s : is_bits s → skipws s = s.
Proof.
  destruct 1 as [| c r Hc _]; [reflexivity |].
  simpl. by rewrite (isspace_bit c Hc).
Qed.

Lemma get_bits_bits n s :
  is_bits s →
  get_bits n s = (take n s, drop n s, bool_decide (length s < n)%nat).
Proof.
  intros Hs. revert n. induction Hs as [| c r Hc Hr IH]; intros [| n]; simpl; try reflexivity.
  rewrite (is_bit_char_true c Hc), IH.
  repeat f_equal. apply bool_decide_ext. lia.
Qed.

Lemma is_bits_drop n s : is_bits s → is_bits (drop n s).
Proof. apply Forall_drop. Qed.

(** One round of the loop on a stream of bit characters. *)
Lemma extract_bitset_bits s bits :
  is_bits s → s ≠ [] →
  extract_bitset (mk_istream s false false) bits =
    (mk_istream (drop 8 s) (bool_decide (length s < 8)%nat) false,
     bitset_of_string (take 8 s)).
Proof.
  intros Hs Hne. unfold extract_bitset.
  cbn [good eofbit failbit rdbuf negb andb].
  rewrite (skipws_bits s Hs).
  destruct s as [| c r]; [done |].
  rewrite (get_bits_bits 8 (c :: r) Hs). reflexivity.
Qed.

Lemma extract_bitset_nil bits :
  extract_bitset (mk_istream [] false false) bits = (mk_istream [] true true, bits).
Proof. reflexivity. Qed.

Lemma write_loop_not_good fuel s bits : good s = false → write_loop fuel s bits = Some [].
Proof. intros H. destruct fuel; simpl; by rewrite H. Qed.

Lemma last_cons_default {A} (x d : A) l : List.last (x :: l) d = List.last l x.
Proof. revert x d. induction l as [| y l IH]; intros x d; [reflexivity |].
  change (List.last (x :: y :: l) d) with (List.last (y :: l) d).
  change (List.last (y :: l) x) with (List.last (y :: l) x).
  by rewrite !IH.
Qed.

(** What the loop writes for a bit string, whatever [bits] holds on entry. *)
Lemma write_loop_bits (n : nat) : ∀ s fuel bits,
  length s = n → is_bits s → (n < fuel)%nat →
  write_loop fuel (mk_istream s false false) bits =
    Some (let data := map bitset_of_string (full_chunks (n / 8) s) in
          data ++ [if bool_decide (n mod 8 = 0)%nat
                   then List.last data bits
                   else bitset_of_string (drop (8 * (n / 8)) s)]).
Proof.
  induction (lt_wf n) as [n _ IH]. intros s fuel bits Hn Hs Hfuel.
  destruct fuel as [| fuel]; [lia |].
  destruct (decide (s = [])) as [-> | Hne].
  { simpl in Hn. subst n.
    cbn [write_loop good eofbit failbit negb andb].
    rewrite extract_bitset_nil, write_loop_not_good by reflexivity.
    reflexivity. }
  cbn [write_loop good eofbit failbit negb andb].
  rewrite (extract_bitset_bits s bits Hs Hne).
  destruct (decide (n < 8)%nat) as [Hlt | Hge].
  - rewrite bool_decide_true by lia.
    rewrite write_loop_not_good by reflexivity.
    rewrite (Nat.div_small n 8), (Nat.mod_small n 8) by lia.
    rewrite bool_decide_false by (destruct s; simpl in *; [done | lia]).
    simpl. by rewrite take_ge by lia.
  - rewrite bool_decide_false by lia.
    assert (Hdiv : (n / 8 = S ((n - 8) / 8))%nat).
    { replace n with ((n - 8) + 1 * 8)%nat at 1 by lia.
      rewrite Nat.div_add by lia. lia. }
    assert (Hmod : (n mod 8 = (n - 8) mod 8)%nat).
    { replace n with ((n - 8) + 1 * 8)%nat at 1 by lia.
      by rewrite Nat.Div0.mod_add. }
    rewrite (IH (n - 8)%nat) with (s := drop 8 s) by
      (try apply is_bits_drop; try rewrite length_drop; (done || lia)).
    rewrite Hdiv, Hmod. set (k := ((n - 8) / 8)%nat).
    cbn [full_chunks map fmap option_fmap option_map app]. cbn zeta.
    rewrite last_cons_default, drop_drop.
    replace (8 * S k)%nat with (8 + 8 * k)%nat by lia. reflexivity.
Qed.

Lemma length_skipws l : (length (skipws l) ≤ length l)%nat.
Proof.
  induction l as [| c l IH]; simpl; [done |]. destruct (isspace c); simpl; lia.
Qed.

Lemma get_bits_app n : ∀ l tmp rest e, get_bits n l = (tmp, rest, e) → l = tmp ++ rest.
Proof.
  induction n as [| n IH]; intros l tmp rest e H; simpl in H.
  - by inversion H.
  - destruct l as [| c r]; [by inversion H |].
    destruct (is_bit_char c); [| by inversion H].
    destruct (get_bits n r) as [[t rest'] e'] eqn:Hr. inversion H; subst.
    simpl. f_equal. by apply (IH r t rest e).
Qed.

(** An extraction ends the loop or shortens the buffer. *)
Lemma extract_bitset_progress s bits :
  good s = true →
  good (extract_bitset s bits).1 = false
  ∨ (length (rdbuf (extract_bitset s bits).1) < length (rdbuf s))%nat.
Proof.
  intros Hgood. unfold extract_bitset. rewrite Hgood.
  pose proof (length_skipws (rdbuf s)) as Hskip.
  destruct (skipws (rdbuf s)) as [| c r] eqn:Hsk; [by left |].
  destruct (get_bits 8 (c :: r)) as [[tmp rest] e] eqn:Hget.
  apply get_bits_app in Hget as Happ.
  destruct tmp as [| t tmp]; simpl.
  - left. unfold good. simpl. by rewrite andb_false_r.
  - right. apply (f_equal length) in Happ. rewrite length_app in Happ.
    simpl in *. lia.
Qed.

(** The loop ends on every string: the fuel is never used up. *)
Lemma write_loop_total fuel : ∀ s bits,
  (length (rdbuf s) < fuel)%nat → is_Some (write_loop fuel s bits).
Proof.
  induction fuel as [| fuel IH]; intros s bits Hfuel; [lia |].
  cbn [write_loop]. destruct (good s) eqn:Hgood; [| done].
  destruct (extract_bitset_progress s bits Hgood) as [Hend | Hshort];
    destruct (extract_bitset s bits) as [s' bits'] eqn:Hex; simpl in *.
  - rewrite write_loop_not_good by done. done.
  - destruct (IH s' bits') as [out Hout]; [lia |]. by rewrite Hout.
Qed.

Lemma WriteEncodedStringToFile_total encodedString :
  is_Some (WriteEncodedStringToFile encodedString).
Proof. apply write_loop_total. simpl. lia. Qed.

Lemma length_full_chunks k s : length (full_chunks k s) = k.
Proof. revert s. induction k as [| k IH]; intros s; simpl; [done | by rewrite IH]. Qed.

Lemma full_chunks_snoc k : ∀ s,
  full_chunks (S k) s = full_chunks k s ++ [take 8 (drop (8 * k) s)].
Proof.
  induction k as [| k IH]; intros s; [reflexivity |].
  change (full_chunks (S (S k)) s) with (take 8 s :: full_chunks (S k) (drop 8 s)).
  rewrite IH, drop_drop. replace (8 + 8 * k)%nat with (8 * S k)%nat by lia.
  reflexivity.
Qed.

Lemma WriteEncodedStringToFile_bits s :
  is_bits s →
  WriteEncodedStringToFile s =
    Some (let data := map bitset_of_string (full_chunks (length s / 8) s) in
          data ++ [if bool_decide (length s mod 8 = 0)%nat
                   then List.last data 0
                   else bitset_of_string (drop (8 * (length s / 8)) s)]).
Proof. intros Hs. unfold WriteEncodedStringToFile. by apply write_loop_bits; [| | lia]. Qed.

End Packer.

(** C10: on a bit string of length [n] the packer writes [n / 8 + 1] bytes:
    a single zero byte when [n = 0]; when [n] is a positive multiple of 8,
    the last data byte (the value of the last eight characters) twice, the
    second copy coming from the extraction that fails and leaves the bitset
    as it was.  The packed stream is never empty. *)
Theorem WriteEncodedStringToFile_size (encodedString : std_string) :
  is_bits encodedString →
  ∃ bytes, WriteEncodedStringToFile encodedString = Some bytes
    ∧ length bytes = (length encodedString / 8 + 1)%nat
    ∧ (length encodedString = 0%nat → bytes = [0])
    ∧ ((0 < length encodedString)%nat → (length encodedString mod 8 = 0)%nat →
        ∃ front, bytes = front ++
          [bitset_of_string (drop (length encodedString - 8) encodedString);
           bitset_of_string (drop (length encodedString - 8) encodedString)])
    ∧ bytes ≠ [].
Proof.
  intros Hs. eexists. split; [by apply WriteEncodedStringToFile_bits |].
  cbn zeta. set (n := length encodedString).
  split; [| split; [| split]].
  - rewrite length_app, length_map, length_full_chunks. reflexivity.
  - intros Hn. rewrite Hn. reflexivity.
  - intros Hpos Hmod. rewrite bool_decide_true by done.
    assert (Hk : (n / 8 = S (n / 8 - 1) ∧ n = 8 * (n / 8 - 1) + 8)%nat).
    { pose proof (Nat.div_mod_eq n 8). lia. }
    destruct Hk as [Hk Hn]. set (k := (n / 8 - 1)%nat) in *.
    rewrite Hk, full_chunks_snoc, map_app. cbn [map].
    rewrite last_last.
    replace (n - 8)%nat with (8 * k)%nat by lia.
    rewrite (take_ge (drop (8 * k) encodedString)) by (rewrite length_drop; lia).
    exists (map bitset_of_string (full_chunks k encodedString)).
    by rewrite <- app_assoc.
  - by destruct (map bitset_of_string _).
Qed.

Lemma WriteEncodedStringToFile_size_witness :
  ∃ bytes, WriteEncodedStringToFile (lit "0100000101000010") = Some bytes
    ∧ length bytes = 3%nat
    ∧ (16%nat = 0%nat → bytes = [0])
    ∧ ((0 < 16)%nat → (16 mod 8 = 0)%nat → ∃ front, bytes = front ++ [66; 66])
    ∧ bytes ≠ [].
Proof.
  apply (WriteEncodedStringToFile_size (lit "0100000101000010")).
  apply is_bits_forallb. reflexivity.
Defined.

(** * The packed layout *)

Lemma bitset_of_string_snoc t c :
  bitset_of_string (t ++ [c]) =
    2 * bitset_of_string t + (if bool_decide (c = ch_1) then 1 else 0).
Proof. unfold bitset_of_string. by rewrite fold_left_app. Qed.

Lemma bitset_of_string_bound t : 0 ≤ bitset_of_string t < 2 ^ Z.of_nat (length t).
Proof.
  induction t as [| c t IH] using rev_ind; [unfold bitset_of_string; simpl; lia |].
  rewrite bitset_of_string_snoc, length_app, Nat2Z.inj_add, Z.pow_add_r by lia.
  change (2 ^ Z.of_nat (length [c])) with 2.
  case_bool_decide; lia.
Qed.

(** When the bit count is no multiple of 8, the last byte written is the
    value of the remaining characters read as a binary number: they sit in
    its low positions, and the positions above them are zero. *)
Lemma WriteEncodedStringToFile_last_byte s :
  is_bits s → (length s mod 8 ≠ 0)%nat →
  ∃ front v, WriteEncodedStringToFile s = Some (front ++ [v])
    ∧ v = bitset_of_string (drop (8 * (length s / 8)) s)
    ∧ 0 ≤ v < 2 ^ Z.of_nat (length s mod 8).
Proof.
  intros Hs Hmod. rewrite (WriteEncodedStringToFile_bits s Hs). cbn zeta.
  rewrite bool_decide_false by done.
  eexists _, _. split; [reflexivity |]. split; [reflexivity |].
  pose proof (bitset_of_string_bound (drop (8 * (length s / 8)) s)) as Hb.
  rewrite length_drop in Hb.
  replace (length s - 8 * (length s / 8))%nat with (length s mod 8)%nat in Hb; [done |].
  pose proof (Nat.div_mod_eq (length s) 8). lia.
Qed.

(** C2, at the one-bit sequence ["1"]: the packer writes the byte 1, whose
    bit 7 is clear and whose bit 0 is set, where the claim has the bit in
    the high position (byte 128); the unpacker turns the byte into
    ["00000001"], which does not start with the bit that was packed. *)
Theorem pack_single_bit_low_position :
  WriteEncodedStringToFile (lit "1") = Some [1]
  ∧ Z.testbit 1 7 = false ∧ Z.testbit 1 0 = true
  ∧ unpack [1] = lit "00000001"
  ∧ ¬ lit "1" `prefix_of` unpack [1].
Proof.
  repeat split; try reflexivity.
  intros [k Hk]. discriminate Hk.
Qed.

(** * The decoder *)

Lemma Decode_loop_split codes : ∀ bits t0 out temp,
  Decode_loop codes t0 bits = (out, temp) →
  (out = [] ∧ temp = t0 ++ bits) ∨
  (∃ matched, bits = matched ++ temp ∧ Decode_loop codes t0 matched = (out, [])).
Proof.
  induction bits as [| bit rest IH]; intros t0 out temp H; simpl in H.
  - inversion H; subst. left. by rewrite app_nil_r.
  - destruct (codes !! (t0 ++ [bit])) as [c |] eqn:Hc.
    + destruct (Decode_loop codes [] rest) as [out' t] eqn:Hrest.
      inversion H; subst. right.
      destruct (IH [] out' temp Hrest) as [[-> ->] | [m [-> Hm]]].
      * exists [bit]. split; [done |]. simpl. by rewrite Hc.
      * exists (bit :: m). split; [done |]. simpl. by rewrite Hc, Hm.
    + destruct (IH (t0 ++ [bit]) out temp H) as [[-> ->] | [m [-> Hm]]].
      * left. by rewrite <- app_assoc.
      * right. exists (bit :: m). split; [done |]. simpl. by rewrite Hc.
Qed.

(** The candidate left when the bits run out (matched or not) is dropped:
    the text written is the text of the bit sequence without that tail. *)
Lemma Decode_drops_tail (huffmanCodes : gmap std_string ascii) (encodedString : std_string) :
  ∃ matched, encodedString = matched ++ (Decode_loop huffmanCodes [] encodedString).2
    ∧ Decode_loop huffmanCodes [] matched = (Decode encodedString huffmanCodes, []).
Proof.
  unfold Decode.
  destruct (Decode_loop huffmanCodes [] encodedString) as [out temp] eqn:H.
  destruct (Decode_loop_split _ _ _ _ _ H) as [[-> ->] | [m [-> Hm]]]; simpl.
  - exists []. by rewrite app_nil_l.
  - exists m. by rewrite Hm.
Qed.

(** C8, as the code has it: decoding a packed stream has no failure
    outcome.  The bits of the stream split into a part that is matched
    code word by code word and the candidate left at the end; the output
    is the output of the matched part alone, whether or not the candidate
    left is empty. *)
Theorem DecodeBinaryFile_drops_unmatched_tail (encodedBinaryString : list Z)
    (huffmanCodes : gmap std_string ascii) :
  ∃ matched,
    unpack encodedBinaryString =
      matched ++ (Decode_loop huffmanCodes [] (unpack encodedBinaryString)).2
    ∧ Decode_loop huffmanCodes [] matched =
        (DecodeBinaryFile encodedBinaryString huffmanCodes, [])
    ∧ Decode matched huffmanCodes = DecodeBinaryFile encodedBinaryString huffmanCodes.
Proof.
  destruct (Decode_drops_tail huffmanCodes (unpack encodedBinaryString)) as (m & H1 & H2).
  exists m. split; [done |]. split; [done |].
  unfold Decode at 1. by rewrite H2.
Qed.

(** C8 fails at the packed byte 1 with the table ["0" -> 'a']: the
    candidate ["1"] is left unmatched, and the output is the one of the
    seven-bit stream that ends cleanly. *)
Lemma Decode_unmatched_tail_unreported :
  Decode_loop {[ lit "0" := "a"%char ]} [] (unpack [1]) = (lit "aaaaaaa", lit "1")
  ∧ ({[ lit "0" := "a"%char ]} : gmap std_string ascii) !! lit "1" = None
  ∧ DecodeBinaryFile [1] {[ lit "0" := "a"%char ]} = lit "aaaaaaa"
  ∧ Decode_loop {[ lit "0" := "a"%char ]} [] (lit "0000000") = (lit "aaaaaaa", []).
Proof. vm_compute. done. Qed.

(** * The code table reader *)

Lemma getlines_line acc line rest :
  ch_nl ∉ line →
  getlines acc (line ++ ch_nl :: rest) = (acc ++ line) :: getlines [] rest.
Proof.
  revert acc. induction line as [| c line IH]; intros acc Hnl.
  - change (getlines acc ([] ++ ch_nl :: rest)) with
      (if bool_decide (ch_nl = ch_nl) then acc :: getlines [] rest
       else getlines (acc ++ [ch_nl]) rest).
    rewrite bool_decide_true by done. by rewrite app_nil_r.
  - change (getlines acc ((c :: line) ++ ch_nl :: rest)) with
      (if bool_decide (c = ch_nl) then acc :: getlines [] (line ++ ch_nl :: rest)
       else getlines (acc ++ [c]) (line ++ ch_nl :: rest)).
    rewrite bool_decide_false by (intros ->; apply Hnl; left).
    rewrite IH by (intros H; apply Hnl; by right). by rewrite <- app_assoc.
Qed.

(** Reading goes line by line: what stands before a complete line is read
    on its own. *)
Lemma getlines_app pre rest :
  pre = [] ∨ last pre = Some ch_nl →
  getlines [] (pre ++ rest) = getlines [] pre ++ getlines [] rest.
Proof.
  intros Hpre.
  assert (Hgen : ∀ l acc, last l = Some ch_nl →
    getlines acc (l ++ rest) = getlines acc l ++ getlines [] rest).
  { clear. induction l as [| c l IH]; intros acc Hl; [done |].
    destruct l as [| c' l'].
    - simpl in Hl. inversion Hl; subst. reflexivity.
    - change (last (c :: c' :: l')) with (last (c' :: l')) in Hl.
      change (getlines acc ((c :: c' :: l') ++ rest)) with
        (if bool_decide (c = ch_nl) then acc :: getlines [] ((c' :: l') ++ rest)
         else getlines (acc ++ [c]) ((c' :: l') ++ rest)).
      change (getlines acc (c :: c' :: l')) with
        (if bool_decide (c = ch_nl) then acc :: getlines [] (c' :: l')
         else getlines (acc ++ [c]) (c' :: l')).
      case_bool_decide; by rewrite IH. }
  destruct Hpre as [-> | Hl]; [done | by apply Hgen].
Qed.

Lemma find_char_None c line : c ∉ line → find_char c line = None.
Proof.
  induction line as [| x line IH]; intros Hc; [done |].
  simpl. rewrite bool_decide_false by (intros ->; apply Hc; left).
  rewrite IH; [done |]. intros H; apply Hc; by right.
Qed.

Lemma add_record_unseparated codes line :
  line ≠ [] → ch_colon ∉ line →
  add_record codes line = <[line := unseparated_symbol line]> codes.
Proof.
  intros Hne Hc. unfold add_record, split_record, unseparated_symbol.
  rewrite (find_char_None _ _ Hc).
  destruct line; [done |]. by case_bool_decide.
Qed.

(** C7, as the code has it: a non-empty record without [':'] is not
    refused.  The whole line is taken both as symbol and as code word: the
    table gets the line as a key, mapped to the line's first character (to
    the newline when the line is [\n]), and reading goes on with the
    records that follow. *)
Theorem read_code_table_unseparated_record (pre line post : std_string) :
  pre = [] ∨ last pre = Some ch_nl →
  line ≠ [] → ch_nl ∉ line → ch_colon ∉ line →
  read_code_table (pre ++ line ++ ch_nl :: post) =
    fold_left add_record (getlines [] post)
      (<[line := unseparated_symbol line]> (read_code_table pre)).
Proof.
  intros Hpre Hne Hnl Hc. unfold read_code_table.
  rewrite getlines_app, getlines_line by done.
  rewrite fold_left_app. simpl. by rewrite add_record_unseparated.
Qed.

Lemma read_code_table_unseparated_record_witness :
  read_code_table (lit "b:0" ++ [ch_nl] ++ lit "ab" ++ ch_nl :: lit "c:1") =
    fold_left add_record (getlines [] (lit "c:1"))
      (<[lit "ab" := "a"%char]> (read_code_table (lit "b:0" ++ [ch_nl]))).
Proof.
  apply (read_code_table_unseparated_record (lit "b:0" ++ [ch_nl]) (lit "ab") (lit "c:1")).
  - right. reflexivity.
  - discriminate.
  - not_in_literal.
  - not_in_literal.
Defined.

(** C7 fails at the artifact made of the one record [ab]: it is read
    without complaint, into the table that the well-formed artifact [a:ab]
    gives, so nothing tells the two apart. *)
Lemma read_code_table_accepts_unseparated :
  (ch_colon ∉ lit "ab")
  ∧ read_code_table (lit "ab" ++ [ch_nl]) = {[ lit "ab" := "a"%char ]}
  ∧ read_code_table (lit "ab" ++ [ch_nl]) = read_code_table (lit "a:ab" ++ [ch_nl]).
Proof.
  split; [not_in_literal | split; reflexivity].
Qed.

(** * The frequency counter *)

Section Counter.

Lemma unsigned_wrap_small x : 0 ≤ x < UINT_MODULUS → unsigned_wrap x = x.
Proof. apply Z.mod_small. Qed.

Lemma unsigned_wrap_range x : 0 ≤ unsigned_wrap x < UINT_MODULUS.
Proof. apply Z.mod_pos_bound. reflexivity. Qed.

Lemma umap_find_update {V} k k' (f : option V → V) m :
  umap_find k' (umap_update k f m) =
    if bool_decide (k = k') then Some (f (umap_find k m)) else umap_find k' m.
Proof.
  induction m as [| [k0 v] m IH]; simpl.
  - by case_bool_decide.
  - destruct (bool_decide (k0 = k)) eqn:Hk0; simpl.
    + apply bool_decide_eq_true in Hk0 as ->. by case_bool_decide.
    + apply bool_decide_eq_false in Hk0. rewrite IH.
      repeat case_bool_decide; congruence.
Qed.

Lemma keys_update_present {V} k (f : option V → V) m :
  k ∈ keys m → keys (umap_update k f m) = keys m.
Proof.
  unfold keys. induction m as [| [k0 v] m IH]; simpl; [by intros ?%elem_of_nil |].
  intros Hk. case_bool_decide; simpl; [done |].
  f_equal. apply IH. apply elem_of_cons in Hk as [-> | ?]; done.
Qed.

Lemma umap_update_absent {V} k (f : option V → V) m :
  k ∉ keys m → umap_update k f m = m ++ [(k, f None)].
Proof.
  unfold keys. induction m as [| [k0 v] m IH]; simpl; [done |].
  intros Hk. rewrite not_elem_of_cons in Hk. destruct Hk as [Hne Hk].
  rewrite bool_decide_false by done. by rewrite IH.
Qed.

Lemma umap_find_None {V} k (m : umap V) : umap_find k m = None ↔ k ∉ keys m.
Proof.
  unfold keys. induction m as [| [k0 v] m IH]; simpl.
  - split; [intros _; apply not_elem_of_nil | done].
  - rewrite not_elem_of_cons. case_bool_decide as Hk.
    + split; [done | intros [? _]; done].
    + rewrite IH. split; [done | intros [_ ?]; done].
Qed.

Lemma umap_find_None_not {V} k (m : umap V) : umap_find k m ≠ None → k ∈ keys m.
Proof.
  intros H. destruct (decide (k ∈ keys m)) as [| Hout]; [done |].
  by apply umap_find_None in Hout.
Qed.

Lemma umap_find_elem_of {V} k v (m : umap V) :
  NoDup (keys m) → (umap_find k m = Some v ↔ (k, v) ∈ m).
Proof.
  unfold keys. induction m as [| [k0 v0] m IH]; simpl.
  - intros _. split; [done | by intros ?%elem_of_nil].
  - intros [Hk0 Hnd]%NoDup_cons. rewrite elem_of_cons. case_bool_decide as Hk.
    + subst k0. split; [intros [= ->]; by left |].
      intros [[= ->] | Hin]; [done |].
      exfalso. apply Hk0. apply list_elem_of_fmap. by exists (k, v).
    + rewrite (IH Hnd). split; [by right |]. intros [[= -> ->] | ?]; done.
Qed.

Lemma keys_update_NoDup {V} k (f : option V → V) m :
  NoDup (keys m) → NoDup (keys (umap_update k f m)).
Proof.
  intros Hnd. destruct (decide (k ∈ keys m)) as [Hin | Hout].
  - by rewrite keys_update_present.
  - rewrite umap_update_absent by done. unfold keys in *.
    rewrite fmap_app. simpl. apply NoDup_app. split; [done |].
    split; [| apply NoDup_singleton].
    intros x Hx ->%list_elem_of_singleton. done.
Qed.

Lemma count_of_increment ch c m :
  count_of c (increment ch m) =
    if bool_decide (ch = c) then unsigned_wrap (count_of ch m + 1) else count_of c m.
Proof. unfold count_of, increment. rewrite umap_find_update. by case_bool_decide. Qed.

Lemma counts_in_range_increment ch m :
  counts_in_range m → counts_in_range (increment ch m).
Proof.
  unfold counts_in_range, increment.
  induction m as [| [k v] m IH]; simpl; intros H.
  - repeat constructor; apply unsigned_wrap_range.
  - inversion H; subst. case_bool_decide; constructor; auto.
    apply unsigned_wrap_range.
Qed.

Lemma count_of_range c m : counts_in_range m → 0 ≤ count_of c m < UINT_MODULUS.
Proof.
  unfold count_of, counts_in_range. induction 1 as [| [k v] m Hv _ IH]; simpl.
  { unfold UINT_MODULUS. lia. }
  by case_bool_decide.
Qed.

Lemma counts_in_range_count_all text : ∀ m,
  counts_in_range m → counts_in_range (count_all text m).
Proof.
  induction text as [| ch text IH]; intros m Hm; [done |].
  apply IH. by apply counts_in_range_increment.
Qed.

Lemma keys_count_all_NoDup text : ∀ m, NoDup (keys m) → NoDup (keys (count_all text m)).
Proof.
  induction text as [| ch text IH]; intros m Hm; [done |].
  apply IH. by apply keys_update_NoDup.
Qed.

(** Counts are the numbers of occurrences modulo [2^32]. *)
Lemma count_of_count_all c text : ∀ m,
  counts_in_range m →
  count_of c (count_all text m) = unsigned_wrap (count_of c m + occurrences c text).
Proof.
  induction text as [| ch text IH]; intros m Hm.
  - simpl. rewrite Z.add_0_r. symmetry. apply unsigned_wrap_small.
    by apply count_of_range.
  - change (count_all (ch :: text) m) with (count_all text (increment ch m)).
    rewrite IH by (by apply counts_in_range_increment).
    rewrite count_of_increment. simpl occurrences. unfold unsigned_wrap.
    case_bool_decide as Hc.
    + subst ch. rewrite Zplus_mod_idemp_l. f_equal; lia.
    + f_equal; lia.
Qed.

Lemma elem_of_keys_count_all c text : ∀ m,
  c ∈ keys (count_all text m) ↔ c ∈ keys m ∨ c ∈ text.
Proof.
  induction text as [| ch text IH]; intros m.
  - simpl. rewrite elem_of_nil. intuition (subst; auto).
  - change (count_all (ch :: text) m) with (count_all text (increment ch m)).
    rewrite IH, elem_of_cons. unfold increment.
    destruct (decide (ch ∈ keys m)) as [Hin | Hout].
    + rewrite keys_update_present by done. intuition (subst; auto).
    + rewrite umap_update_absent by done. unfold keys. rewrite fmap_app, elem_of_app.
      simpl. rewrite list_elem_of_singleton. intuition (subst; auto).
Qed.

Lemma occurrences_nonneg c text : 0 ≤ occurrences c text.
Proof. induction text as [| x text IH]; simpl; [done |]. case_bool_decide; lia. Qed.

Lemma occurrences_le_length c text : occurrences c text ≤ Z.of_nat (length text).
Proof. induction text as [| x text IH]; simpl length; simpl occurrences; [done |]. case_bool_decide; lia. Qed.

Lemma sum_counts_nonneg m : counts_in_range m → 0 ≤ sum_counts m.
Proof. induction 1 as [| [k v] m [Hv _] _ IH]; simpl in *; lia. Qed.

Lemma sum_counts_increment ch m :
  counts_in_range m → sum_counts m + 1 < UINT_MODULUS →
  sum_counts (increment ch m) = sum_counts m + 1.
Proof.
  unfold increment. induction 1 as [| [k v] m [Hv Hv'] Hm IH]; simpl in *; intros Hs.
  - rewrite unsigned_wrap_small; lia.
  - pose proof (sum_counts_nonneg m Hm).
    case_bool_decide; simpl.
    + rewrite unsigned_wrap_small; lia.
    + rewrite IH; lia.
Qed.

Lemma sum_counts_count_all text : ∀ m,
  counts_in_range m → sum_counts m + Z.of_nat (length text) < UINT_MODULUS →
  sum_counts (count_all text m) = sum_counts m + Z.of_nat (length text).
Proof.
  induction text as [| ch text IH]; intros m Hm Hs.
  - simpl. lia.
  - change (count_all (ch :: text) m) with (count_all text (increment ch m)).
    simpl length in *.
    rewrite IH.
    + rewrite sum_counts_increment by (done || lia). lia.
    + by apply counts_in_range_increment.
    + rewrite sum_counts_increment by (done || lia). lia.
Qed.

Lemma umap_find_count_of c m : c ∈ keys m → umap_find c m = Some (count_of c m).
Proof.
  intros Hc. unfold count_of. destruct (umap_find c m) eqn:H; [done |].
  by apply umap_find_None in H.
Qed.

Lemma count_all_repeat a : ∀ n v,
  0 ≤ v < UINT_MODULUS →
  count_all (repeat a n) [(a, v)] = [(a, unsigned_wrap (v + Z.of_nat n))].
Proof.
  induction n as [| n IH]; intros v Hv.
  - simpl. by rewrite Z.add_0_r, unsigned_wrap_small.
  - change (count_all (repeat a (S n)) [(a, v)]) with
      (count_all (repeat a n) (increment a [(a, v)])).
    unfold increment. simpl umap_update. rewrite bool_decide_true by done.
    rewrite IH by apply unsigned_wrap_range.
    unfold unsigned_wrap. rewrite Zplus_mod_idemp_l.
    do 3 f_equal. lia.
Qed.

Lemma count_frequencies_repeat a n :
  a ≠ ch_nl → (0 < n)%nat →
  count_frequencies (repeat a n) = [(a, unsigned_wrap (Z.of_nat n)); (ch_nl, 1)].
Proof.
  intros Ha Hn. destruct n as [| n]; [lia |].
  unfold count_frequencies. fold (count_all (repeat a (S n)) []).
  change (count_all (repeat a (S n)) []) with
    (count_all (repeat a n) [(a, unsigned_wrap (0 + 1))]).
  rewrite count_all_repeat by apply unsigned_wrap_range.
  unfold increment. simpl umap_update. rewrite bool_decide_false by done.
  unfold unsigned_wrap. rewrite Zplus_mod_idemp_l.
  do 3 f_equal. lia.
Qed.

Lemma occurrences_repeat a n : occurrences a (repeat a n) = Z.of_nat n.
Proof.
  induction n as [| n IH]; [done |].
  change (occurrences a (repeat a (S n))) with
    ((if bool_decide (a = a) then 1 else 0) + occurrences a (repeat a n)).
  rewrite bool_decide_true by done. lia.
Qed.

End Counter.

(** C4, for inputs whose length plus one is a value of [unsigned]: the
    newline's count is its number of occurrences plus one, every other
    character of the input has its number of occurrences as count and no
    other character has an entry, the counts add up to the length plus one,
    and no key stands twice.  For the empty input the map is the single
    entry of the newline with count 1.  Counting is a total function. *)
Theorem count_frequencies_counts (inputText : std_string) :
  Z.of_nat (length inputText) + 1 < UINT_MODULUS →
  umap_find ch_nl (count_frequencies inputText) = Some (occurrences ch_nl inputText + 1)
  ∧ (∀ c, c ≠ ch_nl →
       umap_find c (count_frequencies inputText) =
         if bool_decide (c ∈ inputText) then Some (occurrences c inputText) else None)
  ∧ sum_counts (count_frequencies inputText) = Z.of_nat (length inputText) + 1
  ∧ NoDup (keys (count_frequencies inputText))
  ∧ count_frequencies [] = [(ch_nl, 1)].
Proof.
  intros Hlen. unfold count_frequencies. fold (count_all inputText []).
  assert (Hr : counts_in_range (count_all inputText [])).
  { apply counts_in_range_count_all. constructor. }
  assert (Hocc : ∀ c, count_of c (count_all inputText []) = occurrences c inputText).
  { intros c. rewrite count_of_count_all by constructor.
    apply unsigned_wrap_small. unfold count_of. simpl.
    pose proof (occurrences_nonneg c inputText).
    pose proof (occurrences_le_length c inputText). lia. }
  assert (Hkeys : ∀ c, c ∈ keys (increment ch_nl (count_all inputText [])) ↔
                       c = ch_nl ∨ c ∈ inputText).
  { intros c. unfold increment.
    destruct (decide (ch_nl ∈ keys (count_all inputText []))) as [Hin | Hout].
    - rewrite keys_update_present by done. rewrite elem_of_keys_count_all.
      apply elem_of_keys_count_all in Hin. unfold keys. simpl.
      rewrite elem_of_nil. destruct Hin as [[]%elem_of_nil | Hin]. intuition (subst; auto).
    - rewrite umap_update_absent by done. unfold keys. rewrite fmap_app, elem_of_app.
      fold (keys (count_all inputText [])). rewrite elem_of_keys_count_all.
      simpl. rewrite list_elem_of_singleton. unfold keys. simpl.
      rewrite elem_of_nil. intuition (subst; auto). }
  split; [| split; [| split; [| split]]].
  - rewrite umap_find_count_of by (apply Hkeys; by left).
    rewrite count_of_increment, bool_decide_true, Hocc by done.
    f_equal. apply unsigned_wrap_small.
    pose proof (occurrences_nonneg ch_nl inputText).
    pose proof (occurrences_le_length ch_nl inputText). lia.
  - intros c Hc. case_bool_decide as Hin.
    + rewrite umap_find_count_of by (apply Hkeys; by right).
      by rewrite count_of_increment, bool_decide_false, Hocc.
    + apply umap_find_None. rewrite Hkeys. intuition (subst; auto).
  - rewrite sum_counts_increment.
    + rewrite sum_counts_count_all; [simpl; lia | constructor | simpl; lia].
    + done.
    + rewrite sum_counts_count_all; [simpl; lia | constructor | simpl; lia].
  - apply keys_update_NoDup, keys_count_all_NoDup. constructor.
  - reflexivity.
Qed.

Lemma count_frequencies_counts_witness :
  umap_find ch_nl (count_frequencies (lit "aab")) = Some (occurrences ch_nl (lit "aab") + 1)
  ∧ (∀ c, c ≠ ch_nl →
       umap_find c (count_frequencies (lit "aab")) =
         if bool_decide (c ∈ lit "aab") then Some (occurrences c (lit "aab")) else None)
  ∧ sum_counts (count_frequencies (lit "aab")) = Z.of_nat (length (lit "aab")) + 1
  ∧ NoDup (keys (count_frequencies (lit "aab")))
  ∧ count_frequencies [] = [(ch_nl, 1)].
Proof. apply (count_frequencies_counts (lit "aab")). reflexivity. Defined.

(** C4 fails at the input of [2^32] letters [a]: the counter of [a] has
    wrapped to 0, and the counts add up to 1. *)
Lemma count_frequencies_wraps :
  occurrences "a" (repeat "a"%char (Z.to_nat UINT_MODULUS)) = UINT_MODULUS
  ∧ umap_find "a" (count_frequencies (repeat "a"%char (Z.to_nat UINT_MODULUS))) = Some 0
  ∧ sum_counts (count_frequencies (repeat "a"%char (Z.to_nat UINT_MODULUS))) = 1
  ∧ Z.of_nat (length (repeat "a"%char (Z.to_nat UINT_MODULUS))) + 1 = UINT_MODULUS + 1.
Proof.
  assert (Hn : Z.of_nat (Z.to_nat UINT_MODULUS) = UINT_MODULUS) by (by apply Z2Nat.id).
  assert (Hpos : (0 < Z.to_nat UINT_MODULUS)%nat) by (by apply (Z2Nat.inj_lt 0)).
  rewrite occurrences_repeat, repeat_length, count_frequencies_repeat by done.
  rewrite Hn. unfold unsigned_wrap. rewrite Z_mod_same_full.
  repeat split; reflexivity.
Qed.

(** * Trees and their codes *)

Section Trees.

Lemma leaf_records_path_prefix t : ∀ str rec,
  rec ∈ leaf_records t str → str `prefix_of` rec.2.
Proof.
  induction t as [| c f l IHl r IHr]; intros str rec; simpl.
  - by intros ?%elem_of_nil.
  - rewrite !elem_of_app. intros [Hin | [Hin | Hin]].
    + destruct (is_null l && is_null r); [| by apply elem_of_nil in Hin].
      apply list_elem_of_singleton in Hin as ->. done.
    + apply IHl in Hin. etrans; [| exact Hin]. by apply prefix_app_r.
    + apply IHr in Hin. etrans; [| exact Hin]. by apply prefix_app_r.
Qed.

Lemma is_null_true p : is_null p = true → p = nullptr.
Proof. by destruct p. Qed.

Lemma prefix_snoc_branch (str p q : std_string) :
  (str ++ [ch_0]) `prefix_of` p → (str ++ [ch_1]) `prefix_of` q →
  ¬ p `prefix_of` q ∧ ¬ q `prefix_of` p.
Proof.
  intros [p' ->] [q' ->]. rewrite <- !app_assoc. simpl.
  split; intros [k Hk]; rewrite <- !app_assoc in Hk;
    apply app_inv_head in Hk; discriminate Hk.
Qed.

(** Two leaves with comparable paths are one leaf: in particular they carry
    the same character. *)
Lemma leaf_records_prefix t : ∀ str r1 r2,
  r1 ∈ leaf_records t str → r2 ∈ leaf_records t str →
  r1.2 `prefix_of` r2.2 → r1 = r2.
Proof.
  induction t as [| c f l IHl r IHr]; intros str r1 r2; simpl.
  - by intros ?%elem_of_nil.
  - destruct (is_null l && is_null r) eqn:Hleaf.
    + apply andb_true_iff in Hleaf as [->%is_null_true ->%is_null_true]. simpl.
      by intros ->%list_elem_of_singleton ->%list_elem_of_singleton.
    + simpl. rewrite !elem_of_app. intros [H1 | H1] [H2 | H2] Hp.
      * eauto.
      * apply leaf_records_path_prefix in H1, H2.
        by destruct (prefix_snoc_branch _ _ _ H1 H2).
      * apply leaf_records_path_prefix in H1, H2.
        by destruct (prefix_snoc_branch _ _ _ H2 H1).
      * eauto.
Qed.

Lemma GenerateHuffmanCodes_paths t : ∀ str m,
  GenerateHuffmanCodes t str m = fold_left set_code (paths t str) m.
Proof.
  unfold paths. induction t as [| c f l IHl r IHr]; intros str m; [done |].
  simpl. rewrite IHr, IHl, !fmap_app, !fold_left_app.
  by destruct (is_null l && is_null r).
Qed.

Lemma set_codes_NoDup ps : ∀ m,
  NoDup (keys m ++ keys ps) → fold_left set_code ps m = m ++ ps.
Proof.
  induction ps as [| [k v] ps IH]; intros m H; simpl; [by rewrite app_nil_r |].
  unfold set_code at 2. simpl. rewrite umap_update_absent.
  - rewrite IH, <- app_assoc; [done |].
    unfold keys in *. rewrite fmap_app, <- app_assoc. done.
  - apply NoDup_app in H as (_ & H & _). intros Hk. apply (H k Hk). left.
Qed.

Lemma keys_paths t str : keys (paths t str) = keys (leaves t).
Proof.
  unfold keys, paths, leaves. rewrite <- !list_fmap_compose.
  revert str. generalize (@nil ascii) as s0.
  induction t as [| c f l IHl r IHr]; intros s0 str; [done |].
  simpl. rewrite !fmap_app. f_equal; [by destruct (is_null l && is_null r) |].
  f_equal; [apply IHl | apply IHr].
Qed.

Lemma leaves_Node_internal c f l r :
  l ≠ nullptr → r ≠ nullptr → leaves (Node c f l r) ≡ₚ leaves l ++ leaves r.
Proof.
  intros Hl Hr. unfold leaves. simpl.
  replace (is_null l && is_null r) with false by (by destruct l).
  simpl. rewrite fmap_app.
  assert (Hshift : ∀ t s1 s2,
    (λ rec : ascii * Z * std_string, (rec.1.1, rec.1.2)) <$> leaf_records t s1 =
    (λ rec : ascii * Z * std_string, (rec.1.1, rec.1.2)) <$> leaf_records t s2).
  { clear. induction t as [| c f l IHl r IHr]; intros s1 s2; [done |].
    simpl. rewrite !fmap_app. f_equal; [by destruct (is_null l && is_null r) |].
    f_equal; [apply IHl | apply IHr]. }
  by rewrite (Hshift l _ []), (Hshift r _ []).
Qed.

End Trees.

(** * The priority queue and the tree builder *)

Lemma is_heap_nil : is_heap [].
Proof. intros i p x _ _ H. by rewrite lookup_nil in H. Qed.

Lemma CompareNodes_false p x : CompareNodes p x = false ↔ frequency_of p ≤ frequency_of x.
Proof. unfold CompareNodes. rewrite bool_decide_eq_false. lia. Qed.

(** The front of a heap has the least frequency. *)
Lemma is_heap_front_min x c z :
  is_heap (x :: c) → z ∈ x :: c → frequency_of x ≤ frequency_of z.
Proof.
  intros Hheap [i Hi]%list_elem_of_lookup. revert z Hi.
  induction (lt_wf i) as [i _ IH]. intros z Hi.
  destruct (decide (i = 0)%nat) as [-> | Hpos].
  { simpl in Hi. by inversion Hi. }
  assert (Hlt : ((i - 1) / 2 < i)%nat).
  { apply Nat.Div0.div_lt_upper_bound. lia. }
  destruct (lookup_lt_is_Some_2 (x :: c) ((i - 1) / 2)%nat) as [p Hp].
  { apply lookup_lt_Some in Hi. lia. }
  etrans; [apply (IH _ Hlt p Hp) |].
  apply CompareNodes_false. apply (Hheap i p z); [lia | done | done].
Qed.

Section Builder.
Context {L : StdLib} (HL : StdLibSpec L).

Lemma pq_push_spec c x : is_heap c → is_heap (pq_push x c) ∧ pq_push x c ≡ₚ x :: c.
Proof.
  intros Hc. destruct (push_heap_spec c x Hc) as [Hh Hp].
  split; [done |]. unfold pq_push. rewrite Hp. by rewrite Permutation_app_comm.
Qed.

Lemma pq_pop_spec x c : is_heap (x :: c) → is_heap (pq_pop (x :: c)) ∧ pq_pop (x :: c) ≡ₚ c.
Proof.
  intros Hc. destruct (pop_heap_spec x c Hc) as (c' & Hpop & Hh & Hp).
  unfold pq_pop. rewrite Hpop, removelast_last. done.
Qed.

Lemma push_leaves_spec m : ∀ q,
  is_heap q →
  is_heap (push_leaves m q)
  ∧ push_leaves m q ≡ₚ q ++ ((λ pair : ascii * Z, new_TreeNode pair.1 pair.2) <$> m).
Proof.
  unfold push_leaves. intros q Hq.
  assert (Hgen : ∀ xs q, is_heap q →
    is_heap (fold_left (λ q (pair : ascii * Z), pq_push (new_TreeNode pair.1 pair.2) q) xs q)
    ∧ fold_left (λ q (pair : ascii * Z), pq_push (new_TreeNode pair.1 pair.2) q) xs q
        ≡ₚ q ++ ((λ pair : ascii * Z, new_TreeNode pair.1 pair.2) <$> xs)).
  { clear q Hq. induction xs as [| [c f] xs IH]; intros q Hq.
    - simpl. by rewrite app_nil_r.
    - simpl. destruct (pq_push_spec q (new_TreeNode c f) Hq) as [Hh Hp].
      destruct (IH _ Hh) as [Hh' Hp']. split; [done |].
      rewrite Hp', Hp. simpl. by rewrite Permutation_middle. }
  destruct (Hgen (umap_iterate m) q Hq) as [Hh Hp]. split; [done |].
  rewrite Hp. apply Permutation_app_head, fmap_Permutation, umap_iterate_perm.
Qed.

(** One round of the loop: the two nodes taken have the least frequencies,
    first [x], then [y]. *)
Lemma merge_loop_round fuel q :
  is_heap q → (2 ≤ length q)%nat →
  ∃ x y rest q',
    merge_loop (S fuel) q = merge_loop fuel q'
    ∧ is_heap q'
    ∧ q ≡ₚ x :: y :: rest
    ∧ q' ≡ₚ merge_nodes x y :: rest
    ∧ (∀ z, z ∈ y :: rest → frequency_of x ≤ frequency_of z)
    ∧ (∀ z, z ∈ rest → frequency_of y ≤ frequency_of z).
Proof.
  intros Hq Hlen. destruct q as [| x c]; [simpl in Hlen; lia |].
  destruct (pq_pop_spec x c Hq) as [Hh1 Hp1].
  destruct (pq_pop (x :: c)) as [| y c1] eqn:Hq1.
  { apply Permutation_length in Hp1. simpl in *. lia. }
  destruct (pq_pop_spec y c1 Hh1) as [Hh2 Hp2].
  destruct (pq_push_spec (pq_pop (y :: c1)) (merge_nodes x y) Hh2) as [Hh3 Hp3].
  exists x, y, (pq_pop (y :: c1)), (pq_push (merge_nodes x y) (pq_pop (y :: c1))).
  split; [| split; [done | split; [| split; [| split]]]].
  - cbn [merge_loop]. rewrite bool_decide_false by (simpl in *; lia).
    simpl. rewrite Hq1. reflexivity.
  - by rewrite Hp2, Hp1.
  - done.
  - intros z Hz. apply (is_heap_front_min x c z Hq). right.
    by rewrite Hp2, Hp1 in Hz.
  - intros z Hz. apply (is_heap_front_min y c1 z Hh1). right. by rewrite <- Hp2.
Qed.

(** The loop ends with one tree in the queue, and keeps every property of
    the queue that does not depend on the order of the trees and that a
    merge of the two least frequent trees keeps. *)
Lemma merge_loop_invariant (I : list TreeNodePtr → Prop) :
  (∀ q q', q ≡ₚ q' → I q → I q') →
  (∀ x y rest, I (x :: y :: rest) →
     (∀ z, z ∈ y :: rest → frequency_of x ≤ frequency_of z) →
     (∀ z, z ∈ rest → frequency_of y ≤ frequency_of z) →
     I (merge_nodes x y :: rest)) →
  ∀ fuel q, is_heap q → q ≠ [] → (length q ≤ S fuel)%nat → I q →
  ∃ root, merge_loop fuel q = Some [root] ∧ I [root].
Proof.
  intros Hperm Hmerge. induction fuel as [| fuel IH]; intros q Hq Hne Hlen HI.
  - destruct q as [| x [| y q]]; simpl in *; [done | | lia].
    exists x. done.
  - destruct (decide (length q = 1)%nat) as [H1 | H1].
    + destruct q as [| x [| y q]]; simpl in *; [done | | lia].
      exists x. done.
    + assert (Hlen2 : (2 ≤ length q)%nat) by (destruct q; simpl in *; [done | lia]).
      destruct (merge_loop_round fuel q Hq Hlen2)
        as (x & y & rest & q' & Heq & Hq' & Hp & Hp' & Hx & Hy).
      rewrite Heq. apply IH.
      * done.
      * intros ->. by apply Permutation_nil_l in Hp'.
      * apply Permutation_length in Hp, Hp'. simpl in *. lia.
      * apply (Hperm (merge_nodes x y :: rest)); [done |].
        apply Hmerge; [| done | done]. by apply (Hperm q).
Qed.

Lemma proper_not_null t : proper t → t ≠ nullptr.
Proof. by destruct t. Qed.

Lemma forest_leaves_new m :
  forest_leaves ((λ pair : ascii * Z, new_TreeNode pair.1 pair.2) <$> m) = m.
Proof.
  unfold forest_leaves. induction m as [| [c f] m IH]; [done |].
  rewrite fmap_cons, bind_cons, IH. reflexivity.
Qed.

Lemma forest_leaves_merge x y rest :
  proper x → proper y →
  forest_leaves (merge_nodes x y :: rest) ≡ₚ forest_leaves (x :: y :: rest).
Proof.
  intros Hx%proper_not_null Hy%proper_not_null. unfold forest_leaves.
  rewrite !bind_cons. unfold merge_nodes.
  rewrite leaves_Node_internal by done. by rewrite <- app_assoc.
Qed.

(** The builder returns a tree, and its leaves are the entries of the
    frequency map. *)
Lemma huffman_tree_leaves (m : umap Z) :
  m ≠ [] →
  ∃ root, huffman_tree m [] = Some root ∧ proper root ∧ leaves root ≡ₚ m.
Proof.
  intros Hm. unfold huffman_tree.
  destruct (push_leaves_spec m [] is_heap_nil) as [Hh Hp]. simpl in Hp.
  set (q0 := push_leaves m []) in *.
  destruct (merge_loop_invariant
    (λ q, Forall proper q ∧ forest_leaves q ≡ₚ m)) with (fuel := length q0) (q := q0)
    as (root & Hroot & Hproper & Hleaves).
  - intros q q' Hq [H1 H2]. split; [by rewrite <- Hq |].
    unfold forest_leaves in *. by rewrite <- Hq.
  - intros x y rest [H1 H2] _ _.
    apply Forall_cons in H1 as [Hx H1]. apply Forall_cons in H1 as [Hy H1].
    split.
    + constructor; [| done]. simpl. right. done.
    + by rewrite forest_leaves_merge.
  - done.
  - intros Hq0. rewrite Hq0 in Hp. apply Permutation_nil_l in Hp.
    by destruct m.
  - lia.
  - split.
    + rewrite Hp. apply Forall_fmap, Forall_forall. intros [c f] _. simpl. by left.
    + unfold forest_leaves. rewrite Hp. by rewrite <- (forest_leaves_new m) at 2.
  - exists root. rewrite Hroot. simpl. split; [done |].
    apply Forall_cons in Hproper as [Hproper _]. split; [done |].
    unfold forest_leaves in Hleaves. rewrite bind_cons in Hleaves. simpl in Hleaves.
    by rewrite app_nil_r in Hleaves.
Qed.

Lemma count_frequencies_not_nil text : count_frequencies text ≠ [].
Proof.
  unfold count_frequencies, increment.
  by destruct (fold_left _ text []) as [| [k v] m]; simpl; [| case_bool_decide].
Qed.

Lemma count_frequencies_NoDup text : NoDup (keys (count_frequencies text)).
Proof. apply keys_update_NoDup, keys_count_all_NoDup. constructor. Qed.

(** The code map of a compression: the leaves of the tree from left to
    right, each with its path. *)
Lemma code_table_paths text :
  ∃ root, build_tree text [] = Some root
    ∧ proper root
    ∧ leaves root ≡ₚ count_frequencies text
    ∧ code_table text [] = Some (paths root []).
Proof.
  destruct (huffman_tree_leaves (count_frequencies text) (count_frequencies_not_nil text))
    as (root & Hroot & Hproper & Hleaves).
  exists root. split; [done |]. split; [done |]. split; [done |].
  unfold code_table, build_tree. rewrite Hroot. simpl. f_equal.
  rewrite GenerateHuffmanCodes_paths, set_codes_NoDup; [done |].
  simpl. rewrite keys_paths. unfold keys. rewrite Hleaves.
  apply count_frequencies_NoDup.
Qed.

End Builder.

(** * The heap algorithms of libstdc++ meet the standard *)

Section Heap.
Implicit Types c : list TreeNodePtr.

Lemma parent_index_lt i : (0 < i)%nat → (parent_index i < i)%nat.
Proof. intros Hi. unfold parent_index. apply Nat.Div0.div_lt_upper_bound. lia. Qed.

Lemma parent_index_children h i :
  (0 < i)%nat → parent_index i = h ↔ (i = 2 * h + 1 ∨ i = 2 * h + 2)%nat.
Proof.
  intros Hi. unfold parent_index.
  pose proof (Nat.div_mod_eq (i - 1) 2) as Hdm.
  pose proof (Nat.mod_upper_bound (i - 1) 2).
  split.
  - intros <-. lia.
  - intros [-> | ->].
    + replace (2 * h + 1 - 1)%nat with (h * 2)%nat by lia. by rewrite Nat.div_mul.
    + replace (2 * h + 2 - 1)%nat with (1 + h * 2)%nat by lia.
      by rewrite Nat.div_add.
Qed.

Lemma is_heap_heap_on c : is_heap c ↔ heap_on (length c) c.
Proof.
  unfold is_heap, heap_on. split.
  - intros H i Hi. apply CompareNodes_false.
    pose proof (parent_index_lt i ltac:(lia)).
    apply (H i); [lia | |]; apply list_lookup_lookup_total_lt; lia.
  - intros H i p x Hi Hp Hx. apply CompareNodes_false.
    apply list_lookup_total_correct in Hp as Hp'.
    apply list_lookup_total_correct in Hx as Hx'.
    rewrite <- Hp', <- Hx'. apply H. apply lookup_lt_Some in Hx. lia.
Qed.

Lemma heap_on_take len c : (len ≤ length c)%nat → heap_on len c → is_heap (take len c).
Proof.
  intros Hlen H. apply is_heap_heap_on. rewrite length_take_le by done.
  intros i Hi. pose proof (parent_index_lt i ltac:(lia)).
  rewrite !lookup_total_take_lt by lia. by apply H.
Qed.

(** Moving the hole from [h] to [j]. *)
Lemma hole_move c h j v :
  (h < length c)%nat → (j < length c)%nat → h ≠ j →
  <[j := v]> (<[h := c !!! j]> c) ≡ₚ <[h := v]> c.
Proof.
  intros Hh Hj Hne.
  rewrite <- (list_insert_insert_eq c h (c !!! j) v).
  apply Permutation_insert_swap.
  - by apply list_lookup_insert_eq.
  - rewrite list_lookup_insert_ne by done. by apply list_lookup_lookup_total_lt.
Qed.

Lemma hole_heap_of_heap len c h v :
  heap_on len c → (∀ i, (0 < i < len)%nat → parent_index i ≠ h) → hole_heap len c h v.
Proof.
  intros H Hleaf. split.
  - intros i Hi _ _. by apply H.
  - intros i Hi Hp. by destruct (Hleaf i Hi).
Qed.

Lemma hole_heap_fill len c h v :
  (h < len ≤ length c)%nat → hole_heap len c h v →
  ((0 < h)%nat → frequency_of (c !!! parent_index h) ≤ frequency_of v) →
  heap_on len (<[h := v]> c).
Proof.
  intros Hh [H1 H2] Hv i Hi.
  pose proof (parent_index_lt i ltac:(lia)) as Hlt.
  destruct (decide (i = h)) as [-> | Hih].
  - rewrite list_lookup_total_insert_eq by lia.
    rewrite list_lookup_total_insert_ne by lia. apply Hv. lia.
  - rewrite (list_lookup_total_insert_ne c h i) by done.
    destruct (decide (parent_index i = h)) as [Hp | Hp].
    + rewrite Hp, list_lookup_total_insert_eq by lia. by apply H2.
    + rewrite list_lookup_total_insert_ne by done. by apply H1.
Qed.

Lemma hole_heap_up len c h v :
  (h < len ≤ length c)%nat → (0 < h)%nat → hole_heap len c h v →
  frequency_of v < frequency_of (c !!! parent_index h) →
  hole_heap len (<[h := c !!! parent_index h]> c) (parent_index h) v.
Proof.
  intros Hh Hpos [H1 H2] Hv.
  pose proof (parent_index_lt h Hpos) as Hph.
  set (p := parent_index h) in *.
  assert (Hins : ∀ i, i ≠ h → <[h := c !!! p]> c !!! i = c !!! i).
  { intros i Hi. by rewrite list_lookup_total_insert_ne. }
  assert (Hinsh : <[h := c !!! p]> c !!! h = c !!! p).
  { rewrite list_lookup_total_insert_eq; [done | lia]. }
  split.
  - intros i Hi Hip Hpp.
    pose proof (parent_index_lt i ltac:(lia)) as Hlt.
    destruct (decide (i = h)) as [-> | Hih]; [done |].
    rewrite (Hins i) by done.
    destruct (decide (parent_index i = h)) as [Hp | Hp].
    + rewrite Hp, Hinsh. apply H2; [done | done | done].
    + rewrite Hins by done. by apply H1.
  - intros i Hi Hip.
    pose proof (parent_index_lt i ltac:(lia)) as Hlt.
    assert (Hpi : frequency_of (c !!! p) ≤ frequency_of (<[h := c !!! p]> c !!! i)).
    { destruct (decide (i = h)) as [-> | Hih]; [by rewrite Hinsh |].
      rewrite Hins by done. rewrite <- Hip. apply H1; [done | done | lia]. }
    split; [lia |]. intros Hppos.
    pose proof (parent_index_lt p Hppos) as Hpp.
    rewrite (Hins (parent_index p)) by lia.
    etrans; [| exact Hpi]. apply H1; [lia | lia | lia].
Qed.

(** [__push_heap] with [topIndex = 0]. *)
Lemma push_heap_loop_spec len : ∀ fuel c h v,
  (h ≤ fuel)%nat → (h < len ≤ length c)%nat → hole_heap len c h v →
  heap_on len (libstdcxx.push_heap_loop fuel c h 0 v)
  ∧ libstdcxx.push_heap_loop fuel c h 0 v ≡ₚ <[h := v]> c
  ∧ drop len (libstdcxx.push_heap_loop fuel c h 0 v) = drop len c.
Proof.
  induction fuel as [| fuel IH]; intros c h v Hfuel Hh Hinv.
  - simpl. split; [| split].
    + apply hole_heap_fill; [done | done | lia].
    + done.
    + rewrite drop_insert_lt; [done | lia].
  - cbn [libstdcxx.push_heap_loop]. fold (parent_index h).
    destruct (bool_decide (0 < h)%nat && CompareNodes (c !!! parent_index h) v) eqn:Hcond.
    + apply andb_true_iff in Hcond as [Hpos%bool_decide_eq_true Hcmp].
      unfold CompareNodes in Hcmp. apply bool_decide_eq_true in Hcmp.
      pose proof (parent_index_lt h Hpos) as Hph.
      destruct (IH (<[h := c !!! parent_index h]> c) (parent_index h) v) as (H1 & H2 & H3).
      * lia.
      * rewrite length_insert. lia.
      * apply hole_heap_up; [done | done | done | lia].
      * split; [done |]. split.
        -- rewrite H2. apply hole_move; lia.
        -- rewrite H3. rewrite drop_insert_lt; [done | lia].
    + split; [| split].
      * apply hole_heap_fill; [done | done |]. intros Hpos.
        apply andb_false_iff in Hcond as [Hc | Hc].
        -- apply bool_decide_eq_false in Hc. lia.
        -- by apply CompareNodes_false.
      * done.
      * rewrite drop_insert_lt; [done | lia].
Qed.

Lemma libstdcxx_push_heap_spec c x :
  is_heap c →
  is_heap (libstdcxx.push_heap (c ++ [x])) ∧ libstdcxx.push_heap (c ++ [x]) ≡ₚ c ++ [x].
Proof.
  intros Hc. unfold libstdcxx.push_heap, libstdcxx.push_heap_at.
  destruct (c ++ [x]) as [| y l] eqn:Hl; [by destruct c |]. rewrite <- Hl. clear y l Hl.
  rewrite length_app. simpl length.
  replace (length c + 1 - 1)%nat with (length c) by lia.
  rewrite list_lookup_total_middle by done.
  destruct (push_heap_loop_spec (length c + 1) (length c) (c ++ [x]) (length c) x)
    as (H1 & H2 & H3).
  - lia.
  - rewrite length_app. simpl. lia.
  - apply is_heap_heap_on in Hc. split.
    + intros i Hi Hih Hp. pose proof (parent_index_lt i ltac:(lia)).
      rewrite !lookup_total_app_l by lia. apply Hc. lia.
    + intros i Hi Hp. pose proof (parent_index_lt i ltac:(lia)). lia.
  - split.
    + apply is_heap_heap_on. apply Permutation_length in H2.
      rewrite H2, length_insert, length_app. simpl. done.
    + rewrite H2. rewrite list_insert_id; [done |].
      by rewrite list_lookup_middle.
Qed.

(** The descent of [__adjust_heap]: the hole goes down to a node without two
    children, the lesser child moving up in every round. *)
Lemma adjust_heap_loop_spec len : ∀ fuel c h,
  (len ≤ fuel + h)%nat → (h < len ≤ length c)%nat → heap_on len c →
  ∃ c' h',
    libstdcxx.adjust_heap_loop fuel c h h len = (c', h', h')
    ∧ (h' < len)%nat ∧ ¬ (h' < (len - 1) / 2)%nat
    ∧ heap_on len c'
    ∧ length c' = length c
    ∧ (∀ v, <[h' := v]> c' ≡ₚ <[h := v]> c)
    ∧ drop len c' = drop len c.
Proof.
  induction fuel as [| fuel IH]; intros c h Hfuel Hh Hc.
  { exists c, h. simpl. repeat split; try done; lia. }
  cbn [libstdcxx.adjust_heap_loop]. case_bool_decide as Hcond.
  2: { exists c, h. repeat split; try done; lia. }
  assert (Hsc : (2 * (h + 1) < len)%nat).
  { pose proof (Nat.div_mod_eq (len - 1) 2).
    pose proof (Nat.mod_upper_bound (len - 1) 2). lia. }
  set (sc := (2 * (h + 1))%nat) in *.
  set (m := if CompareNodes (c !!! sc) (c !!! (sc - 1)%nat) then (sc - 1)%nat else sc).
  assert (Hm : (m = 2 * h + 1 ∨ m = 2 * h + 2)%nat).
  { subst m sc. destruct (CompareNodes _ _); lia. }
  assert (Hmin : ∀ i, (i = 2 * h + 1 ∨ i = 2 * h + 2)%nat →
            frequency_of (c !!! m) ≤ frequency_of (c !!! i)).
  { intros i Hi. subst m. destruct (CompareNodes _ _) eqn:Hcmp.
    - unfold CompareNodes in Hcmp. apply bool_decide_eq_true in Hcmp.
      destruct Hi as [-> | ->].
      + replace (sc - 1)%nat with (2 * h + 1)%nat by lia. done.
      + replace (2 * h + 2)%nat with sc by lia. lia.
    - apply CompareNodes_false in Hcmp.
      destruct Hi as [-> | ->].
      + replace (2 * h + 1)%nat with (sc - 1)%nat by lia. done.
      + replace (2 * h + 2)%nat with sc by lia. done. }
  assert (Hpm : parent_index m = h) by (apply parent_index_children; lia).
  destruct (IH (<[h := c !!! m]> c) m) as (c' & h' & Heq & Hh' & Hexit & Hheap & Hlen & Hperm & Hdrop).
  - lia.
  - rewrite length_insert. lia.
  - intros i Hi. pose proof (parent_index_lt i ltac:(lia)) as Hlt.
    destruct (decide (i = h)) as [-> | Hih].
    + rewrite list_lookup_total_insert_eq by lia.
      rewrite list_lookup_total_insert_ne by lia.
      etrans; [apply (Hc h); lia |]. rewrite <- Hpm at 1. apply Hc. lia.
    + rewrite (list_lookup_total_insert_ne c h i) by done.
      destruct (decide (parent_index i = h)) as [Hp | Hp].
      * rewrite Hp, list_lookup_total_insert_eq by lia.
        apply Hmin. apply parent_index_children; [lia | done].
      * rewrite list_lookup_total_insert_ne by done. by apply Hc.
  - exists c', h'. rewrite Heq. split; [done |]. split; [done |]. split; [done |].
    split; [done |]. split; [by rewrite Hlen, length_insert |]. split.
    + intros v. rewrite Hperm. apply hole_move; lia.
    + rewrite Hdrop. rewrite drop_insert_lt; [done | lia].
Qed.

Lemma adjust_heap_spec len c value :
  (0 < len ≤ length c)%nat → heap_on len c →
  heap_on len (libstdcxx.adjust_heap c 0 len value)
  ∧ libstdcxx.adjust_heap c 0 len value ≡ₚ <[0%nat := value]> c
  ∧ drop len (libstdcxx.adjust_heap c 0 len value) = drop len c.
Proof.
  intros Hlen Hc. unfold libstdcxx.adjust_heap.
  destruct (adjust_heap_loop_spec len len c 0)
    as (c' & h' & -> & Hh' & Hexit & Hheap & Hlen' & Hperm & Hdrop); [lia | lia | done |].
  pose proof (Nat.div_mod_eq (len - 1) 2) as Hd1.
  pose proof (Nat.mod_upper_bound (len - 1) 2) as Hm1.
  pose proof (Nat.div_mod_eq (len - 2) 2) as Hd2.
  pose proof (Nat.mod_upper_bound (len - 2) 2) as Hm2.
  pose proof (Nat.div_mod_eq len 2) as Hd0.
  pose proof (Nat.mod_upper_bound len 2) as Hm0.
  destruct (bool_decide (len mod 2 = 0)%nat && bool_decide (2 ≤ len)%nat
            && bool_decide (h' = (len - 2) / 2)%nat) eqn:Hcond.
  - apply andb_true_iff in Hcond as [Hcond Hh2%bool_decide_eq_true].
    apply andb_true_iff in Hcond as [Heven%bool_decide_eq_true Hge%bool_decide_eq_true].
    assert (Hlast : (2 * (h' + 1) - 1 = len - 1)%nat) by lia.
    rewrite Hlast. unfold libstdcxx.push_heap_at.
    assert (Hpl : parent_index (len - 1) = h').
    { apply parent_index_children; lia. }
    destruct (push_heap_loop_spec len (len - 1) (<[h' := c' !!! (len - 1)%nat]> c')
                (len - 1) value) as (H1 & H2 & H3).
    + lia.
    + rewrite length_insert. lia.
    + apply hole_heap_of_heap.
      * intros i Hi. pose proof (parent_index_lt i ltac:(lia)) as Hlt.
        destruct (decide (i = h')) as [-> | Hih].
        -- rewrite list_lookup_total_insert_eq by lia.
           rewrite list_lookup_total_insert_ne by lia.
           etrans; [apply (Hheap h'); lia |]. rewrite <- Hpl at 1. apply Hheap. lia.
        -- rewrite (list_lookup_total_insert_ne c' h' i) by done.
           destruct (decide (parent_index i = h')) as [Hp | Hp].
           ++ rewrite Hp, list_lookup_total_insert_eq by lia.
              apply parent_index_children in Hp; [| lia].
              replace i with (len - 1)%nat by lia. done.
           ++ rewrite list_lookup_total_insert_ne by done. by apply Hheap.
      * intros i Hi Hp. apply parent_index_children in Hp; lia.
    + split; [done |]. split.
      * rewrite H2, <- Hperm. apply hole_move; lia.
      * rewrite H3, drop_insert_lt, Hdrop; [done | lia].
  - unfold libstdcxx.push_heap_at.
    destruct (push_heap_loop_spec len h' c' h' value) as (H1 & H2 & H3).
    + lia.
    + lia.
    + apply hole_heap_of_heap; [done |].
      intros i Hi Hp. apply parent_index_children in Hp; [| lia].
      apply andb_false_iff in Hcond as [Hcond | Hcond].
      * apply andb_false_iff in Hcond as [Hcond | Hcond];
          apply bool_decide_eq_false in Hcond; lia.
      * apply bool_decide_eq_false in Hcond. lia.
    + split; [done |]. split; [by rewrite H2, Hperm | by rewrite H3].
Qed.

Lemma libstdcxx_pop_heap_spec x c :
  is_heap (x :: c) →
  ∃ c', libstdcxx.pop_heap (x :: c) = c' ++ [x] ∧ is_heap c' ∧ c' ≡ₚ c.
Proof.
  intros Hc. unfold libstdcxx.pop_heap. case_bool_decide as Hlen.
  2: { destruct c; [| simpl in Hlen; lia]. exists []. split; [done |].
       split; [apply is_heap_nil | done]. }
  simpl length in *. replace (S (length c) - 1)%nat with (length c) by lia.
  set (c0 := x :: c) in *. set (last := length c).
  destruct (adjust_heap_spec last (<[last := c0 !!! 0%nat]> c0) (c0 !!! last))
    as (H1 & H2 & H3).
  - rewrite length_insert. subst c0 last. simpl. lia.
  - apply is_heap_heap_on in Hc. intros i Hi.
    pose proof (parent_index_lt i ltac:(lia)).
    rewrite !list_lookup_total_insert_ne by lia. apply Hc. subst c0 last. simpl. lia.
  - set (r := libstdcxx.adjust_heap _ _ _ _) in *.
    assert (Hr : r ≡ₚ c0).
    { rewrite H2. apply Permutation_insert_swap.
      - apply list_lookup_lookup_total_lt. subst c0 last. simpl. lia.
      - apply list_lookup_lookup_total_lt. subst c0. simpl. lia. }
    assert (Hd : drop last r = [x]).
    { rewrite H3. rewrite drop_insert_ge by lia. rewrite Nat.sub_diag.
      assert (Hdl : ∃ y, drop last c0 = [y]).
      { assert (length (drop last c0) = 1%nat) as Hl1.
        { rewrite length_drop. subst c0 last. simpl. lia. }
        destruct (drop last c0) as [| y [| ? ?]]; simpl in Hl1; try lia. by exists y. }
      destruct Hdl as [y ->]. reflexivity. }
    exists (take last r). split; [by rewrite <- Hd, take_drop |].
    split.
    + apply heap_on_take; [| done]. apply Permutation_length in Hr.
      rewrite Hr. subst c0 last. simpl. lia.
    + apply (Permutation.Permutation_cons_inv (a := x)).
      fold c0. rewrite <- Hr. rewrite <- (take_drop last r) at 2. rewrite Hd.
      by rewrite Permutation_app_comm.
Qed.

End Heap.

(** Both libraries above keep the standard's promises. *)
Lemma insertion_order_lib_spec : StdLibSpec insertion_order_lib.
Proof.
  split.
  - done.
  - apply libstdcxx_push_heap_spec.
  - apply libstdcxx_pop_heap_spec.
Qed.

Lemma newest_first_lib_spec : StdLibSpec newest_first_lib.
Proof.
  split.
  - intros V m. apply reverse_Permutation.
  - apply libstdcxx_push_heap_spec.
  - apply libstdcxx_pop_heap_spec.
Qed.

(** * The code table of a compression *)

Lemma umap_find_Some_elem_of {V} k v (m : umap V) : umap_find k m = Some v → (k, v) ∈ m.
Proof.
  induction m as [| [k0 v0] m IH]; simpl; [done |].
  case_bool_decide as Hk; [intros [= ->]; subst; left | intros Hf; right; auto].
Qed.

Lemma elem_of_paths a ca t str :
  (a, ca) ∈ paths t str → ∃ f, (a, f, ca) ∈ leaf_records t str.
Proof.
  unfold paths. intros [[[a' f] ca'] [[= -> ->] Hin]]%list_elem_of_fmap. eauto.
Qed.

(** C5: a compression yields a code map, and of two distinct symbols in it
    neither has a code word that is a prefix of the other's. *)
Theorem code_table_prefix_free {L : StdLib} (HL : StdLibSpec L) (inputText : std_string) :
  ∃ codes, code_table inputText [] = Some codes
    ∧ ∀ a b ca cb, a ≠ b →
        umap_find a codes = Some ca → umap_find b codes = Some cb →
        ¬ ca `prefix_of` cb ∧ ¬ cb `prefix_of` ca.
Proof.
  destruct (code_table_paths HL inputText) as (root & _ & _ & _ & Hcodes).
  exists (paths root []). split; [done |].
  intros a b ca cb Hab Ha%umap_find_Some_elem_of Hb%umap_find_Some_elem_of.
  apply elem_of_paths in Ha as [fa Ha]. apply elem_of_paths in Hb as [fb Hb].
  split; intros Hp.
  - pose proof (leaf_records_prefix _ _ _ _ Ha Hb Hp). congruence.
  - pose proof (leaf_records_prefix _ _ _ _ Hb Ha Hp). congruence.
Qed.

Lemma code_table_prefix_free_witness :
  ∃ codes, @code_table insertion_order_lib (lit "aab") [] = Some codes
    ∧ ∀ a b ca cb, a ≠ b →
        umap_find a codes = Some ca → umap_find b codes = Some cb →
        ¬ ca `prefix_of` cb ∧ ¬ cb `prefix_of` ca.
Proof. exact (code_table_prefix_free insertion_order_lib_spec (lit "aab")). Defined.

Section SmallTrees.
Context {L : StdLib} (HL : StdLibSpec L).

Lemma proper_leaves_not_nil t : proper t → leaves t ≠ [].
Proof.
  induction t as [| c f l IHl r IHr]; [done |].
  intros [[-> ->] | (Hl & Hr & _)]; [done |].
  intros Hnil.
  pose proof (leaves_Node_internal c f l r (proper_not_null l Hl) (proper_not_null r Hr)) as Hp.
  rewrite Hnil in Hp. apply Permutation_nil_l in Hp. symmetry in Hp.
  apply app_eq_nil in Hp as [Hp _]. by apply IHl.
Qed.

(** A tree of the builder with one leaf is that leaf. *)
Lemma proper_single_leaf t e : proper t → leaves t ≡ₚ [e] → t = new_TreeNode e.1 e.2.
Proof.
  destruct t as [| c f l r]; [done |].
  intros [[-> ->] | (Hl & Hr & _)] Hp.
  - apply Permutation_singleton_r in Hp. by inversion Hp.
  - rewrite (leaves_Node_internal c f l r (proper_not_null l Hl) (proper_not_null r Hr)) in Hp.
    apply Permutation_length in Hp. rewrite length_app in Hp. simpl in Hp.
    pose proof (proper_leaves_not_nil l Hl). pose proof (proper_leaves_not_nil r Hr).
    destruct (leaves l), (leaves r); simpl in *; (done || lia).
Qed.

(** A tree of the builder with two leaves is their parent. *)
Lemma proper_two_leaves t e1 e2 :
  proper t → leaves t ≡ₚ [e1; e2] →
  ∃ c f, t = Node c f (new_TreeNode e1.1 e1.2) (new_TreeNode e2.1 e2.2)
       ∨ t = Node c f (new_TreeNode e2.1 e2.2) (new_TreeNode e1.1 e1.2).
Proof.
  destruct t as [| c f l r]; [done |].
  intros [[-> ->] | (Hl & Hr & _)] Hp.
  - apply Permutation_length in Hp. done.
  - rewrite (leaves_Node_internal c f l r (proper_not_null l Hl) (proper_not_null r Hr)) in Hp.
    pose proof (proper_leaves_not_nil l Hl). pose proof (proper_leaves_not_nil r Hr).
    pose proof (Permutation_length Hp) as Hlen. rewrite length_app in Hlen.
    destruct (leaves l) as [| x [| ? ?]] eqn:Hll; [done | | simpl in Hlen; destruct (leaves r); simpl in *; (done || lia)].
    destruct (leaves r) as [| y [| ? ?]] eqn:Hlr; [done | | simpl in Hlen; lia].
    simpl in Hp. exists c, f.
    assert (Hxl : l = new_TreeNode x.1 x.2) by (apply proper_single_leaf; [done | by rewrite Hll]).
    assert (Hyr : r = new_TreeNode y.1 y.2) by (apply proper_single_leaf; [done | by rewrite Hlr]).
    rewrite Hxl, Hyr.
    apply Permutation_length_2_inv in Hp as [[= -> ->] | [= -> ->]]; [by left | by right].
Qed.

(** The frequency map of an input of newlines only. *)
Lemma count_frequencies_newlines (n : nat) :
  ∃ v, count_frequencies (repeat ch_nl n) = [(ch_nl, v)].
Proof.
  unfold count_frequencies. fold (count_all (repeat ch_nl n) []).
  destruct n as [| n]; [by eexists |].
  change (count_all (repeat ch_nl (S n)) []) with
    (count_all (repeat ch_nl n) [(ch_nl, unsigned_wrap (0 + 1))]).
  rewrite count_all_repeat by apply unsigned_wrap_range.
  unfold increment. simpl. by eexists.
Qed.

(** With one entry the loop does not run: the tree is that entry's leaf. *)
Lemma huffman_tree_single (e : ascii * Z) :
  huffman_tree [e] [] = Some (new_TreeNode e.1 e.2).
Proof.
  destruct (huffman_tree_leaves HL [e]) as (root & -> & Hproper & Hleaves); [done |].
  by rewrite (proper_single_leaf root e Hproper Hleaves).
Qed.

(** C3, on an input of newlines only, the empty input among them: the
    frequency map has the one entry of the newline, the single-entry case
    gets no tree of depth one, the root is the newline's leaf, and the
    newline's code word is the empty string. *)
Theorem newline_only_empty_codeword (n : nat) :
  code_table (repeat ch_nl n) [] = Some [(ch_nl, [])].
Proof.
  destruct (count_frequencies_newlines n) as [v Hm].
  unfold code_table, build_tree. rewrite Hm, huffman_tree_single.
  reflexivity.
Qed.

End SmallTrees.

Lemma newline_only_empty_codeword_witness :
  @code_table insertion_order_lib (repeat ch_nl 2) [] = Some [(ch_nl, [])].
Proof. exact (newline_only_empty_codeword insertion_order_lib_spec 2). Defined.

(** * Round trip *)

Section RoundTrip.
Context {L : StdLib} (HL : StdLibSpec L).

Lemma umap_iterate_two {V} (e1 e2 : ascii * V) :
  umap_iterate [e1; e2] = [e1; e2] ∨ umap_iterate [e1; e2] = [e2; e1].
Proof.
  pose proof (umap_iterate_perm V [e1; e2]) as Hp. symmetry in Hp.
  pose proof (Permutation_length Hp) as Hlen.
  destruct (umap_iterate [e1; e2]) as [| x [| y [| ? ?]]]; simpl in Hlen; try lia.
  apply Permutation_length_2_inv in Hp as [[= -> ->] | [= -> ->]]; auto.
Qed.

(** C1, at the one-letter input ["a"]: whatever the library's iteration
    order and heap arrangement, the input comes back as eight letters [a]
    or as seven newlines followed by [a], not as ["a"]. *)
Theorem roundtrip_single_letter :
  ∃ c, compress (lit "a") = Some c
    ∧ (decompress c = lit "aaaaaaaa" ∨ decompress c = repeat ch_nl 7 ++ lit "a")
    ∧ decompress c ≠ lit "a".
Proof.
  destruct (code_table_paths HL (lit "a")) as (root & _ & Hproper & Hleaves & Hcodes).
  change (count_frequencies (lit "a")) with [("a"%char, 1); (ch_nl, 1)] in Hleaves.
  assert (Hrun : ∀ codes packed,
    code_table (lit "a") [] = Some codes →
    WriteEncodedStringToFile (encode codes (lit "a")) = Some packed →
    compress (lit "a") = Some (mk_compressed (write_code_file codes) packed)).
  { intros codes packed H1 H2. unfold compress, BuildHuffmanTree.
    rewrite H1. cbn [mbind option_bind]. by rewrite H2. }
  destruct (proper_two_leaves root _ _ Hproper Hleaves) as (c & f & [-> | ->]).
  - change (paths _ []) with [("a"%char, [ch_0]); (ch_nl, [ch_1])] in Hcodes.
    eexists. split; [apply (Hrun _ [0] Hcodes); reflexivity |].
    unfold decompress, write_code_file. cbn [huff_file packed_file].
    destruct (umap_iterate_two (V := std_string) ("a"%char, [ch_0]) (ch_nl, [ch_1]))
      as [-> | ->]; (split; [left; reflexivity | discriminate]).
  - change (paths _ []) with [(ch_nl, [ch_0]); ("a"%char, [ch_1])] in Hcodes.
    eexists. split; [apply (Hrun _ [1] Hcodes); reflexivity |].
    unfold decompress, write_code_file. cbn [huff_file packed_file].
    destruct (umap_iterate_two (V := std_string) (ch_nl, [ch_0]) ("a"%char, [ch_1]))
      as [-> | ->]; (split; [right; reflexivity | discriminate]).
Qed.


Lemma umap_iterate_single {V} (e : ascii * V) : umap_iterate [e] = [e].
Proof.
  pose proof (umap_iterate_perm V [e]) as Hp.
  by apply Permutation_singleton_r in Hp.
Qed.

(** The empty input does come back: its packed file is the single byte 0,
    and no bit string matches the empty code word of the newline. *)
Lemma roundtrip_empty : ∃ c, compress [] = Some c ∧ decompress c = [].
Proof.
  exists (mk_compressed (write_code_file [(ch_nl, [])]) [0]). split.
  - unfold compress, BuildHuffmanTree, code_table, build_tree.
    change (count_frequencies []) with [(ch_nl, 1)].
    by rewrite (huffman_tree_single HL).
  - unfold decompress, write_code_file. cbn [huff_file packed_file].
    by rewrite umap_iterate_single.
Qed.

End RoundTrip.

Lemma roundtrip_single_letter_witness :
  ∃ c, @compress newest_first_lib (lit "a") = Some c
    ∧ (decompress c = lit "aaaaaaaa" ∨ decompress c = repeat ch_nl 7 ++ lit "a")
    ∧ decompress c ≠ lit "a".
Proof. exact (roundtrip_single_letter newest_first_lib_spec). Defined.

(** * The greedy cost *)

Section Greedy.

Lemma merge_sort_perm_eq (l1 l2 : list Z) :
  l1 ≡ₚ l2 → merge_sort Z.le l1 = merge_sort Z.le l2.
Proof.
  intros Hp. apply (Sorted_unique Z.le).
  - apply Sorted_merge_sort. apply _.
  - apply Sorted_merge_sort. apply _.
  - by rewrite !merge_sort_Permutation.
Qed.

Lemma merge_sort_two_least a b (rest : list Z) :
  a ≤ b → Forall (λ w, b ≤ w) rest →
  merge_sort Z.le (a :: b :: rest) = a :: b :: merge_sort Z.le rest.
Proof.
  intros Hab Hrest. apply (Sorted_unique Z.le).
  - apply Sorted_merge_sort. apply _.
  - assert (Hs : Sorted Z.le (merge_sort Z.le rest)) by (apply Sorted_merge_sort; apply _).
    assert (Hf : Forall (λ w, b ≤ w) (merge_sort Z.le rest)).
    { by rewrite merge_sort_Permutation. }
    constructor; [constructor; [done |] |].
    + destruct Hf; constructor. done.
    + by constructor.
  - by rewrite !merge_sort_Permutation.
Qed.

Lemma greedy_cost_fuel_perm fuel (l1 l2 : list Z) :
  l1 ≡ₚ l2 → greedy_cost_fuel fuel l1 = greedy_cost_fuel fuel l2.
Proof.
  intros Hp. destruct fuel as [| fuel]; [done |].
  simpl. by rewrite (merge_sort_perm_eq l1 l2 Hp).
Qed.

Lemma greedy_cost_perm (l1 l2 : list Z) : l1 ≡ₚ l2 → greedy_cost l1 = greedy_cost l2.
Proof.
  intros Hp. unfold greedy_cost. rewrite (Permutation_length Hp).
  by apply greedy_cost_fuel_perm.
Qed.

Lemma greedy_cost_single w : greedy_cost [w] = 0.
Proof. reflexivity. Qed.

Lemma greedy_cost_fuel_S fuel ws :
  greedy_cost_fuel (S fuel) ws =
    match merge_sort Z.le ws with
    | a :: b :: rest => a + b + greedy_cost_fuel fuel ((a + b) :: rest)
    | _ => 0
    end.
Proof. reflexivity. Qed.

(** One step of the greedy construction. *)
Lemma greedy_cost_step ws a b rest :
  ws ≡ₚ a :: b :: rest → a ≤ b → Forall (λ w, b ≤ w) rest →
  greedy_cost ws = a + b + greedy_cost ((a + b) :: rest).
Proof.
  intros Hp Hab Hrest. rewrite (greedy_cost_perm _ _ Hp).
  unfold greedy_cost.
  change (length (a :: b :: rest)) with (S (length ((a + b) :: rest))).
  rewrite greedy_cost_fuel_S, merge_sort_two_least by done.
  f_equal. apply greedy_cost_fuel_perm.
  by rewrite merge_sort_Permutation.
Qed.

End Greedy.

(** * No prefix code is cheaper than the greedy cost *)

Section LowerBound.
Implicit Types (code : list (Z * list bool)) (cs : list (list bool)).

Lemma code_cost_cons e code :
  code_cost (e :: code) = e.1 * Z.of_nat (length e.2) + code_cost code.
Proof. reflexivity. Qed.

Lemma code_cost_Permutation code1 code2 :
  code1 ≡ₚ code2 → code_cost code1 = code_cost code2.
Proof.
  induction 1 as [| e l1 l2 _ IH | e1 e2 l | l1 l2 l3 _ IH1 _ IH2];
    rewrite ?code_cost_cons; lia.
Qed.

Lemma total_length_cons c cs : total_length (c :: cs) = (length c + total_length cs)%nat.
Proof. reflexivity. Qed.

Lemma total_length_Permutation cs1 cs2 :
  cs1 ≡ₚ cs2 → total_length cs1 = total_length cs2.
Proof.
  induction 1 as [| e l1 l2 _ IH | e1 e2 l | l1 l2 l3 _ IH1 _ IH2];
    rewrite ?total_length_cons; lia.
Qed.

Lemma prefix_free_Permutation cs1 cs2 : cs1 ≡ₚ cs2 → prefix_free cs1 → prefix_free cs2.
Proof.
  induction 1 as [| c l1 l2 Hp IH | c1 c2 l | l1 l2 l3 _ IH1 _ IH2]; simpl.
  - done.
  - intros [H1 H2]. split; [by rewrite <- Hp | auto].
  - intros [H1 [H2 H3]]. apply Forall_cons in H1 as [[H12 H21] H1].
    split; [constructor; [done | done] | done].
  - auto.
Qed.

(** In a prefix-free list, a word stands once. *)
Lemma prefix_free_cons_not_in c cs : prefix_free (c :: cs) → c ∉ cs.
Proof.
  intros [H _] Hin. rewrite Forall_forall in H. by destruct (H c Hin).
Qed.

Lemma exists_least code :
  code ≠ [] → ∃ e rest, code ≡ₚ e :: rest ∧ Forall (λ w, e.1 ≤ w) (rest.*1).
Proof.
  induction code as [| e code IH]; [done |]. intros _.
  destruct code as [| e' code'].
  { exists e, []. split; [done | constructor]. }
  destruct IH as (m & rest & Hp & Hmin); [done |].
  destruct (decide (e.1 ≤ m.1)) as [Hle | Hgt].
  - exists e, (e' :: code'). split; [done |].
    rewrite Hp. simpl. constructor; [done |].
    eapply Forall_impl; [exact Hmin |]. simpl. intros; lia.
  - exists m, (e :: rest). split; [by rewrite Hp, Permutation_swap |].
    simpl. constructor; [lia | done].
Qed.

Lemma exists_longest code :
  code ≠ [] →
  ∃ e rest, code ≡ₚ e :: rest ∧ Forall (λ c, (length c ≤ length e.2)%nat) (rest.*2).
Proof.
  induction code as [| e code IH]; [done |]. intros _.
  destruct code as [| e' code'].
  { exists e, []. split; [done | constructor]. }
  destruct IH as (m & rest & Hp & Hmax); [done |].
  destruct (decide (length m.2 ≤ length e.2)%nat) as [Hle | Hgt].
  - exists e, (e' :: code'). split; [done |].
    rewrite Hp. simpl. constructor; [done |].
    eapply Forall_impl; [exact Hmax |]. simpl. intros; lia.
  - exists m, (e :: rest). split; [by rewrite Hp, Permutation_swap |].
    simpl. constructor; [lia | done].
Qed.

(** Giving the lightest symbol a word that is at least as long as its own
    does not raise the cost. *)
Lemma exchange a ca rest c :
  Forall (λ w, a ≤ w) (rest.*1) → c ∈ ca :: rest.*2 → (length ca ≤ length c)%nat →
  ∃ rest', rest'.*1 ≡ₚ rest.*1
    ∧ c :: rest'.*2 ≡ₚ ca :: rest.*2
    ∧ code_cost ((a, c) :: rest') ≤ code_cost ((a, ca) :: rest).
Proof.
  intros Hmin Hin Hlen. apply elem_of_cons in Hin as [-> | Hin].
  { by exists rest. }
  apply list_elem_of_fmap in Hin as ([w c'] & -> & Hin). cbn [snd] in *.
  apply elem_of_Permutation in Hin as [rest2 Hrest].
  exists ((w, ca) :: rest2). split; [| split].
  - by rewrite Hrest.
  - rewrite Hrest. simpl. apply Permutation_swap.
  - assert (Hc : (a, ca) :: rest ≡ₚ (a, ca) :: (w, c') :: rest2) by (by rewrite Hrest).
    rewrite (code_cost_Permutation _ _ Hc).
    rewrite !code_cost_cons. simpl.
    rewrite Hrest in Hmin. simpl in Hmin. apply Forall_cons in Hmin as [Haw _].
    nia.
Qed.

Lemma extract_weight code b ws :
  code.*1 ≡ₚ b :: ws → ∃ cb rest, code ≡ₚ (b, cb) :: rest ∧ rest.*1 ≡ₚ ws.
Proof.
  intros Hp.
  assert (Hin : b ∈ code.*1) by (rewrite Hp; left).
  apply list_elem_of_fmap in Hin as ([b' cb] & -> & Hin). simpl in *.
  apply elem_of_Permutation in Hin as [rest Hrest].
  exists cb, rest. split; [done |].
  rewrite Hrest in Hp. simpl in Hp. by apply (Permutation.Permutation_cons_inv (a := b')).
Qed.

(** A longest word without its last bit, in place of that word and of its
    sibling if there is one, is the prefix of no other word. *)
Lemma prefix_free_parent p x cs :
  Forall (λ c, (length c ≤ length (p ++ [x]))%nat) cs →
  Forall (λ c, ¬ (p ++ [x]) `prefix_of` c ∧ ¬ c `prefix_of` (p ++ [x])) cs →
  (p ++ [negb x]) ∉ cs →
  Forall (λ c, ¬ p `prefix_of` c ∧ ¬ c `prefix_of` p) cs.
Proof.
  intros Hlen Hpf Hsib. rewrite Forall_forall in Hlen, Hpf |- *.
  intros c Hc. destruct (Hpf c Hc) as [H1 H2]. specialize (Hlen c Hc).
  split.
  - intros [k ->]. rewrite !length_app in Hlen. simpl in Hlen.
    destruct k as [| y [| ? ?]]; simpl in Hlen; [| | lia].
    + apply H2. rewrite app_nil_r. by apply prefix_app_r.
    + destruct (decide (y = x)) as [-> | Hy]; [by apply H1 |].
      apply Hsib. by replace (negb x) with y by (destruct x, y; done).
  - intros Hp. apply H2. etrans; [exact Hp |]. by apply prefix_app_r.
Qed.

Lemma snoc_negb_ne (p : list bool) x : p ++ [negb x] ≠ p ++ [x].
Proof. intros H%app_inv_head. by destruct x. Qed.

(** Every binary prefix code for the weights [code.*1] costs at least their
    greedy cost.  Induction on the number of bits of the code: a longest
    word either has no sibling and is shortened, or is merged with its
    sibling after the two have been given to the two least weights. *)
Lemma greedy_cost_lower_bound : ∀ n code,
  (total_length (code.*2) ≤ n)%nat → code ≠ [] →
  Forall (λ w, 0 ≤ w) (code.*1) → prefix_free (code.*2) →
  greedy_cost (code.*1) ≤ code_cost code.
Proof.
  intros n. induction (lt_wf n) as [n _ IH]. intros code Hn Hne Hpos Hpf.
  destruct (exists_longest code Hne) as ([wm cm] & others & Hcode & Hmax).
  cbn [snd] in Hmax.
  assert (Hcs : code.*2 ≡ₚ cm :: others.*2) by (by rewrite Hcode).
  assert (Hws : code.*1 ≡ₚ wm :: others.*1) by (by rewrite Hcode).
  pose proof (prefix_free_Permutation _ _ Hcs Hpf) as Hpf'.
  pose proof Hpos as Hpos'. rewrite Hws in Hpos'.
  apply Forall_cons in Hpos' as [Hwm Hpos'].
  rewrite (total_length_Permutation _ _ Hcs), total_length_cons in Hn.
  destruct others as [| o others'].
  { rewrite (greedy_cost_perm _ _ Hws), (code_cost_Permutation _ _ Hcode).
    rewrite greedy_cost_single, code_cost_cons. simpl. lia. }
  set (others := o :: others') in *.
  destruct Hpf' as [Hpf1 Hpf2].
  assert (Hcm : cm ≠ []).
  { intros ->. apply Forall_cons in Hmax as [Ho _]. apply Forall_cons in Hpf1 as [[Ho1 _] _].
    apply Ho1. apply prefix_nil. }
  destruct (exists_last Hcm) as (p & x & ->).
  destruct (decide ((p ++ [negb x]) ∈ others.*2)) as [Hsib | Hnosib].
  2: { (* no sibling: the word is shortened *)
    assert (Hlt : (total_length (((wm, p) :: others).*2) < n)%nat).
    { simpl. rewrite length_app in Hn. simpl in Hn. fold (total_length (others.*2)). lia. }
    pose proof (IH _ Hlt ((wm, p) :: others) ltac:(lia) ltac:(done)) as Hih.
    rewrite (greedy_cost_perm _ _ Hws), (code_cost_Permutation _ _ Hcode).
    etrans; [apply Hih |].
    - by constructor.
    - split; [| done]. by apply (prefix_free_parent p x).
    - rewrite !code_cost_cons. simpl. rewrite length_app. simpl. nia. }
  (* the sibling is a word: the two go to the two least weights *)
  destruct (exists_least code Hne) as ([a ca] & R0 & HcodeA & HminA). cbn [fst] in HminA.
  assert (HR0ne : R0 ≠ []).
  { intros ->. rewrite Hcode in HcodeA. apply Permutation_length in HcodeA. done. }
  destruct (exists_least R0 HR0ne) as ([b cb] & rest & HR0 & HminB). cbn [fst] in HminB.
  assert (Hab : a ≤ b).
  { rewrite HR0 in HminA. simpl in HminA. by apply Forall_cons in HminA as [? _]. }
  assert (Hwab : code.*1 ≡ₚ a :: b :: rest.*1) by (by rewrite HcodeA, HR0).
  assert (Hall : Forall (λ c, (length c ≤ length (p ++ [x]))%nat) (code.*2)).
  { rewrite Hcs. by constructor. }
  assert (HcsA : code.*2 ≡ₚ ca :: R0.*2) by (by rewrite HcodeA).
  destruct (exchange a ca R0 (p ++ [x])) as (R1 & HR1w & HR1c & Hcost1).
  { done. }
  { rewrite <- HcsA, Hcs. left. }
  { rewrite HcsA in Hall. by apply Forall_cons in Hall as [? _]. }
  destruct (extract_weight R1 b (rest.*1)) as (cb' & R1' & HR1 & HR1'w).
  { by rewrite HR1w, HR0. }
  assert (HcsB : code.*2 ≡ₚ (p ++ [x]) :: cb' :: R1'.*2).
  { by rewrite HcsA, <- HR1c, HR1. }
  destruct (exchange b cb' R1' (p ++ [negb x])) as (R2 & HR2w & HR2c & Hcost2).
  { by rewrite HR1'w. }
  { assert (Hin : (p ++ [negb x]) ∈ code.*2) by (rewrite Hcs; by right).
    rewrite HcsB in Hin. apply elem_of_cons in Hin as [Heq | Hin]; [| done].
    by destruct (snoc_negb_ne p x). }
  { rewrite HcsB in Hall. apply Forall_cons in Hall as [_ Hall].
    apply Forall_cons in Hall as [Hcb' _]. rewrite !length_app in *. simpl in *. lia. }
  assert (HcsC : code.*2 ≡ₚ (p ++ [x]) :: (p ++ [negb x]) :: R2.*2).
  { by rewrite HcsB, <- HR2c. }
  pose proof (prefix_free_Permutation _ _ HcsC Hpf) as (HpfC1 & HpfC2 & HpfC3).
  apply Forall_cons in HpfC1 as [_ HpfC1].
  rewrite HcsC in Hall. apply Forall_cons in Hall as [_ Hall].
  apply Forall_cons in Hall as [_ Hall].
  assert (Hlt : (total_length ((((a + b)%Z, p) :: R2).*2) < n)%nat).
  { pose proof (total_length_Permutation _ _ HcsC) as Ht.
    rewrite (total_length_Permutation _ _ Hcs) in Ht.
    rewrite !total_length_cons in Ht.
    change (total_length ((((a + b)%Z, p) :: R2).*2)) with
      (length p + total_length (R2.*2))%nat.
    rewrite !length_app in Ht, Hn. simpl length in Ht, Hn. lia. }
  assert (HposC : Forall (λ w, 0 ≤ w) (a :: b :: rest.*1)) by (by rewrite <- Hwab).
  apply Forall_cons in HposC as [Ha HposC]. apply Forall_cons in HposC as [Hb HposC].
  pose proof (IH _ Hlt ((a + b, p) :: R2) ltac:(lia) ltac:(done)) as Hih.
  rewrite (greedy_cost_step _ a b (rest.*1) Hwab Hab HminB).
  assert (Hgc : greedy_cost ((a + b) :: rest.*1) = greedy_cost (((a + b, p) :: R2).*1)).
  { apply greedy_cost_perm. simpl. by rewrite HR2w, HR1'w. }
  rewrite Hgc.
  assert (Hm : greedy_cost (((a + b, p) :: R2).*1) ≤ code_cost ((a + b, p) :: R2)).
  { apply Hih.
    - simpl. constructor; [lia |]. by rewrite HR2w, HR1'w.
    - split; [| done]. apply (prefix_free_parent p x); [done | done |].
      by apply prefix_free_cons_not_in. }
  rewrite (code_cost_Permutation _ _ HcodeA).
  assert (Hc1 : code_cost ((b, cb') :: R1') = code_cost R1)
    by (symmetry; by apply code_cost_Permutation).
  rewrite !code_cost_cons in *. cbn [fst snd] in *.
  rewrite !length_app in *. simpl length in *. nia.
Qed.

End LowerBound.

(** * The builder reaches the greedy cost *)

Section BuilderCost.
Context {L : StdLib} (HL : StdLibSpec L).

Lemma sum_Z_cons x l : sum_Z (x :: l) = x + sum_Z l.
Proof. reflexivity. Qed.

Lemma sum_Z_Permutation l1 l2 : l1 ≡ₚ l2 → sum_Z l1 = sum_Z l2.
Proof.
  induction 1 as [| e l1 l2 _ IH | e1 e2 l | l1 l2 l3 _ IH1 _ IH2];
    rewrite ?sum_Z_cons; lia.
Qed.

Lemma sum_Z_nonneg l : Forall (λ w, 0 ≤ w) l → 0 ≤ sum_Z l.
Proof. induction 1; rewrite ?sum_Z_cons; [done | lia]. Qed.

Lemma weight_merge_nodes x y :
  proper x → proper y → weight (merge_nodes x y) = weight x + weight y.
Proof. intros Hx%proper_not_null Hy%proper_not_null. simpl. by destruct x. Qed.

Lemma cost_merge_nodes x y :
  proper x → proper y →
  cost (merge_nodes x y) = cost x + cost y + weight x + weight y.
Proof. intros Hx%proper_not_null Hy%proper_not_null. simpl. by destruct x. Qed.

Lemma cost_invariant_Permutation W G q q' :
  q ≡ₚ q' → cost_invariant W G q → cost_invariant W G q'.
Proof.
  intros Hq (H1 & H2 & H3 & H4).
  split; [by rewrite <- Hq |]. split; [by rewrite <- Hq |]. split.
  - rewrite <- H3. apply sum_Z_Permutation. by rewrite Hq.
  - rewrite <- H4. f_equal.
    + apply sum_Z_Permutation. by rewrite Hq.
    + apply greedy_cost_perm. by rewrite Hq.
Qed.

Lemma cost_invariant_merge W G x y rest :
  W < UINT_MODULUS →
  cost_invariant W G (x :: y :: rest) →
  (∀ z, z ∈ y :: rest → frequency_of x ≤ frequency_of z) →
  (∀ z, z ∈ rest → frequency_of y ≤ frequency_of z) →
  cost_invariant W G (merge_nodes x y :: rest).
Proof.
  intros HW (H1 & H2 & H3 & H4) Hx Hy.
  apply Forall_cons in H1 as [Hpx H1]. apply Forall_cons in H1 as [Hpy H1].
  apply Forall_cons in H2 as [[Hwx Hfx] H2]. apply Forall_cons in H2 as [[Hwy Hfy] H2].
  assert (Hrest : Forall (λ w, 0 ≤ w) (weight <$> rest)).
  { apply Forall_fmap. eapply Forall_impl; [exact H2 |]. simpl. by intros ? [? _]. }
  pose proof (sum_Z_nonneg _ Hrest).
  rewrite !fmap_cons, !sum_Z_cons in H3, H4.
  assert (Hsum : unsigned_wrap (frequency_of x + frequency_of y) = weight x + weight y).
  { rewrite Hfx, Hfy. apply unsigned_wrap_small. lia. }
  split; [| split; [| split]].
  - constructor; [| done]. simpl. right. done.
  - constructor; [| done]. rewrite weight_merge_nodes by done. simpl. split; [lia | done].
  - rewrite !fmap_cons, !sum_Z_cons, weight_merge_nodes by done. lia.
  - rewrite !fmap_cons, !sum_Z_cons, cost_merge_nodes, weight_merge_nodes by done.
    rewrite (greedy_cost_step (weight <$> x :: y :: rest) (weight x) (weight y)
               (weight <$> rest)) in H4.
    + lia.
    + done.
    + rewrite <- Hfx, <- Hfy. apply Hx. left.
    + apply Forall_fmap, Forall_forall. intros z Hz. simpl.
      rewrite Forall_forall in H2. destruct (H2 z Hz) as [_ <-].
      rewrite <- Hfy. by apply Hy.
Qed.

(** While no count wraps, the cost of the tree built is the greedy cost of
    the counts. *)
Lemma huffman_tree_cost (m : umap Z) root :
  m ≠ [] → counts_in_range m → sum_counts m < UINT_MODULUS →
  huffman_tree m [] = Some root →
  cost root = greedy_cost (m.*2).
Proof.
  intros Hm Hrange Hsum Hroot. unfold huffman_tree in Hroot.
  destruct (push_leaves_spec HL m [] is_heap_nil) as [Hh Hp]. simpl in Hp.
  set (q0 := push_leaves m []) in *.
  assert (Hw : weight <$> ((λ pair : ascii * Z, new_TreeNode pair.1 pair.2) <$> m) = m.*2).
  { rewrite <- list_fmap_compose. by apply list_fmap_ext. }
  assert (Hc : sum_Z (cost <$> ((λ pair : ascii * Z, new_TreeNode pair.1 pair.2) <$> m)) = 0).
  { clear. induction m as [| [c f] m IH]; [done |].
    rewrite !fmap_cons, sum_Z_cons, IH. reflexivity. }
  assert (Hs : sum_Z (m.*2) = sum_counts m).
  { clear. induction m as [| [c f] m IH]; [done |].
    rewrite fmap_cons, sum_Z_cons, IH. reflexivity. }
  destruct (merge_loop_invariant HL (cost_invariant (sum_counts m) (greedy_cost (m.*2))))
    with (fuel := length q0) (q := q0) as (root' & Hroot' & Hinv).
  - intros q q'. apply cost_invariant_Permutation.
  - intros x y rest. by apply cost_invariant_merge.
  - done.
  - intros Hq0. rewrite Hq0 in Hp. apply Permutation_nil_l in Hp. by destruct m.
  - lia.
  - apply (cost_invariant_Permutation _ _ _ _ (symmetry Hp)).
    split; [| split; [| split]].
    + apply Forall_fmap, Forall_forall. intros [c f] _. simpl. by left.
    + apply Forall_fmap. eapply Forall_impl; [exact Hrange |].
      intros [c f] [? ?]. simpl in *. done.
    + by rewrite Hw.
    + rewrite Hw, Hc. lia.
  - rewrite Hroot' in Hroot. simpl in Hroot. inversion Hroot; subst root'.
    destruct Hinv as (_ & _ & _ & Hcost).
    rewrite !fmap_cons, sum_Z_cons, greedy_cost_single in Hcost.
    change (sum_Z (cost <$> [])) with 0 in Hcost. lia.
Qed.

End BuilderCost.

(** * Optimality of the tree *)

Lemma record_cost_app r1 r2 : record_cost (r1 ++ r2) = record_cost r1 + record_cost r2.
Proof. induction r1 as [| rec r1 IH]; simpl in *; lia. Qed.

Lemma record_cost_leaf_records t : ∀ str,
  record_cost (leaf_records t str) = cost t + Z.of_nat (length str) * weight t.
Proof.
  induction t as [| c f l IHl r IHr]; intros str; [simpl; lia |].
  cbn [leaf_records cost weight]. rewrite !record_cost_app, IHl, IHr.
  rewrite !length_app. simpl length.
  destruct (is_null l && is_null r) eqn:Hleaf.
  - apply andb_true_iff in Hleaf as [->%is_null_true ->%is_null_true]. simpl. lia.
  - simpl. lia.
Qed.

Lemma weighted_length_cons p m code :
  weighted_length (p :: m) code = p.2 * Z.of_nat (length (code p.1)) + weighted_length m code.
Proof. reflexivity. Qed.

Lemma weighted_length_Permutation m1 m2 code :
  m1 ≡ₚ m2 → weighted_length m1 code = weighted_length m2 code.
Proof.
  induction 1 as [| e l1 l2 _ IH | e1 e2 l | l1 l2 l3 _ IH1 _ IH2];
    rewrite ?weighted_length_cons; lia.
Qed.

Lemma weighted_length_records recs code :
  Forall (λ rec : ascii * Z * std_string, code rec.1.1 = rec.2) recs →
  weighted_length ((λ rec : ascii * Z * std_string, (rec.1.1, rec.1.2)) <$> recs) code
    = record_cost recs.
Proof.
  induction 1 as [| rec recs Hrec _ IH]; [done |].
  rewrite fmap_cons, weighted_length_cons, IH. simpl. by rewrite Hrec.
Qed.

Lemma code_of_paths root :
  NoDup (keys (leaves root)) →
  Forall (λ rec : ascii * Z * std_string, code_of (paths root []) rec.1.1 = rec.2)
    (leaf_records root []).
Proof.
  intros Hnd. apply Forall_forall. intros [[c f] p] Hin. simpl.
  unfold code_of. rewrite <- (keys_paths root []) in Hnd.
  assert (Hf : umap_find c (paths root []) = Some p).
  { apply umap_find_elem_of; [done |]. unfold paths.
    apply list_elem_of_fmap. by exists (c, f, p). }
  by rewrite Hf.
Qed.

Lemma length_to_bools s : length (to_bools s) = length s.
Proof. unfold to_bools. by rewrite length_fmap. Qed.

Lemma to_bools_prefix s1 : ∀ s2,
  is_bits s1 → is_bits s2 → to_bools s1 `prefix_of` to_bools s2 → s1 `prefix_of` s2.
Proof.
  induction s1 as [| c1 s1 IH]; intros s2 H1 H2 Hp; [apply prefix_nil |].
  destruct s2 as [| c2 s2]; [by destruct Hp as [k Hk] |].
  apply Forall_cons in H1 as [Hc1 H1]. apply Forall_cons in H2 as [Hc2 H2].
  destruct Hp as [k Hk]. simpl in Hk. injection Hk as Hc Hk.
  assert (c1 = c2) as ->.
  { destruct Hc1 as [-> | ->], Hc2 as [-> | ->]; done. }
  apply prefix_cons. apply IH; [done | done |]. by exists k.
Qed.

Section Optimality.
Context {L : StdLib} (HL : StdLibSpec L).

Lemma competitor_prefix_free (m : umap Z) (code : ascii → std_string) :
  NoDup (keys m) →
  (∀ c, c ∈ keys m → is_bits (code c)) →
  (∀ a b, a ∈ keys m → b ∈ keys m → a ≠ b → ¬ code a `prefix_of` code b) →
  prefix_free (((λ p : ascii * Z, (p.2, to_bools (code p.1))) <$> m).*2).
Proof.
  unfold keys. induction m as [| [c f] m IH]; intros Hnd Hbits Hpf; [done |].
  apply NoDup_cons in Hnd as [Hc Hnd]. simpl. split.
  - apply Forall_fmap, Forall_fmap, Forall_forall. intros [c' f'] Hin. simpl.
    assert (Hc' : c' ∈ m.*1) by (apply list_elem_of_fmap; by exists (c', f')).
    assert (c ≠ c') by (by intros ->).
    split; intros Hp; apply to_bools_prefix in Hp.
    + apply (Hpf c c'); [left | by right | done | done].
    + apply Hbits. left.
    + apply Hbits. by right.
    + apply (Hpf c' c); [by right | left | done | done].
    + apply Hbits. by right.
    + apply Hbits. left.
  - apply IH; [done | |].
    + intros a Ha. apply Hbits. by right.
    + intros a b Ha Hb. apply Hpf; by right.
Qed.

End Optimality.

(** Checking the hypotheses of the optimality theorem on a concrete code. *)
Lemma code_of_is_bits codes c :
  forallb (λ p : ascii * std_string, forallb is_bit_char p.2) codes = true →
  is_bits (code_of codes c).
Proof.
  intros H. unfold code_of. destruct (umap_find c codes) as [s |] eqn:Hs; [| constructor].
  apply umap_find_Some_elem_of in Hs. apply is_bits_forallb.
  rewrite forallb_forall in H. apply (H (c, s)). by apply list_elem_of_In.
Qed.

Lemma prefix_free_check (ks : list ascii) (code : ascii → std_string) :
  forallb (λ a, forallb (λ b,
    bool_decide (a = b) || negb (bool_decide (code a `prefix_of` code b))) ks) ks = true →
  ∀ a b, a ∈ ks → b ∈ ks → a ≠ b → ¬ code a `prefix_of` code b.
Proof.
  intros H a b Ha Hb Hab Hp. rewrite forallb_forall in H.
  specialize (H a ltac:(by apply list_elem_of_In)). rewrite forallb_forall in H.
  specialize (H b ltac:(by apply list_elem_of_In)).
  apply orb_true_iff in H as [H | H].
  - by apply bool_decide_eq_true in H.
  - apply negb_true_iff, bool_decide_eq_false in H. done.
Qed.

(** * Every compression returns *)

Lemma leaf_records_bits t : ∀ str,
  is_bits str → Forall (λ rec : ascii * Z * std_string, is_bits rec.2) (leaf_records t str).
Proof.
  induction t as [| c f l IHl r IHr]; intros str Hstr; simpl; [constructor |].
  rewrite !Forall_app. split; [| split].
  - destruct (is_null l && is_null r); by repeat constructor.
  - apply IHl. apply Forall_app. split; [done |]. apply Forall_singleton. by left.
  - apply IHr. apply Forall_app. split; [done |]. apply Forall_singleton. by right.
Qed.

Lemma encode_bits codes text :
  Forall (λ p : ascii * std_string, is_bits p.2) codes → is_bits (encode codes text).
Proof.
  intros Hcodes. unfold encode, is_bits. apply Forall_concat, Forall_fmap, Forall_forall.
  intros ch _. simpl. destruct (umap_find ch codes) as [s |] eqn:Hs; [| constructor].
  apply umap_find_Some_elem_of in Hs. rewrite Forall_forall in Hcodes.
  apply (Hcodes (ch, s) Hs).
Qed.

Section Totality.
Context {L : StdLib} (HL : StdLibSpec L).

(** The code words of a compression are bit strings. *)
Lemma code_table_bits text :
  ∃ codes, code_table text [] = Some codes
    ∧ Forall (λ p : ascii * std_string, is_bits p.2) codes.
Proof.
  destruct (code_table_paths HL text) as (root & _ & _ & _ & Hcodes).
  exists (paths root []). split; [done |]. unfold paths.
  apply Forall_fmap. apply (leaf_records_bits root []). constructor.
Qed.


(** With a second symbol in the input, no code word is empty. *)
Lemma code_words_nonempty text codes c :
  c ∈ text → c ≠ ch_nl → code_table text [] = Some codes →
  ∀ a ca, umap_find a codes = Some ca → ca ≠ [].
Proof.
  intros Hc Hnl Hct a ca Ha.
  destruct (code_table_paths HL text) as (root & _ & Hproper & Hleaves & Hcodes).
  rewrite Hct in Hcodes. injection Hcodes as ->.
  apply umap_find_Some_elem_of, elem_of_paths in Ha as [f Ha].
  destruct root as [| c0 f0 l r]; [done |]. simpl in Ha.
  destruct (is_null l && is_null r) eqn:Hleaf.
  - exfalso. apply andb_true_iff in Hleaf as [->%is_null_true ->%is_null_true].
    apply Permutation_length in Hleaves. simpl in Hleaves.
    assert (H1 : ch_nl ∈ keys (count_frequencies text)).
    { apply umap_find_None_not. unfold count_frequencies, increment.
      by rewrite umap_find_update, bool_decide_true. }
    assert (H2 : c ∈ keys (count_frequencies text)).
    { unfold count_frequencies, increment.
      fold (count_all text []).
      destruct (decide (ch_nl ∈ keys (count_all text []))) as [Hin | Hout].
      - rewrite keys_update_present by done. apply elem_of_keys_count_all. by right.
      - rewrite umap_update_absent by done. unfold keys. rewrite fmap_app, elem_of_app.
        left. apply elem_of_keys_count_all. by right. }
    destruct (count_frequencies text) as [| [k1 v1] [| ? ?]]; simpl in Hleaves; try lia.
    unfold keys in H1, H2. simpl in H1, H2.
    apply list_elem_of_singleton in H1, H2. congruence.
  - simpl in Ha. apply elem_of_app in Ha as [Ha | Ha];
      apply leaf_records_path_prefix in Ha as [k Hk]; simpl in Hk;
      intros ->; discriminate Hk.
Qed.

End Totality.

(** * Packing and unpacking together *)

Lemma bitset_of_string_zeros k t :
  bitset_of_string (repeat ch_0 k ++ t) = bitset_of_string t.
Proof.
  unfold bitset_of_string. rewrite fold_left_app. f_equal.
  induction k as [| k IH]; [done |]. exact IH.
Qed.

Lemma bitset_to_string_of_string t :
  is_bits t → length t = 8%nat → bitset_to_string (bitset_of_string t) = t.
Proof.
  intros Ht Hlen.
  do 8 (destruct t as [| ? t]; [discriminate Hlen |]).
  destruct t; [| discriminate Hlen].
  unfold is_bits in Ht.
  repeat match goal with
         | H : Forall _ (_ :: _) |- _ => apply Forall_cons in H as [[-> | ->] H]
         end; reflexivity.
Qed.

Lemma bitset_of_string_to_string b :
  0 ≤ b < 256 → bitset_of_string (bitset_to_string b) = b.
Proof.
  intros Hb.
  assert (H : forallb (λ v, bitset_of_string (bitset_to_string v) =? v) (seqZ 0 256) = true)
    by (vm_compute; reflexivity).
  rewrite forallb_forall in H. apply Z.eqb_eq, H, list_elem_of_In, elem_of_seqZ. lia.
Qed.

Lemma is_bits_bitset_to_string v : is_bits (bitset_to_string v).
Proof.
  unfold bitset_to_string. apply Forall_forall. intros c Hc.
  apply list_elem_of_In, in_map_iff in Hc as (i & <- & _).
  destruct (Z.testbit v i); [by right | by left].
Qed.

Lemma length_bitset_to_string v : length (bitset_to_string v) = 8%nat.
Proof. reflexivity. Qed.

Lemma bitset_to_string_short t :
  is_bits t → (length t ≤ 8)%nat →
  bitset_to_string (bitset_of_string t) = repeat ch_0 (8 - length t) ++ t.
Proof.
  intros Ht Hlen. rewrite <- (bitset_of_string_zeros (8 - length t) t).
  apply bitset_to_string_of_string.
  - apply Forall_app. split; [| done]. apply Forall_forall.
    intros c Hc. apply list_elem_of_In, repeat_spec in Hc. by left.
  - rewrite length_app, repeat_length. lia.
Qed.

Lemma length_unpack bytes : length (unpack bytes) = (8 * length bytes)%nat.
Proof.
  unfold unpack. induction bytes as [| b bytes IH]; [done |].
  cbn [map concat]. rewrite length_app, IH, length_bitset_to_string. simpl length. lia.
Qed.

Lemma unpack_app b1 b2 : unpack (b1 ++ b2) = unpack b1 ++ unpack b2.
Proof. unfold unpack. by rewrite map_app, concat_app. Qed.

Lemma is_bits_unpack bytes : is_bits (unpack bytes).
Proof.
  unfold unpack. apply Forall_concat, Forall_forall. intros s Hs.
  apply list_elem_of_In, in_map_iff in Hs as (b & <- & _). apply is_bits_bitset_to_string.
Qed.

(** The bytes of the full groups give the groups back. *)
Lemma unpack_full_chunks k : ∀ s,
  is_bits s → (8 * k ≤ length s)%nat →
  unpack (map bitset_of_string (full_chunks k s)) = take (8 * k) s.
Proof.
  induction k as [| k IH]; intros s Hs Hlen; [done |].
  cbn [full_chunks map]. change (unpack (?b :: ?l)) with (bitset_to_string b ++ unpack l).
  rewrite bitset_to_string_of_string, IH.
  - replace (8 * S k)%nat with (8 + 8 * k)%nat by lia.
    by rewrite <- take_take_drop.
  - by apply is_bits_drop.
  - rewrite length_drop. lia.
  - by apply Forall_take.
  - rewrite length_take. lia.
Qed.

(** The other way: the groups of an unpacked byte sequence are its bytes. *)
Lemma full_chunks_unpack bytes :
  Forall (λ b, 0 ≤ b < 256) bytes →
  map bitset_of_string (full_chunks (length bytes) (unpack bytes)) = bytes.
Proof.
  induction 1 as [| b bytes Hb _ IH]; [done |].
  cbn [length full_chunks map]. change (unpack (b :: bytes)) with (bitset_to_string b ++ unpack bytes).
  rewrite take_app_length', drop_app_length' by reflexivity.
  by rewrite bitset_of_string_to_string, IH.
Qed.

(** What the loop writes, on any string. *)
Lemma get_bits_length n : ∀ l tmp rest e,
  get_bits n l = (tmp, rest, e) → (length tmp ≤ n)%nat.
Proof.
  induction n as [| n IH]; intros l tmp rest e H; simpl in H.
  - inversion H. simpl. lia.
  - destruct l as [| c r]; [inversion H; simpl; lia |].
    destruct (is_bit_char c); [| inversion H; simpl; lia].
    destruct (get_bits n r) as [[t rest'] e'] eqn:Hr. inversion H; subst.
    simpl. apply IH in Hr. lia.
Qed.

Lemma extract_bitset_range s bits :
  0 ≤ bits < 256 → 0 ≤ (extract_bitset s bits).2 < 256.
Proof.
  intros Hb. unfold extract_bitset. destruct (good s); [| done].
  destruct (skipws (rdbuf s)) as [| c r]; [done |].
  destruct (get_bits 8 (c :: r)) as [[tmp rest] e] eqn:Hget.
  apply get_bits_length in Hget.
  destruct tmp as [| t tmp]; [done |]. cbn [snd].
  pose proof (bitset_of_string_bound (t :: tmp)) as Hbound.
  assert (2 ^ Z.of_nat (length (t :: tmp)) ≤ 2 ^ 8) by (apply Z.pow_le_mono_r; lia).
  lia.
Qed.

Lemma write_loop_output fuel : ∀ s bits out,
  0 ≤ bits < 256 → write_loop fuel s bits = Some out →
  Forall (λ b, 0 ≤ b < 256) out
  ∧ (length out ≤ length (rdbuf s) + 1)%nat
  ∧ (good s = true → out ≠ []).
Proof.
  induction fuel as [| fuel IH]; intros s bits out Hb H; cbn [write_loop] in H.
  - destruct (good s); [done |]. inversion H. split; [constructor |]. split; [simpl; lia | done].
  - destruct (good s) eqn:Hgood; [| inversion H; split; [constructor |]; split; [simpl; lia | done]].
    pose proof (extract_bitset_range s bits Hb) as Hb'.
    pose proof (extract_bitset_progress s bits Hgood) as Hprog.
    destruct (extract_bitset s bits) as [s' bits'] eqn:Hex. cbn [fst snd] in *.
    destruct (write_loop fuel s' bits') as [out' |] eqn:Hout; [| done].
    simpl in H. inversion H; subst out.
    destruct (IH s' bits' out' Hb' Hout) as (Hr & Hl & _).
    split; [by constructor |]. split; [| done].
    destruct Hprog as [Hend | Hshort].
    + rewrite write_loop_not_good in Hout by done. inversion Hout. simpl. lia.
    + simpl. lia.
Qed.

(** X1: for a bit string the packer returns, and unpacking what it wrote
    gives the whole groups of eight as they were, then eight more
    characters: the last, short group with zeros in front of it; or, when
    the length is a multiple of 8, the last eight characters once more (eight
    zeros for the empty string).  The unpacked string is 1 to 8 characters
    longer than the one packed. *)
Theorem WriteEncodedStringToFile_unpack (s : std_string) :
  is_bits s →
  ∃ bytes, WriteEncodedStringToFile s = Some bytes
    ∧ unpack bytes =
        take (8 * (length s / 8)) s ++
          (if bool_decide (length s mod 8 = 0)%nat
           then (if bool_decide (length s = 0)%nat then repeat ch_0 8
                 else drop (length s - 8) s)
           else repeat ch_0 (8 - length s mod 8) ++ drop (8 * (length s / 8)) s)
    ∧ (length s < length (unpack bytes) ≤ length s + 8)%nat.
Proof.
  intros Hs. eexists. split; [by apply WriteEncodedStringToFile_bits |]. cbn zeta.
  pose proof (Nat.div_mod_eq (length s) 8) as Hdm.
  pose proof (Nat.mod_upper_bound (length s) 8 ltac:(lia)) as Hmod.
  set (n := length s) in *. set (k := (n / 8)%nat) in *.
  split.
  - rewrite unpack_app, unpack_full_chunks by (done || lia). f_equal.
    change (unpack [?b]) with (bitset_to_string b ++ []). rewrite app_nil_r.
    case_bool_decide as Hr.
    + case_bool_decide as Hn.
      * replace k with 0%nat by lia. reflexivity.
      * destruct k as [| k'] eqn:Hk; [lia |].
        rewrite full_chunks_snoc, map_app. cbn [map]. rewrite last_last.
        replace (n - 8)%nat with (8 * k')%nat by lia.
        rewrite (take_ge (drop (8 * k') s)) by (rewrite length_drop; lia).
        apply bitset_to_string_of_string; [by apply is_bits_drop |].
        rewrite length_drop. lia.
    + rewrite bitset_to_string_short.
      * rewrite length_drop. do 2 f_equal. lia.
      * by apply is_bits_drop.
      * rewrite length_drop. lia.
  - rewrite length_unpack, length_app, length_map, length_full_chunks. simpl. lia.
Qed.

Lemma WriteEncodedStringToFile_unpack_witness :
  ∃ bytes, WriteEncodedStringToFile (lit "110") = Some bytes
    ∧ unpack bytes = lit "00000110"
    ∧ (3 < length (unpack bytes) ≤ 3 + 8)%nat.
Proof.
  apply (WriteEncodedStringToFile_unpack (lit "110")).
  apply is_bits_forallb. reflexivity.
Defined.

(** X2: packing the unpacked form of a sequence of bytes gives the
    sequence with its last byte twice (with the byte 0 after an empty
    sequence). *)
Theorem WriteEncodedStringToFile_of_unpack (bytes : list Z) :
  Forall (λ b, 0 ≤ b < 256) bytes →
  WriteEncodedStringToFile (unpack bytes) = Some (bytes ++ [List.last bytes 0]).
Proof.
  intros Hb. rewrite WriteEncodedStringToFile_bits by apply is_bits_unpack.
  cbn zeta. rewrite length_unpack.
  replace (8 * length bytes / 8)%nat with (length bytes)
    by (rewrite Nat.mul_comm, Nat.div_mul; lia).
  rewrite bool_decide_true by (rewrite Nat.mul_comm; apply Nat.Div0.mod_mul).
  by rewrite full_chunks_unpack.
Qed.

Lemma WriteEncodedStringToFile_of_unpack_witness :
  WriteEncodedStringToFile (unpack [65; 200]) = Some ([65; 200] ++ [200]).
Proof.
  apply (WriteEncodedStringToFile_of_unpack [65; 200]).
  repeat constructor; lia.
Defined.

(** X3: on every string, whatever its characters, the loop of the packer
    ends; it writes at least one byte and at most one byte more than the
    string has characters, and every value written is a byte. *)
Theorem WriteEncodedStringToFile_any_string (encodedString : std_string) :
  ∃ bytes, WriteEncodedStringToFile encodedString = Some bytes
    ∧ bytes ≠ []
    ∧ (length bytes ≤ length encodedString + 1)%nat
    ∧ Forall (λ b, 0 ≤ b < 256) bytes.
Proof.
  destruct (WriteEncodedStringToFile_total encodedString) as [bytes Hbytes].
  exists bytes. split; [done |].
  destruct (write_loop_output _ _ 0 bytes ltac:(lia) Hbytes) as (Hr & Hl & Hne).
  split; [by apply Hne |]. split; done.
Qed.

(** * Decoding *)

Section Decoder.
Context (huffmanCodes : gmap std_string ascii).

(** A code word whose proper prefixes are no entries is matched when its
    last bit arrives. *)
Lemma Decode_loop_word w2 : ∀ temp c rest,
  w2 ≠ [] → huffmanCodes !! (temp ++ w2) = Some c →
  (∀ p, p `prefix_of` temp ++ w2 → p ≠ temp ++ w2 → p ≠ [] → huffmanCodes !! p = None) →
  Decode_loop huffmanCodes temp (w2 ++ rest) =
    (c :: (Decode_loop huffmanCodes [] rest).1, (Decode_loop huffmanCodes [] rest).2).
Proof.
  induction w2 as [| bit w2 IH]; intros temp c rest Hne Hc Hp; [done |].
  cbn [app Decode_loop].
  destruct (decide (w2 = [])) as [-> | Hw2].
  - rewrite Hc. cbn [app]. by destruct (Decode_loop huffmanCodes [] rest).
  - rewrite (Hp (temp ++ [bit])).
    + apply IH; [done | by rewrite <- app_assoc | by rewrite <- app_assoc].
    + exists w2. by rewrite <- app_assoc.
    + intros H. apply (f_equal length) in H. rewrite !length_app in H. simpl in H.
      destruct w2; [done | simpl in H; lia].
    + by destruct temp.
Qed.

Lemma Decode_app_encode (codes : umap std_string) (text rest : std_string) :
  (∀ c, c ∈ text → ∃ w, umap_find c codes = Some w ∧ w ≠ [] ∧ huffmanCodes !! w = Some c
     ∧ ∀ p, p `prefix_of` w → p ≠ w → p ≠ [] → huffmanCodes !! p = None) →
  Decode (encode codes text ++ rest) huffmanCodes = text ++ Decode rest huffmanCodes.
Proof.
  unfold Decode. induction text as [| c text IH]; intros H; [done |].
  destruct (H c ltac:(left)) as (w & Hw & Hne & Hc & Hp).
  unfold encode. cbn [map concat]. rewrite Hw. cbn [default].
  rewrite <- app_assoc. rewrite (Decode_loop_word w [] c); [| done | done | done].
  cbn [fst app]. f_equal. apply IH. intros c' Hc'. apply H. by right.
Qed.

Lemma Decode_loop_length : ∀ encodedString temp,
  (length (Decode_loop huffmanCodes temp encodedString).1 ≤ length encodedString)%nat.
Proof.
  induction encodedString as [| bit rest IH]; intros temp; [done |].
  cbn [Decode_loop]. destruct (huffmanCodes !! (temp ++ [bit])).
  - specialize (IH []). destruct (Decode_loop huffmanCodes [] rest). simpl in *. lia.
  - specialize (IH (temp ++ [bit])). simpl. lia.
Qed.

Lemma Decode_loop_values : ∀ encodedString temp c,
  c ∈ (Decode_loop huffmanCodes temp encodedString).1 →
  ∃ w, w ≠ [] ∧ huffmanCodes !! w = Some c.
Proof.
  induction encodedString as [| bit rest IH]; intros temp c; [by intros ?%elem_of_nil |].
  cbn [Decode_loop]. destruct (huffmanCodes !! (temp ++ [bit])) as [x |] eqn:Hx.
  - specialize (IH [] c). destruct (Decode_loop huffmanCodes [] rest). simpl in *.
    intros [-> | Hin]%elem_of_cons; [| by apply IH].
    exists (temp ++ [bit]). split; [by destruct temp | done].
  - apply IH.
Qed.

End Decoder.

(** X4: [Decode] undoes the encoding of line 113 when the table holds
    every code word of the text, none of them empty, under its symbol, and
    holds no entry at a proper prefix of one of them. *)
Theorem Decode_encode (huffmanCodes : gmap std_string ascii) (codes : umap std_string)
    (text : std_string) :
  (∀ c, c ∈ text → ∃ w, umap_find c codes = Some w ∧ w ≠ [] ∧ huffmanCodes !! w = Some c
     ∧ ∀ p, p `prefix_of` w → p ≠ w → huffmanCodes !! p = None) →
  Decode (encode codes text) huffmanCodes = text.
Proof.
  intros H. rewrite <- (app_nil_r (encode codes text)).
  rewrite Decode_app_encode; [by rewrite app_nil_r |].
  intros c Hc. destruct (H c Hc) as (w & ? & ? & ? & Hp).
  exists w. repeat split; auto.
Qed.

Lemma Decode_encode_witness :
  Decode (encode [("a"%char, lit "0"); ("b"%char, lit "10")] (lit "abba"))
    {[ lit "0" := "a"%char; lit "10" := "b"%char ]} = lit "abba".
Proof.
  apply (Decode_encode {[ lit "0" := "a"%char; lit "10" := "b"%char ]}
           [("a"%char, lit "0"); ("b"%char, lit "10")] (lit "abba")).
  intros c Hc.
  assert (Hab : c = "a"%char ∨ c = "b"%char).
  { unfold lit in Hc. simpl in Hc. rewrite !elem_of_cons, elem_of_nil in Hc. tauto. }
  destruct Hab as [-> | ->].
  - exists (lit "0"). repeat split; try done.
    intros p [k Hk] Hne. destruct p as [| x [| y p]]; [done | |]; inversion Hk; by subst.
  - exists (lit "10"). repeat split; try done.
    intros p [k Hk] Hne. destruct p as [| x [| y [| z p]]]; [done | | |].
    + inversion Hk; subst. reflexivity.
    + inversion Hk; subst. done.
    + inversion Hk.
Defined.

(** X5: the decoder writes at most one character for every bit: the
    output file has no more than eight times the bytes of the packed
    file, whatever the code file holds. *)
Theorem DecodeFile_length (encodedFile : list Z) (huffFile : std_string) :
  (length (DecodeFile encodedFile huffFile) ≤ 8 * length encodedFile)%nat.
Proof.
  unfold DecodeFile, DecodeBinaryFile, Decode.
  etrans; [apply Decode_loop_length |]. by rewrite length_unpack.
Qed.

Lemma Decode_loop_occurrences (huffmanCodes : gmap std_string ascii) :
  ∀ encodedString temp c,
  c ∈ (Decode_loop huffmanCodes temp encodedString).1 →
  ∃ pre w post, temp ++ encodedString = pre ++ w ++ post
    ∧ w ≠ [] ∧ huffmanCodes !! w = Some c.
Proof.
  induction encodedString as [| bit rest IH]; intros temp c; [by intros ?%elem_of_nil |].
  cbn [Decode_loop]. destruct (huffmanCodes !! (temp ++ [bit])) as [x |] eqn:Hx.
  - specialize (IH [] c). destruct (Decode_loop huffmanCodes [] rest) as [out t].
    cbn [fst] in *. intros [-> | Hin]%elem_of_cons.
    + exists [], (temp ++ [bit]), rest. split; [by rewrite <- app_assoc |].
      split; [by destruct temp | done].
    + destruct (IH Hin) as (pre & w & post & Heq & Hne & Hw).
      exists (temp ++ [bit] ++ pre), w, post. split; [| done].
      simpl in Heq. rewrite Heq, <- !app_assoc. reflexivity.
  - intros Hin. destruct (IH (temp ++ [bit]) c Hin) as (pre & w & post & Heq & Hne & Hw).
    exists pre, w, post. split; [| done]. by rewrite <- Heq, <- app_assoc.
Qed.

(** * Reading the code file *)

Lemma find_char_Some c : ∀ line i,
  find_char c line = Some i → (c ∉ take i line) ∧ line !! i = Some c.
Proof.
  induction line as [| x line IH]; intros i H; [done |].
  simpl in H. case_bool_decide as Hx.
  - inversion H; subst. split; [apply not_elem_of_nil | done].
  - destruct (find_char c line) as [j |] eqn:Hj; [| done].
    inversion H; subst. destruct (IH j eq_refl) as [Hout Hat].
    split; [| done]. simpl. rewrite not_elem_of_cons. done.
Qed.

Lemma find_char_None_inv c line : find_char c line = None → c ∉ line.
Proof.
  induction line as [| x line IH]; intros H; [apply not_elem_of_nil |].
  simpl in H. case_bool_decide as Hx; [done |].
  destruct (find_char c line); [done |].
  rewrite not_elem_of_cons. split; [congruence | by apply IH].
Qed.

(** The symbol of a record does not hold the separator. *)
Lemma split_record_symbol line : ch_colon ∉ (split_record line).1.
Proof.
  unfold split_record. destruct (find_char ch_colon line) as [i |] eqn:Hi; simpl.
  - by apply find_char_Some in Hi as [? _].
  - by apply find_char_None_inv.
Qed.

Lemma add_record_values (T : gmap std_string ascii) line :
  map_Forall (λ _ c, c ≠ ch_colon) T → map_Forall (λ _ c, c ≠ ch_colon) (add_record T line).
Proof.
  intros HT. unfold add_record. destruct line as [| x line]; [done |].
  pose proof (split_record_symbol (x :: line)) as Hsym.
  destruct (split_record (x :: line)) as [symbol code]. cbn [fst] in Hsym.
  case_bool_decide; apply map_Forall_insert_2; try done.
  destruct symbol as [| y symbol]; [done |]. simpl.
  intros ->. apply Hsym. left.
Qed.

Lemma read_code_table_values codeFile :
  map_Forall (λ _ c, c ≠ ch_colon) (read_code_table codeFile).
Proof.
  unfold read_code_table.
  assert (Hgen : ∀ lines T, map_Forall (λ _ c, c ≠ ch_colon) T →
            map_Forall (λ _ c, c ≠ ch_colon) (fold_left add_record lines T)).
  { induction lines as [| l lines IH]; intros T HT; [done |].
    simpl. by apply IH, add_record_values. }
  apply Hgen, map_Forall_empty.
Qed.

(** X6: the decoder never writes the separator [':'], whatever the two
    files hold: the symbol of a record is what stands before its first
    [':']. *)
Theorem DecodeFile_never_writes_separator (encodedFile : list Z) (huffFile : std_string) :
  ch_colon ∉ DecodeFile encodedFile huffFile.
Proof.
  unfold DecodeFile, DecodeBinaryFile, Decode. intros Hin.
  apply Decode_loop_occurrences in Hin as (_ & w & _ & _ & _ & Hw).
  by apply (read_code_table_values huffFile) in Hw.
Qed.

(** X7: every character that [Decode] writes is the table's entry for a
    non-empty piece of the bit string. *)
Theorem Decode_writes_table_entries (encodedString : std_string)
    (huffmanCodes : gmap std_string ascii) (c : ascii) :
  c ∈ Decode encodedString huffmanCodes →
  ∃ pre w post, encodedString = pre ++ w ++ post ∧ w ≠ [] ∧ huffmanCodes !! w = Some c.
Proof. intros Hin. by apply (Decode_loop_occurrences huffmanCodes encodedString []). Qed.

Lemma Decode_writes_table_entries_witness :
  ∃ pre w post, lit "0100" = pre ++ w ++ post ∧ w ≠ []
    ∧ ({[ lit "0" := "a"%char; lit "10" := "b"%char ]} : gmap std_string ascii) !! w
        = Some "b"%char.
Proof.
  apply (Decode_writes_table_entries (lit "0100")
           {[ lit "0" := "a"%char; lit "10" := "b"%char ]} "b"%char).
  vm_compute. right. left.
Defined.

(** X8: an empty line of the code file is skipped: the table is the one of
    the file without that line. *)
Theorem read_code_table_blank_line (pre post : std_string) :
  pre = [] ∨ last pre = Some ch_nl →
  read_code_table (pre ++ ch_nl :: post) = read_code_table (pre ++ post).
Proof.
  intros Hpre. unfold read_code_table.
  rewrite !getlines_app by done. rewrite !fold_left_app.
  change (getlines [] (ch_nl :: post)) with ([] :: getlines [] post). reflexivity.
Qed.

Lemma read_code_table_blank_line_witness :
  read_code_table (lit "a:0" ++ [ch_nl] ++ ch_nl :: lit "b:1")
    = read_code_table (lit "a:0" ++ [ch_nl] ++ lit "b:1").
Proof.
  apply (read_code_table_blank_line (lit "a:0" ++ [ch_nl]) (lit "b:1")).
  right. reflexivity.
Defined.

(** X26: decoding goes on where it stopped: the loop on two bit strings
    one after the other is the loop on the first, followed by the loop on
    the second started with the candidate that the first has left. *)
Theorem Decode_loop_app (huffmanCodes : gmap std_string ascii)
    (temp s1 s2 : std_string) :
  Decode_loop huffmanCodes temp (s1 ++ s2) =
    ((Decode_loop huffmanCodes temp s1).1
       ++ (Decode_loop huffmanCodes (Decode_loop huffmanCodes temp s1).2 s2).1,
     (Decode_loop huffmanCodes (Decode_loop huffmanCodes temp s1).2 s2).2).
Proof.
  revert temp. induction s1 as [| bit s1 IH]; intros temp.
  - cbn [app Decode_loop fst snd]. by destruct (Decode_loop huffmanCodes temp s2).
  - cbn [app Decode_loop]. destruct (huffmanCodes !! (temp ++ [bit])) as [c |].
    + rewrite (IH []). destruct (Decode_loop huffmanCodes [] s1) as [out t].
      reflexivity.
    + apply IH.
Qed.

(** * The code file, written and read back *)

Lemma code_record_line (pair : ascii * std_string) :
  ch_nl ∉ pair.2 →
  ∃ line, code_record pair = line ++ [ch_nl] ∧ (ch_nl ∉ line) ∧ line ≠ []
    ∧ ∀ T, add_record T line = <[(read_back pair).1 := (read_back pair).2]> T.
Proof.
  destruct pair as [c w]. cbn [fst snd]. intros Hw.
  unfold code_record, read_back. cbn [fst snd].
  exists ((if bool_decide (c = ch_nl) then [ch_backslash; ch_n] else [c]) ++ [ch_colon] ++ w).
  split; [by rewrite <- !app_assoc |]. split; [| split].
  - rewrite !not_elem_of_app. split; [| split; [| done]].
    + case_bool_decide as Hc.
      * rewrite !not_elem_of_cons. repeat split; try discriminate. apply not_elem_of_nil.
      * rewrite not_elem_of_cons. split; [congruence | apply not_elem_of_nil].
    + rewrite not_elem_of_cons. split; [discriminate | apply not_elem_of_nil].
  - by case_bool_decide.
  - intros T. unfold add_record, split_record.
    case_bool_decide as Hnl; [| case_bool_decide as Hcolon].
    + subst c. rewrite bool_decide_false by discriminate. reflexivity.
    + subst c. reflexivity.
    + cbn [app find_char]. rewrite bool_decide_false by done.
      rewrite bool_decide_true by done. cbn [fmap option_fmap option_map take drop].
      rewrite bool_decide_false by discriminate. reflexivity.
Qed.

Lemma read_code_table_records (pairs : list (ascii * std_string)) :
  Forall (λ p : ascii * std_string, ch_nl ∉ p.2) pairs →
  read_code_table (concat (map code_record pairs)) = insert_all (read_back <$> pairs) ∅.
Proof.
  unfold read_code_table, insert_all. generalize (∅ : gmap std_string ascii).
  intros T H. revert T. induction H as [| p pairs Hp _ IH]; intros T; [done |].
  destruct (code_record_line p Hp) as (line & Hrec & Hnl & Hne & Hadd).
  cbn [map concat fmap list_fmap fold_left]. rewrite Hrec, <- app_assoc.
  cbn [app]. rewrite getlines_line by done. cbn [app fold_left].
  rewrite Hadd. apply IH.
Qed.

Lemma insert_all_lookup_ne entries : ∀ T key,
  (∀ e, e ∈ entries → e.1 ≠ key) → insert_all entries T !! key = T !! key.
Proof.
  unfold insert_all. induction entries as [| e entries IH]; intros T key H; [done |].
  cbn [fold_left]. rewrite IH by (intros e' He'; apply H; by right).
  apply lookup_insert_ne. apply H. left.
Qed.

Lemma insert_all_snoc entries e T :
  insert_all (entries ++ [e]) T = <[e.1 := e.2]> (insert_all entries T).
Proof. unfold insert_all. by rewrite fold_left_app. Qed.

Lemma insert_all_lookup entries T key v :
  (key, v) ∈ entries → (∀ e, e ∈ entries → e.1 = key → e.2 = v) →
  insert_all entries T !! key = Some v.
Proof.
  induction entries as [| e entries IH] using rev_ind; intros Hin H;
    [by apply elem_of_nil in Hin |].
  rewrite insert_all_snoc. destruct (decide (e.1 = key)) as [He | He].
  - rewrite <- He, lookup_insert_eq. f_equal. apply H; [| done].
    apply elem_of_app. right. left.
  - rewrite lookup_insert_ne by done. apply IH.
    + apply elem_of_app in Hin as [Hin | Hin]; [done |].
      apply list_elem_of_singleton in Hin. by subst e.
    + intros e' He'. apply H. apply elem_of_app. by left.
Qed.

Lemma insert_all_lookup_Some entries : ∀ T key v,
  insert_all entries T !! key = Some v → (key, v) ∈ entries ∨ T !! key = Some v.
Proof.
  unfold insert_all. induction entries as [| e entries IH]; intros T key v H; [by right |].
  cbn [fold_left] in H. apply IH in H as [Hin | HT]; [left; by right |].
  destruct (decide (e.1 = key)) as [<- | Hne].
  - rewrite lookup_insert_eq in HT. inversion HT. left. destruct e. left.
  - rewrite lookup_insert_ne in HT by done. by right.
Qed.

Section CodeFile.
Context {L : StdLib} (HL : StdLibSpec L).

Lemma is_bits_no_newline w : is_bits w → ch_nl ∉ w.
Proof.
  intros Hw Hin. unfold is_bits in Hw. rewrite Forall_forall in Hw.
  destruct (Hw _ Hin) as [H | H]; discriminate H.
Qed.

Lemma is_bits_no_colon w : is_bits w → ch_colon ∉ w.
Proof.
  intros Hw Hin. unfold is_bits in Hw. rewrite Forall_forall in Hw.
  destruct (Hw _ Hin) as [H | H]; discriminate H.
Qed.

Lemma read_write_code_file (codes : umap std_string) :
  Forall (λ p : ascii * std_string, is_bits p.2) codes →
  read_code_table (write_code_file codes) = insert_all (read_back <$> umap_iterate codes) ∅.
Proof.
  intros Hbits. unfold write_code_file. apply read_code_table_records.
  rewrite (umap_iterate_perm _ codes). eapply Forall_impl; [exact Hbits |].
  intros p. apply is_bits_no_newline.
Qed.

(** The entry of a symbol other than [':'] whose word no other symbol has. *)
Lemma read_write_code_file_lookup (codes : umap std_string) c w :
  Forall (λ p : ascii * std_string, is_bits p.2) codes →
  (c, w) ∈ codes → c ≠ ch_colon →
  (∀ c', (c', w) ∈ codes → c' = c) →
  read_code_table (write_code_file codes) !! w = Some c.
Proof.
  intros Hbits Hin Hc Huniq. rewrite read_write_code_file by done.
  assert (Hw : is_bits w) by (rewrite Forall_forall in Hbits; apply (Hbits _ Hin)).
  apply insert_all_lookup.
  - apply list_elem_of_fmap. exists (c, w). split.
    + unfold read_back. by rewrite bool_decide_false.
    + by rewrite (umap_iterate_perm _ codes).
  - intros e [[c' w'] [-> Hin']]%list_elem_of_fmap.
    rewrite (umap_iterate_perm _ codes) in Hin'.
    unfold read_back. cbn [fst snd]. case_bool_decide as Hc'; cbn [fst snd].
    + intros <-. exfalso. apply (is_bits_no_colon _ Hw). left.
    + intros ->. by apply Huniq.
Qed.

(** An entry at a bit string is the entry of a symbol other than [':']. *)
Lemma read_write_code_file_bits (codes : umap std_string) c w :
  Forall (λ p : ascii * std_string, is_bits p.2) codes →
  is_bits w → read_code_table (write_code_file codes) !! w = Some c →
  (c, w) ∈ codes ∧ c ≠ ch_colon.
Proof.
  intros Hbits Hw. rewrite read_write_code_file by done.
  intros [Hin | Hempty]%insert_all_lookup_Some; [| done].
  apply list_elem_of_fmap in Hin as [[c' w'] [Heq Hin]].
  rewrite (umap_iterate_perm _ codes) in Hin.
  unfold read_back in Heq. cbn [fst snd] in Heq. case_bool_decide as Hc'.
  - inversion Heq; subst. exfalso. apply (is_bits_no_colon _ Hw). left.
  - inversion Heq; subst. done.
Qed.

End CodeFile.

(** X9: the code file written for a code map of bit strings, read back:
    the word of a symbol other than [':'] that no other symbol shares is
    mapped to that symbol, and every entry under a bit string is the word
    of such a symbol in the map. *)
Theorem write_code_file_read_back {L : StdLib} (HL : StdLibSpec L) (codes : umap std_string) :
  Forall (λ p : ascii * std_string, is_bits p.2) codes →
  (∀ c w, (c, w) ∈ codes → c ≠ ch_colon → (∀ c', (c', w) ∈ codes → c' = c) →
     read_code_table (write_code_file codes) !! w = Some c)
  ∧ (∀ c w, is_bits w → read_code_table (write_code_file codes) !! w = Some c →
       (c, w) ∈ codes ∧ c ≠ ch_colon).
Proof.
  intros Hbits. split.
  - intros c w. by apply read_write_code_file_lookup.
  - intros c w. by apply read_write_code_file_bits.
Qed.

Lemma write_code_file_read_back_witness :
  (∀ c w, (c, w) ∈ [("a"%char, lit "0"); (ch_nl, lit "1")] → c ≠ ch_colon →
     (∀ c', (c', w) ∈ [("a"%char, lit "0"); (ch_nl, lit "1")] → c' = c) →
     read_code_table
       (@write_code_file insertion_order_lib [("a"%char, lit "0"); (ch_nl, lit "1")]) !! w
       = Some c)
  ∧ (∀ c w, is_bits w →
       read_code_table
         (@write_code_file insertion_order_lib [("a"%char, lit "0"); (ch_nl, lit "1")]) !! w
         = Some c →
       (c, w) ∈ [("a"%char, lit "0"); (ch_nl, lit "1")] ∧ c ≠ ch_colon).
Proof.
  apply (write_code_file_read_back insertion_order_lib_spec
           [("a"%char, lit "0"); (ch_nl, lit "1")]).
  repeat constructor; apply is_bits_forallb; reflexivity.
Defined.

(** X10: the record written for the symbol [':'] is read back with an
    empty symbol: its word gets no entry (when no other symbol shares it),
    and the word with a [':'] in front is mapped to the null character. *)
Theorem write_code_file_separator_symbol {L : StdLib} (HL : StdLibSpec L)
    (codes : umap std_string) (w : std_string) :
  Forall (λ p : ascii * std_string, is_bits p.2) codes →
  (ch_colon, w) ∈ codes → (∀ c', (c', w) ∈ codes → c' = ch_colon) →
  read_code_table (write_code_file codes) !! w = None
  ∧ read_code_table (write_code_file codes) !! (ch_colon :: w) = Some ch_nul.
Proof.
  intros Hbits Hin Huniq.
  assert (Hw : is_bits w) by (rewrite Forall_forall in Hbits; apply (Hbits _ Hin)).
  split.
  - destruct (read_code_table (write_code_file codes) !! w) as [c |] eqn:Hc; [| done].
    apply read_write_code_file_bits in Hc as [Hc Hne]; [| done | done | done].
    by apply Huniq in Hc.
  - rewrite read_write_code_file by done. apply insert_all_lookup.
    + apply list_elem_of_fmap. exists (ch_colon, w). split.
      * unfold read_back. by rewrite bool_decide_true.
      * by rewrite (umap_iterate_perm _ codes).
    + intros e [[c' w'] [-> Hin']]%list_elem_of_fmap.
      rewrite (umap_iterate_perm _ codes) in Hin'.
      unfold read_back. cbn [fst snd]. case_bool_decide as Hc'; cbn [fst snd]; [done |].
      intros ->. exfalso.
      rewrite Forall_forall in Hbits. apply (is_bits_no_colon _ (Hbits _ Hin')). left.
Qed.

Lemma write_code_file_separator_symbol_witness :
  read_code_table
    (@write_code_file insertion_order_lib [(ch_colon, lit "0"); (ch_nl, lit "1")]) !! lit "0"
    = None
  ∧ read_code_table
      (@write_code_file insertion_order_lib [(ch_colon, lit "0"); (ch_nl, lit "1")])
      !! (ch_colon :: lit "0") = Some ch_nul.
Proof.
  apply (write_code_file_separator_symbol insertion_order_lib_spec
           [(ch_colon, lit "0"); (ch_nl, lit "1")] (lit "0")).
  - repeat constructor; apply is_bits_forallb; reflexivity.
  - left.
  - intros c' Hc'. rewrite !elem_of_cons, elem_of_nil in Hc'.
    destruct Hc' as [H | [H | []]]; [by inversion H | discriminate H].
Defined.

(** * More on the frequency map and the tree *)

Lemma elem_of_keys_count_frequencies text c :
  c ∈ keys (count_frequencies text) ↔ c = ch_nl ∨ c ∈ text.
Proof.
  unfold count_frequencies. fold (count_all text []). unfold increment.
  destruct (decide (ch_nl ∈ keys (count_all text []))) as [Hin | Hout].
  - rewrite keys_update_present by done. rewrite elem_of_keys_count_all.
    apply elem_of_keys_count_all in Hin. unfold keys. simpl.
    rewrite elem_of_nil. destruct Hin as [[]%elem_of_nil | Hin]. intuition (subst; auto).
  - rewrite umap_update_absent by done. unfold keys. rewrite fmap_app, elem_of_app.
    fold (keys (count_all text [])). rewrite elem_of_keys_count_all.
    simpl. rewrite list_elem_of_singleton. unfold keys. simpl.
    rewrite elem_of_nil. intuition (subst; auto).
Qed.

Lemma counts_in_range_count_frequencies text : counts_in_range (count_frequencies text).
Proof. apply counts_in_range_increment, counts_in_range_count_all. constructor. Qed.

Lemma sum_counts_app m1 m2 : sum_counts (m1 ++ m2) = sum_counts m1 + sum_counts m2.
Proof. induction m1 as [| p m1 IH]; simpl in *; lia. Qed.

Lemma sum_counts_Permutation m1 m2 : m1 ≡ₚ m2 → sum_counts m1 = sum_counts m2.
Proof.
  induction 1 as [| e l1 l2 _ IH | e1 e2 l | l1 l2 l3 _ IH1 _ IH2]; simpl in *; lia.
Qed.

(** Counting one more character adds one to the sum of the counts, up to
    the wrap of the counter. *)
Lemma sum_counts_increment_wrap ch m :
  unsigned_wrap (sum_counts (increment ch m)) = unsigned_wrap (sum_counts m + 1).
Proof.
  unfold increment. induction m as [| [k v] m IH]; cbn [umap_update].
  - cbn [sum_counts foldr snd default]. unfold unsigned_wrap.
    rewrite Z.add_0_r, Z.mod_mod by done. reflexivity.
  - case_bool_decide.
    + change (sum_counts ((k, ?x) :: m)) with (x + sum_counts m).
      cbn [default]. unfold unsigned_wrap, id. rewrite Zplus_mod_idemp_l. f_equal. lia.
    + change (sum_counts ((k, v) :: ?l)) with (v + sum_counts l).
      unfold unsigned_wrap in *. rewrite <- Zplus_mod_idemp_r, IH, Zplus_mod_idemp_r.
      f_equal. lia.
Qed.

Lemma unsigned_wrap_add_l a b : unsigned_wrap (unsigned_wrap a + b) = unsigned_wrap (a + b).
Proof. unfold unsigned_wrap. apply Zplus_mod_idemp_l. Qed.

Lemma sum_counts_count_all_wrap text : ∀ m,
  unsigned_wrap (sum_counts (count_all text m))
    = unsigned_wrap (sum_counts m + Z.of_nat (length text)).
Proof.
  induction text as [| ch text IH]; intros m.
  - simpl. by rewrite Z.add_0_r.
  - change (count_all (ch :: text) m) with (count_all text (increment ch m)).
    rewrite IH, <- unsigned_wrap_add_l, sum_counts_increment_wrap, unsigned_wrap_add_l.
    f_equal. simpl length. lia.
Qed.

Lemma sum_counts_count_frequencies_wrap text :
  unsigned_wrap (sum_counts (count_frequencies text))
    = unsigned_wrap (Z.of_nat (length text) + 1).
Proof.
  unfold count_frequencies. fold (count_all text []).
  rewrite sum_counts_increment_wrap, <- unsigned_wrap_add_l, sum_counts_count_all_wrap.
  rewrite unsigned_wrap_add_l. f_equal.
Qed.

(** The frequency of a tree of the builder is the sum of its leaves'
    frequencies, up to the wrap. *)
Lemma proper_frequency t :
  proper t → counts_in_range (leaves t) →
  frequency_of t = unsigned_wrap (sum_counts (leaves t)).
Proof.
  induction t as [| c f l IHl r IHr]; [done |].
  intros [[-> ->] | (Hl & Hr & Hf)] Hrange.
  - unfold leaves in *. simpl in *. apply Forall_cons in Hrange as [Hf _]. simpl in Hf.
    rewrite Z.add_0_r. symmetry. by apply unsigned_wrap_small.
  - pose proof (leaves_Node_internal c f l r (proper_not_null l Hl) (proper_not_null r Hr))
      as Hp.
    unfold counts_in_range in Hrange. rewrite Hp in Hrange.
    apply Forall_app in Hrange as [Hrl Hrr].
    rewrite (sum_counts_Permutation _ _ Hp), sum_counts_app. cbn [frequency_of].
    rewrite Hf, IHl, IHr by done. unfold unsigned_wrap.
    symmetry. apply Zplus_mod.
Qed.

Lemma length_leaf_records t : ∀ s1 s2,
  length (leaf_records t s1) = length (leaf_records t s2).
Proof.
  induction t as [| c f l IHl r IHr]; intros s1 s2; [done |].
  simpl. rewrite !length_app. f_equal; [by destruct (is_null l && is_null r) |].
  f_equal; auto.
Qed.

Lemma proper_leaf_records_pos t str : proper t → (0 < length (leaf_records t str))%nat.
Proof.
  intros Ht. pose proof (proper_leaves_not_nil t Ht) as Hne. unfold leaves in Hne.
  rewrite (length_leaf_records t str []).
  destruct (leaf_records t []); [done | simpl; lia].
Qed.

(** In a tree of the builder a leaf is no deeper than the number of the
    other leaves. *)
Lemma proper_depth t : ∀ str rec,
  proper t → rec ∈ leaf_records t str →
  (length rec.2 + 1 ≤ length str + length (leaf_records t str))%nat.
Proof.
  induction t as [| c f l IHl r IHr]; intros str rec; [done |].
  intros [[-> ->] | (Hl & Hr & _)].
  - simpl. intros ->%list_elem_of_singleton. simpl. lia.
  - cbn [leaf_records].
    replace (is_null l && is_null r) with false by (by destruct l).
    cbn [app]. rewrite length_app, elem_of_app.
    pose proof (proper_leaf_records_pos l (str ++ [ch_0]) Hl).
    pose proof (proper_leaf_records_pos r (str ++ [ch_1]) Hr).
    intros [Hin | Hin].
    + apply (IHl _ _ Hl) in Hin. rewrite length_app in Hin. simpl in Hin. lia.
    + apply (IHr _ _ Hr) in Hin. rewrite length_app in Hin. simpl in Hin. lia.
Qed.

(** There are 256 characters. *)
Lemma NoDup_ascii_length (l : list ascii) : NoDup l → (length l ≤ 256)%nat.
Proof.
  intros Hnd.
  assert (Hnd' : NoDup (nat_of_ascii <$> l)).
  { apply NoDup_fmap_2; [| done]. intros a b Hab.
    by rewrite <- (ascii_nat_embedding a), <- (ascii_nat_embedding b), Hab. }
  assert (Hsub : nat_of_ascii <$> l ⊆+ seq 0 256).
  { apply NoDup_submseteq; [done |]. intros n [a [-> _]]%list_elem_of_fmap.
    apply elem_of_seq. pose proof (nat_ascii_bounded a). lia. }
  apply submseteq_length in Hsub. by rewrite length_fmap, length_seq in Hsub.
Qed.

(** * The code map *)

Lemma last_filter_cons {A} (P : A → Prop) `{∀ x, Decision (P x)} (x : A) l :
  last (filter P (x :: l)) =
    match last (filter P l) with
    | Some y => Some y
    | None => if decide (P x) then Some x else None
    end.
Proof.
  rewrite filter_cons. destruct (decide (P x)); [| by destruct (last (filter P l))].
  destruct (filter P l) as [| y l'] eqn:E; [done |].
  rewrite last_cons. by destruct (last (y :: l')) eqn:E'; [| apply last_None in E'].
Qed.

(** X11: [GenerateHuffmanCodes] on any tree and any map: the code of a
    character is the path of the last leaf, from left to right, that
    carries it, and the map's old entry when no leaf does.  A node with one
    child is no leaf and gets no code. *)
Theorem GenerateHuffmanCodes_lookup (root : TreeNodePtr) (str : std_string)
    (huffmanCodes : umap std_string) (c : ascii) :
  umap_find c (GenerateHuffmanCodes root str huffmanCodes) =
    match last (filter (λ p : ascii * std_string, p.1 = c) (paths root str)) with
    | Some p => Some p.2
    | None => umap_find c huffmanCodes
    end.
Proof.
  rewrite GenerateHuffmanCodes_paths. generalize (paths root str) as ps.
  intros ps. revert huffmanCodes.
  induction ps as [| p ps IH]; intros m; [done |].
  cbn [fold_left]. rewrite IH, last_filter_cons.
  destruct (last (filter _ ps)); [done |].
  unfold set_code. rewrite umap_find_update.
  destruct (decide (p.1 = c)) as [Hp | Hp].
  - by rewrite bool_decide_true.
  - by rewrite bool_decide_false.
Qed.

Section CodeMap.
Context {L : StdLib} (HL : StdLibSpec L).

(** X12: the code map of a compression has one entry for the newline and
    one for every character of the input, and no other. *)
Theorem code_table_symbols (inputText : std_string) :
  ∃ codes, code_table inputText [] = Some codes
    ∧ NoDup (keys codes)
    ∧ ∀ c, c ∈ keys codes ↔ c = ch_nl ∨ c ∈ inputText.
Proof.
  destruct (code_table_paths HL inputText) as (root & _ & _ & Hleaves & Hcodes).
  exists (paths root []). split; [done |].
  assert (Hkeys : keys (paths root []) ≡ₚ keys (count_frequencies inputText)).
  { rewrite keys_paths. unfold keys. by rewrite Hleaves. }
  split.
  - rewrite Hkeys. apply count_frequencies_NoDup.
  - intros c. rewrite Hkeys. apply elem_of_keys_count_frequencies.
Qed.

(** X13: the root of the tree carries the length of the input plus one,
    reduced modulo [2^32]. *)
Theorem build_tree_root_frequency (inputText : std_string) :
  ∃ root, build_tree inputText [] = Some root
    ∧ frequency_of root = unsigned_wrap (Z.of_nat (length inputText) + 1).
Proof.
  destruct (code_table_paths HL inputText) as (root & Hroot & Hproper & Hleaves & _).
  exists root. split; [done |].
  rewrite proper_frequency; [| done |].
  - rewrite (sum_counts_Permutation _ _ Hleaves).
    apply sum_counts_count_frequencies_wrap.
  - unfold counts_in_range. rewrite Hleaves. apply counts_in_range_count_frequencies.
Qed.

(** X14: a code word has fewer bits than the code map has symbols, and
    there are at most 256 symbols; with a character other than the newline
    in the input it has at least one bit. *)
Theorem code_word_length_bounds (inputText : std_string) (codes : umap std_string)
    (a : ascii) (ca : std_string) :
  code_table inputText [] = Some codes → umap_find a codes = Some ca →
  (length ca < length codes ≤ 256)%nat
  ∧ ((∃ c, c ∈ inputText ∧ c ≠ ch_nl) → (1 ≤ length ca)%nat).
Proof.
  intros Hct Ha.
  destruct (code_table_paths HL inputText) as (root & _ & Hproper & Hleaves & Hcodes).
  rewrite Hct in Hcodes. injection Hcodes as ->.
  split; [split |].
  - apply umap_find_Some_elem_of, elem_of_paths in Ha as [f Ha].
    pose proof (proper_depth root [] _ Hproper Ha) as Hd. simpl in Hd.
    unfold paths. rewrite length_fmap. lia.
  - rewrite <- (length_fmap fst). fold (keys (paths root [])).
    apply NoDup_ascii_length. rewrite keys_paths. unfold keys. rewrite Hleaves.
    apply count_frequencies_NoDup.
  - intros (c & Hc & Hnl).
    pose proof (code_words_nonempty HL inputText _ c Hc Hnl Hct a ca Ha).
    destruct ca; [done | simpl; lia].
Qed.

End CodeMap.

Lemma code_table_symbols_witness :
  ∃ codes, @code_table insertion_order_lib (lit "aab") [] = Some codes
    ∧ NoDup (keys codes)
    ∧ ∀ c, c ∈ keys codes ↔ c = ch_nl ∨ c ∈ lit "aab".
Proof. exact (code_table_symbols insertion_order_lib_spec (lit "aab")). Defined.

Lemma build_tree_root_frequency_witness :
  ∃ root, @build_tree insertion_order_lib (lit "aab") [] = Some root
    ∧ frequency_of root = unsigned_wrap (Z.of_nat (length (lit "aab")) + 1).
Proof. exact (build_tree_root_frequency insertion_order_lib_spec (lit "aab")). Defined.

Lemma code_word_length_bounds_witness :
  (length (lit "10") < length [("a"%char, lit "0"); ("b"%char, lit "10"); (ch_nl, lit "11")]
     ≤ 256)%nat
  ∧ ((∃ c, c ∈ lit "aab" ∧ c ≠ ch_nl) → (1 ≤ length (lit "10"))%nat).
Proof.
  apply (code_word_length_bounds insertion_order_lib_spec (lit "aab")
           [("a"%char, lit "0"); ("b"%char, lit "10"); (ch_nl, lit "11")]
           "b"%char (lit "10")); reflexivity.
Defined.

(** * The size of the packed file *)

Lemma count_of_le_sum_counts c m : counts_in_range m → count_of c m ≤ sum_counts m.
Proof.
  unfold count_of. induction 1 as [| [k v] m [Hv _] Hm IH]; [done |].
  cbn [umap_find sum_counts foldr snd]. fold (sum_counts m).
  pose proof (sum_counts_nonneg m Hm). simpl in Hv.
  case_bool_decide; simpl; lia.
Qed.

Lemma weighted_length_increment ch m code :
  counts_in_range m → count_of ch m + 1 < UINT_MODULUS →
  weighted_length (increment ch m) code
    = weighted_length m code + Z.of_nat (length (code ch)).
Proof.
  unfold increment, count_of.
  induction 1 as [| [k v] m [Hv _] Hm IH]; cbn [umap_update umap_find]; intros Hc.
  - rewrite weighted_length_cons. cbn [fst snd default].
    rewrite unsigned_wrap_small by (unfold UINT_MODULUS; lia).
    unfold weighted_length. simpl. lia.
  - simpl in Hv. case_bool_decide as Hk.
    + subst k. rewrite !weighted_length_cons. cbn [fst snd default] in *.
      unfold id in *. rewrite unsigned_wrap_small by lia. lia.
    + rewrite !weighted_length_cons, IH by done. lia.
Qed.

Lemma weighted_length_count_all code text : ∀ m,
  counts_in_range m → sum_counts m + Z.of_nat (length text) < UINT_MODULUS →
  weighted_length (count_all text m) code
    = weighted_length m code + Z.of_nat (length (concat (map code text))).
Proof.
  induction text as [| ch text IH]; intros m Hm Hs.
  - simpl. lia.
  - change (count_all (ch :: text) m) with (count_all text (increment ch m)).
    simpl length in Hs. pose proof (count_of_le_sum_counts ch m Hm).
    rewrite IH.
    + rewrite weighted_length_increment by (done || lia).
      cbn [map concat]. rewrite length_app. lia.
    + by apply counts_in_range_increment.
    + rewrite sum_counts_increment by (done || lia). lia.
Qed.

Lemma sum_counts_count_frequencies text :
  Z.of_nat (length text) + 1 < UINT_MODULUS →
  sum_counts (count_frequencies text) = Z.of_nat (length text) + 1.
Proof.
  intros Hlen. unfold count_frequencies. fold (count_all text []).
  assert (Hs : sum_counts (count_all text []) = Z.of_nat (length text)).
  { rewrite sum_counts_count_all; [simpl; lia | constructor | simpl; lia]. }
  rewrite sum_counts_increment; [lia | | lia].
  apply counts_in_range_count_all. constructor.
Qed.

Lemma weighted_length_count_frequencies code text :
  Z.of_nat (length text) + 1 < UINT_MODULUS →
  weighted_length (count_frequencies text) code
    = Z.of_nat (length (concat (map code text))) + Z.of_nat (length (code ch_nl)).
Proof.
  intros Hlen. unfold count_frequencies. fold (count_all text []).
  assert (Hr : counts_in_range (count_all text [])).
  { apply counts_in_range_count_all. constructor. }
  assert (Hs : sum_counts (count_all text []) = Z.of_nat (length text)).
  { rewrite sum_counts_count_all; [simpl; lia | constructor | simpl; lia]. }
  pose proof (count_of_le_sum_counts ch_nl _ Hr).
  rewrite weighted_length_increment by (done || lia).
  rewrite weighted_length_count_all; [| constructor | simpl; lia].
  unfold weighted_length at 1. simpl. lia.
Qed.

(** X15: while no count wraps, the encoded bit string of line 113 has the
    weighted length of the code over the frequency map, less the word of
    the newline, which the map counts once more than the input holds
    it. *)
Theorem encode_length (codes : umap std_string) (inputText : std_string) :
  Z.of_nat (length inputText) + 1 < UINT_MODULUS →
  Z.of_nat (length (encode codes inputText))
    = weighted_length (count_frequencies inputText) (code_of codes)
      - Z.of_nat (length (code_of codes ch_nl)).
Proof.
  intros Hlen. rewrite weighted_length_count_frequencies by done.
  unfold encode, code_of. lia.
Qed.

Lemma encode_length_witness :
  Z.of_nat (length (encode [("a"%char, lit "0"); ("b"%char, lit "10"); (ch_nl, lit "11")]
                      (lit "aab")))
    = weighted_length (count_frequencies (lit "aab"))
        (code_of [("a"%char, lit "0"); ("b"%char, lit "10"); (ch_nl, lit "11")])
      - Z.of_nat (length (code_of [("a"%char, lit "0"); ("b"%char, lit "10"); (ch_nl, lit "11")]
                            ch_nl)).
Proof.
  apply (encode_length [("a"%char, lit "0"); ("b"%char, lit "10"); (ch_nl, lit "11")]
           (lit "aab")).
  reflexivity.
Defined.

(** The code of eight bits a symbol. *)
Lemma ascii_bits_inj a b : ascii_bits a = ascii_bits b → a = b.
Proof. destruct a, b. simpl. by intros [= -> -> -> -> -> -> -> ->]. Qed.

Lemma length_ascii_bits a : length (ascii_bits a) = 8%nat.
Proof. by destruct a. Qed.

Lemma prefix_same_length {A} (l1 l2 : list A) :
  l1 `prefix_of` l2 → length l1 = length l2 → l1 = l2.
Proof.
  intros [k ->] Hlen. rewrite length_app in Hlen.
  destruct k; [by rewrite app_nil_r | simpl in Hlen; lia].
Qed.

Lemma prefix_free_ascii_bits (ks : list ascii) :
  NoDup ks → prefix_free (ascii_bits <$> ks).
Proof.
  induction 1 as [| a ks Ha _ IH]; [done |].
  simpl. split; [| done].
  apply Forall_fmap, Forall_forall. intros b Hb. simpl.
  split; intros Hp; apply prefix_same_length in Hp;
    rewrite ?length_ascii_bits; try done;
    apply ascii_bits_inj in Hp; congruence.
Qed.

Lemma code_cost_ascii_bits (m : umap Z) :
  code_cost ((λ p : ascii * Z, (p.2, ascii_bits p.1)) <$> m) = 8 * sum_counts m.
Proof.
  induction m as [| [c f] m IH]; [done |].
  rewrite fmap_cons, code_cost_cons, IH. cbn [fst snd].
  rewrite length_ascii_bits. simpl. lia.
Qed.

Lemma paths_internal_nonempty c f l r a ca :
  is_null l && is_null r = false → (a, ca) ∈ paths (Node c f l r) [] → ca ≠ [].
Proof.
  intros Hleaf [fa Ha]%elem_of_paths. simpl in Ha. rewrite Hleaf in Ha.
  simpl in Ha. apply elem_of_app in Ha as [Ha | Ha];
    apply leaf_records_path_prefix in Ha as [k Hk]; simpl in Hk;
    intros ->; discriminate Hk.
Qed.

Lemma encode_empty_words codes text :
  Forall (λ p : ascii * std_string, p.2 = []) codes → encode codes text = [].
Proof.
  intros Hcodes. unfold encode. induction text as [| ch text IH]; [done |].
  cbn [map concat]. rewrite IH, app_nil_r.
  destruct (umap_find ch codes) as [w |] eqn:Hw; [| done].
  apply umap_find_Some_elem_of in Hw. rewrite Forall_forall in Hcodes.
  apply (Hcodes _ Hw).
Qed.

Section PackedSize.
Context {L : StdLib} (HL : StdLibSpec L).

(** The weighted path length of the code of a compression is the cost of
    its tree. *)
Lemma weighted_length_code_table m root :
  leaves root ≡ₚ m → NoDup (keys m) →
  weighted_length m (code_of (paths root [])) = cost root.
Proof.
  intros Hleaves Hnd.
  assert (Hndl : NoDup (keys (leaves root))) by (unfold keys; by rewrite Hleaves).
  rewrite <- (weighted_length_Permutation _ _ _ Hleaves).
  unfold leaves at 1. rewrite weighted_length_records by (by apply code_of_paths).
  rewrite record_cost_leaf_records. simpl. lia.
Qed.

(** No code costs the builder more than the code of eight bits a symbol. *)
Lemma huffman_tree_cost_bound m root :
  m ≠ [] → NoDup (keys m) → counts_in_range m → sum_counts m < UINT_MODULUS →
  huffman_tree m [] = Some root → cost root ≤ 8 * sum_counts m.
Proof.
  intros Hm Hnd Hrange Hsum Hroot.
  rewrite (huffman_tree_cost HL m root Hm Hrange Hsum Hroot).
  set (comp := (λ p : ascii * Z, (p.2, ascii_bits p.1)) <$> m).
  assert (Hw : comp.*1 = m.*2).
  { unfold comp. rewrite <- list_fmap_compose. by apply list_fmap_ext. }
  assert (Hc : comp.*2 = ascii_bits <$> keys m).
  { unfold comp, keys. rewrite <- !list_fmap_compose. by apply list_fmap_ext. }
  rewrite <- code_cost_ascii_bits. fold comp. rewrite <- Hw.
  apply (greedy_cost_lower_bound (total_length (comp.*2)) comp).
  - lia.
  - unfold comp. by destruct m.
  - rewrite Hw. apply Forall_fmap. eapply Forall_impl; [exact Hrange |].
    by intros [c f] [? _].
  - rewrite Hc. by apply prefix_free_ascii_bits.
Qed.

(** X16: while no count wraps, the packed file has at most one byte more
    than the input. *)
Theorem compress_size_bound (text : std_string) :
  Z.of_nat (length text) + 1 < UINT_MODULUS →
  ∃ c, compress text = Some c ∧ (length (packed_file c) ≤ length text + 1)%nat.
Proof.
  intros Hlen.
  destruct (code_table_paths HL text) as (root & Hroot & Hproper & Hleaves & Hcodes).
  set (codes := paths root []) in *.
  assert (Hbits : Forall (λ p : ascii * std_string, is_bits p.2) codes).
  { unfold codes, paths. apply Forall_fmap. apply (leaf_records_bits root []). constructor. }
  eexists. split.
  { unfold compress, BuildHuffmanTree. rewrite Hcodes. cbn [mbind option_bind].
    rewrite (WriteEncodedStringToFile_bits _ (encode_bits codes text Hbits)).
    cbn [mbind option_bind]. reflexivity. }
  cbn [packed_file]. rewrite length_app, length_map, length_full_chunks. cbn [length].
  set (n := length (encode codes text)).
  enough (Hn : (n < 8 * (length text + 1))%nat).
  { pose proof (Nat.div_mod_eq n 8). lia. }
  pose proof (Hwl := weighted_length_count_frequencies (code_of codes) text Hlen).
  change (concat (map (code_of codes) text)) with (encode codes text) in Hwl.
  fold n in Hwl.
  pose proof (weighted_length_code_table _ root Hleaves (count_frequencies_NoDup text))
    as Hcost.
  fold codes in Hcost. rewrite Hcost in Hwl.
  pose proof (huffman_tree_cost_bound (count_frequencies text) root
                (count_frequencies_not_nil text) (count_frequencies_NoDup text)
                (counts_in_range_count_frequencies text)
                ltac:(rewrite sum_counts_count_frequencies by done; lia) Hroot) as Hbound.
  rewrite sum_counts_count_frequencies in Hbound by done.
  destruct root as [| c0 f0 l r]; [done |].
  destruct (is_null l && is_null r) eqn:Hleaf.
  - assert (n = 0%nat) as ->; [| lia].
    unfold n. rewrite encode_empty_words; [done |].
    unfold codes, paths. simpl. rewrite Hleaf.
    apply andb_true_iff in Hleaf as [->%is_null_true ->%is_null_true].
    simpl. by repeat constructor.
  - assert (Hnl : code_of codes ch_nl ≠ []).
    { unfold code_of.
      assert (Hin : ch_nl ∈ keys codes).
      { unfold codes. rewrite keys_paths. unfold keys. rewrite Hleaves.
        apply elem_of_keys_count_frequencies. by left. }
      destruct (umap_find ch_nl codes) as [w |] eqn:Hw;
        [| by apply umap_find_None in Hw].
      simpl. apply umap_find_Some_elem_of in Hw.
      by apply (paths_internal_nonempty c0 f0 l r ch_nl w Hleaf). }
    destruct (code_of codes ch_nl); [done |]. simpl length in Hwl. lia.
Qed.

End PackedSize.

Lemma compress_size_bound_witness :
  ∃ c, @compress insertion_order_lib (lit "aab") = Some c
    ∧ (length (packed_file c) ≤ length (lit "aab") + 1)%nat.
Proof. apply (compress_size_bound insertion_order_lib_spec (lit "aab")). reflexivity. Defined.

(** * What comes back from a compression *)

Lemma encode_app codes t1 t2 : encode codes (t1 ++ t2) = encode codes t1 ++ encode codes t2.
Proof. unfold encode. by rewrite map_app, concat_app. Qed.

Lemma paths_prefix_eq t str a pa b pb :
  (a, pa) ∈ paths t str → (b, pb) ∈ paths t str → pa `prefix_of` pb → a = b ∧ pa = pb.
Proof.
  intros [fa Ha]%elem_of_paths [fb Hb]%elem_of_paths Hp.
  pose proof (leaf_records_prefix t str _ _ Ha Hb Hp) as Heq. by inversion Heq.
Qed.

Lemma is_bits_prefix p w : p `prefix_of` w → is_bits w → is_bits p.
Proof. intros [k ->] Hw. by apply Forall_app in Hw as [? _]. Qed.

Section ComesBack.
Context {L : StdLib} (HL : StdLibSpec L).

(** The table read back from the code file of a compression decodes every
    symbol other than [':'], once a symbol other than the newline is in the
    input. *)
Lemma code_table_decodable text codes c0 :
  c0 ∈ text → c0 ≠ ch_nl → code_table text [] = Some codes →
  ∀ c, c ∈ text → c ≠ ch_colon →
    ∃ w, umap_find c codes = Some w ∧ w ≠ []
      ∧ read_code_table (write_code_file codes) !! w = Some c
      ∧ ∀ p, p `prefix_of` w → p ≠ w → p ≠ [] →
          read_code_table (write_code_file codes) !! p = None.
Proof.
  intros Hc0 Hnl Hct c Hc Hcolon.
  destruct (code_table_paths HL text) as (root & _ & Hproper & Hleaves & Hcodes).
  pose proof Hct as Hct'. rewrite Hcodes in Hct'. injection Hct' as Hpaths.
  assert (Hbits : Forall (λ p : ascii * std_string, is_bits p.2) codes).
  { rewrite <- Hpaths. unfold paths. apply Forall_fmap.
    apply (leaf_records_bits root []). constructor. }
  assert (Hin : c ∈ keys codes).
  { rewrite <- Hpaths, keys_paths. unfold keys. rewrite Hleaves.
    apply elem_of_keys_count_frequencies. by right. }
  destruct (umap_find c codes) as [w |] eqn:Hw; [| by apply umap_find_None in Hw].
  exists w. split; [done |].
  pose proof (umap_find_Some_elem_of _ _ _ Hw) as Hcw.
  assert (Hwb : is_bits w) by (rewrite Forall_forall in Hbits; apply (Hbits _ Hcw)).
  split; [by apply (code_words_nonempty HL text codes c0 Hc0 Hnl Hct c) |]. split.
  - apply (read_write_code_file_lookup HL); [done | done | done |].
    intros c' Hc'. rewrite <- Hpaths in Hcw, Hc'.
    by destruct (paths_prefix_eq _ _ _ _ _ _ Hc' Hcw ltac:(done)).
  - intros p Hp Hne _.
    destruct (read_code_table (write_code_file codes) !! p) as [x |] eqn:Hx; [| done].
    apply (read_write_code_file_bits HL) in Hx as [Hx _];
      [| done | by apply (is_bits_prefix p w)].
    rewrite <- Hpaths in Hcw, Hx.
    by destruct (paths_prefix_eq _ _ _ _ _ _ Hx Hcw Hp).
Qed.

(** X17: the start of the input comes back.  When the input holds a
    character other than the newline, every initial part of it without
    [':'] whose code words lie in the whole bytes of the packed file is
    the start of what decompression writes. *)
Theorem decompress_compress_prefix (text t1 t2 : std_string) (codes : umap std_string) :
  code_table text [] = Some codes →
  text = t1 ++ t2 → (∃ c0, c0 ∈ text ∧ c0 ≠ ch_nl) → ch_colon ∉ t1 →
  (length (encode codes t1) ≤ 8 * (length (encode codes text) / 8))%nat →
  ∃ c, compress text = Some c ∧ t1 `prefix_of` decompress c.
Proof.
  intros Hct Htext (c0 & Hc0 & Hnl) Hcolon Hfit.
  destruct (code_table_bits HL text) as (codes' & Hct' & Hbits).
  rewrite Hct in Hct'. injection Hct' as <-.
  eexists. split.
  { unfold compress, BuildHuffmanTree. rewrite Hct. cbn [mbind option_bind].
    rewrite (WriteEncodedStringToFile_bits _ (encode_bits codes text Hbits)).
    cbn [mbind option_bind]. reflexivity. }
  unfold decompress, DecodeFile, DecodeBinaryFile.
  cbn [packed_file huff_file].
  set (s := encode codes text) in *. set (k := (length s / 8)%nat) in *.
  pose proof (Nat.div_mod_eq (length s) 8) as Hdm. fold k in Hdm.
  rewrite unpack_app, unpack_full_chunks by (by apply encode_bits || lia).
  assert (Hs : s = encode codes t1 ++ encode codes t2).
  { unfold s. by rewrite Htext, encode_app. }
  rewrite Hs at 1. rewrite take_app_ge, <- app_assoc by done.
  rewrite (Decode_app_encode _ codes t1).
  - by apply prefix_app_r.
  - intros c Hc. apply (code_table_decodable text codes c0); try done.
    + rewrite Htext. apply elem_of_app. by left.
    + by intros ->.
Qed.

End ComesBack.

Lemma decompress_compress_prefix_witness :
  ∃ c, @compress insertion_order_lib (lit "abababababab") = Some c
    ∧ lit "ababababab" `prefix_of` decompress c.
Proof.
  apply (decompress_compress_prefix insertion_order_lib_spec
           (lit "abababababab") (lit "ababababab") (lit "ab")
           [("a"%char, lit "0"); (ch_nl, lit "10"); ("b"%char, lit "11")]).
  - reflexivity.
  - reflexivity.
  - exists "a"%char. split; [left | discriminate].
  - not_in_literal.
  - simpl. lia.
Defined.

(** * Counts on every input; inputs of newlines *)

(** X18: on every input the count of a character is its number of
    occurrences, plus one for the newline, reduced modulo [2^32]. *)
Theorem count_frequencies_modular (inputText : std_string) (c : ascii) :
  count_of c (count_frequencies inputText) =
    unsigned_wrap (occurrences c inputText + (if bool_decide (c = ch_nl) then 1 else 0)).
Proof.
  unfold count_frequencies. fold (count_all inputText []).
  rewrite count_of_increment, count_of_count_all by constructor.
  rewrite (count_of_count_all c) by constructor.
  change (count_of ?x []) with 0. rewrite !Z.add_0_l.
  case_bool_decide as H1; case_bool_decide as H2; try congruence.
  - subst c. apply unsigned_wrap_add_l.
  - by rewrite Z.add_0_r.
Qed.

Section Newlines.
Context {L : StdLib} (HL : StdLibSpec L).

(** X19: an input of newlines only, the empty one among them, is
    compressed to the code file of the one record [\n:] and the packed
    byte 0, and decompressed to the empty file. *)
Theorem compress_newlines (n : nat) :
  ∃ c, compress (repeat ch_nl n) = Some c
    ∧ huff_file c = [ch_backslash; ch_n; ch_colon; ch_nl]
    ∧ packed_file c = [0]
    ∧ decompress c = [].
Proof.
  destruct (count_frequencies_newlines n) as [v Hm].
  assert (Hct : code_table (repeat ch_nl n) [] = Some [(ch_nl, [])]).
  { unfold code_table, build_tree. by rewrite Hm, (huffman_tree_single HL). }
  assert (Henc : encode [(ch_nl, [])] (repeat ch_nl n) = []).
  { apply encode_empty_words. by repeat constructor. }
  exists (mk_compressed (write_code_file [(ch_nl, [])]) [0]).
  split; [| split; [| split]].
  - unfold compress, BuildHuffmanTree. rewrite Hct. cbn [mbind option_bind].
    by rewrite Henc.
  - cbn [huff_file]. unfold write_code_file. by rewrite (umap_iterate_single HL).
  - done.
  - unfold decompress, write_code_file. cbn [huff_file packed_file].
    by rewrite (umap_iterate_single HL).
Qed.

End Newlines.

Lemma compress_newlines_witness :
  ∃ c, @compress insertion_order_lib (repeat ch_nl 3) = Some c
    ∧ huff_file c = [ch_backslash; ch_n; ch_colon; ch_nl]
    ∧ packed_file c = [0]
    ∧ decompress c = [].
Proof. exact (compress_newlines insertion_order_lib_spec 3). Defined.

(** * More frequent symbols have shorter code words *)

Lemma count_of_absent c (m : umap Z) : c ∉ keys m → count_of c m = 0.
Proof. intros H. unfold count_of. by apply umap_find_None in H as ->. Qed.

(** The weighted length under a code changed at two symbols. *)
Lemma weighted_length_changed (m : umap Z) (code code' : ascii → std_string) a b :
  NoDup (keys m) → a ≠ b →
  (∀ c, c ≠ a → c ≠ b → code' c = code c) →
  weighted_length m code' =
    weighted_length m code
    + count_of a m * (Z.of_nat (length (code' a)) - Z.of_nat (length (code a)))
    + count_of b m * (Z.of_nat (length (code' b)) - Z.of_nat (length (code b))).
Proof.
  intros Hnd Hab Hsame. unfold keys in Hnd.
  induction m as [| [k v] m IH]; [unfold count_of; simpl; lia |].
  apply NoDup_cons in Hnd as [Hk Hnd]. rewrite !weighted_length_cons, IH by done.
  cbn [fst snd]. unfold count_of at 3 4. cbn [umap_find].
  destruct (decide (k = a)) as [-> | Hka]; [| destruct (decide (k = b)) as [-> | Hkb]].
  - rewrite bool_decide_true, bool_decide_false by done.
    rewrite (count_of_absent a m) by done. fold (count_of b m). simpl. lia.
  - rewrite bool_decide_false, bool_decide_true by done.
    rewrite (count_of_absent b m) by done. fold (count_of a m). simpl. lia.
  - rewrite !bool_decide_false by done. fold (count_of a m) (count_of b m).
    rewrite (Hsame k) by done. lia.
Qed.

Lemma code_cost_to_bools (m : umap Z) (code : ascii → std_string) :
  code_cost ((λ p : ascii * Z, (p.2, to_bools (code p.1))) <$> m) = weighted_length m code.
Proof.
  induction m as [| [c f] m IH]; [done |].
  rewrite fmap_cons, code_cost_cons, weighted_length_cons, IH. simpl.
  by rewrite length_to_bools.
Qed.

Section Frequent.
Context {L : StdLib} (HL : StdLibSpec L).

(** While no count wraps, no code of bit strings without a prefix among
    them costs less than the tree of the builder. *)
Lemma cost_minimal (m : umap Z) (root : TreeNodePtr) (code : ascii → std_string) :
  m ≠ [] → NoDup (keys m) → counts_in_range m → sum_counts m < UINT_MODULUS →
  huffman_tree m [] = Some root →
  (∀ c, c ∈ keys m → is_bits (code c)) →
  (∀ x y, x ∈ keys m → y ∈ keys m → x ≠ y → ¬ code x `prefix_of` code y) →
  cost root ≤ weighted_length m code.
Proof.
  intros Hm Hnd Hrange Hsum Hroot Hbits Hpf.
  rewrite (huffman_tree_cost HL m root Hm Hrange Hsum Hroot).
  set (comp := (λ p : ascii * Z, (p.2, to_bools (code p.1))) <$> m).
  assert (Hw : comp.*1 = m.*2).
  { unfold comp. rewrite <- list_fmap_compose. by apply list_fmap_ext. }
  rewrite <- code_cost_to_bools. fold comp. rewrite <- Hw.
  apply (greedy_cost_lower_bound (total_length (comp.*2)) comp).
  - lia.
  - unfold comp. by destruct m.
  - rewrite Hw. apply Forall_fmap. eapply Forall_impl; [exact Hrange |].
    by intros [c f] [? _].
  - by apply competitor_prefix_free.
Qed.

(** X20: while no count wraps, a symbol with a greater count than
    another has a code word that is no longer. *)
Theorem frequent_symbols_shorter (inputText : std_string) (codes : umap std_string)
    (a b : ascii) (ca cb : std_string) :
  Z.of_nat (length inputText) + 1 < UINT_MODULUS →
  code_table inputText [] = Some codes →
  umap_find a codes = Some ca → umap_find b codes = Some cb →
  count_of b (count_frequencies inputText) < count_of a (count_frequencies inputText) →
  (length ca ≤ length cb)%nat.
Proof.
  intros Hlen Hct Ha Hb Hfreq.
  destruct (code_table_paths HL inputText) as (root & Hroot & Hproper & Hleaves & Hcodes).
  rewrite Hct in Hcodes. injection Hcodes as ->.
  set (m := count_frequencies inputText) in *.
  set (codes := paths root []) in *.
  assert (Hnd : NoDup (keys m)) by apply count_frequencies_NoDup.
  assert (Hab : a ≠ b) by (intros ->; lia).
  assert (Hkeys : ∀ c, c ∈ keys m ↔ c ∈ keys codes).
  { intros c. unfold codes. rewrite keys_paths. unfold keys. by rewrite Hleaves. }
  assert (Hbits : ∀ c, is_bits (code_of codes c)).
  { intros c. unfold code_of. destruct (umap_find c codes) as [w |] eqn:Hw; [| constructor].
    apply umap_find_Some_elem_of, elem_of_paths in Hw as [f Hw].
    pose proof (leaf_records_bits root [] ltac:(constructor)) as Hall.
    rewrite Forall_forall in Hall. apply (Hall _ Hw). }
  assert (Hfind : ∀ c, c ∈ keys m → (c, code_of codes c) ∈ codes).
  { intros c Hc%Hkeys. unfold code_of.
    destruct (umap_find c codes) as [w |] eqn:Hw; [| by apply umap_find_None in Hw].
    by apply umap_find_Some_elem_of. }
  destruct (decide (length ca ≤ length cb)%nat) as [| Hlonger]; [done | exfalso].
  set (swap := λ x : ascii, if decide (x = a) then b else if decide (x = b) then a else x).
  set (code' := λ x : ascii, code_of codes (swap x)).
  assert (Hina : a ∈ keys m) by (apply Hkeys; apply umap_find_None_not; congruence).
  assert (Hinb : b ∈ keys m) by (apply Hkeys; apply umap_find_None_not; congruence).
  assert (Hswap_in : ∀ x, x ∈ keys m → swap x ∈ keys m).
  { intros x Hx. unfold swap. repeat case_decide; done. }
  assert (Hswap_inj : ∀ x y, swap x = swap y → x = y).
  { intros x y. unfold swap. repeat case_decide; congruence. }
  pose proof (cost_minimal m root code' (count_frequencies_not_nil inputText) Hnd
                (counts_in_range_count_frequencies inputText)
                ltac:(unfold m; rewrite sum_counts_count_frequencies by done; lia) Hroot)
    as Hmin.
  assert (Hcost : cost root ≤ weighted_length m code').
  { apply Hmin.
    - intros c _. apply Hbits.
    - intros x y Hx Hy Hxy Hp.
      destruct (paths_prefix_eq root [] _ _ _ _
                  (Hfind _ (Hswap_in x Hx)) (Hfind _ (Hswap_in y Hy)) Hp) as [Heq _].
      by apply Hswap_inj in Heq. }
  rewrite <- (weighted_length_code_table m root Hleaves Hnd) in Hcost. fold codes in Hcost.
  rewrite (weighted_length_changed m (code_of codes) code' a b Hnd Hab) in Hcost.
  - assert (Hca : code_of codes a = ca) by (unfold code_of; by rewrite Ha).
    assert (Hcb : code_of codes b = cb) by (unfold code_of; by rewrite Hb).
    assert (Hca' : code' a = cb).
    { unfold code', swap. by rewrite decide_True. }
    assert (Hcb' : code' b = ca).
    { unfold code', swap. rewrite decide_False by done. by rewrite decide_True. }
    rewrite Hca, Hcb, Hca', Hcb' in Hcost. nia.
  - intros c Hca Hcb. unfold code', swap. by rewrite !decide_False.
Qed.

End Frequent.

Lemma frequent_symbols_shorter_witness :
  (length (lit "0") ≤ length (lit "10"))%nat.
Proof.
  apply (frequent_symbols_shorter insertion_order_lib_spec (lit "aab")
           [("a"%char, lit "0"); ("b"%char, lit "10"); (ch_nl, lit "11")]
           "a"%char "b"%char (lit "0") (lit "10")); reflexivity.
Defined.

(** * The program *)






Lemma disk_finish fs sizes : disk (finish fs sizes) = fs.
Proof. by destruct sizes. Qed.



Section ProgramRuns.
Context {L : StdLib} (HL : StdLibSpec L).
Context (readable writable : std_string → bool).

Lemma lookup_ofstream_write name content fs f :
  ofstream_write writable name content fs !! f =
    if bool_decide (f = name) && writable name then Some content else fs !! f.
Proof.
  unfold ofstream_write. case_bool_decide as Hf; destruct (writable name); simpl; try done.
  - subst f. apply lookup_insert_eq.
  - by apply lookup_insert_ne.
Qed.





End ProgramRuns.


Section Runs.
Context {L : StdLib}.
Context (readable writable : std_string → bool).

(** X22: a run changes no file other than the output file and, when it
    compresses, the [.huff] file beside it. *)
Theorem main_writes_only_outputs (argv : list std_string) (fs : files) (r : run)
    (f : std_string) :
  main readable writable argv fs = Some r →
  argv !! 3%nat ≠ Some f →
  (argv !! 1%nat = Some (lit "c") →
     ∀ outputFileName, argv !! 3%nat = Some outputFileName →
       f ≠ outputFileName ++ lit ".huff") →
  disk r !! f = fs !! f.
Proof.
  intros Hmain Hout Hhuff.
  destruct argv as [| p [| action [| inputFileName [| outputFileName [| extra argv]]]]];
    try (injection Hmain as <-; reflexivity).
  cbn [main] in Hmain.
  assert (Hf : f ≠ outputFileName) by (intros ->; by apply Hout).
  case_bool_decide as Hc; [| case_bool_decide as Hd].
  - subst action. unfold BuildHuffmanTree_files in Hmain.
    destruct (BuildHuffmanTree _ []) as [c |]; [| done].
    cbn [mbind option_bind] in Hmain. injection Hmain as <-.
    rewrite disk_finish, !lookup_ofstream_write.
    rewrite !bool_decide_false; [done | | done].
    by apply (Hhuff eq_refl outputFileName).
  - injection Hmain as <-. rewrite disk_finish. unfold DecodeFile_files.
    rewrite !lookup_ofstream_write. by rewrite !bool_decide_false.
  - by injection Hmain as <-.
Qed.


End Runs.

Lemma main_writes_only_outputs_witness :
  disk (mk_run (returned 0)
          (<[lit "o" := []]> ({[ lit "i" := []; lit "k" := lit "kept" ]} : files))
          (Some (0, 0))) !! lit "k"
    = ({[ lit "i" := []; lit "k" := lit "kept" ]} : files) !! lit "k".
Proof.
  apply (@main_writes_only_outputs insertion_order_lib (λ _, true) (λ _, true)
           [lit "huffman"; lit "d"; lit "i"; lit "o"]
           {[ lit "i" := []; lit "k" := lit "kept" ]}
           (mk_run (returned 0)
              (<[lit "o" := []]> ({[ lit "i" := []; lit "k" := lit "kept" ]} : files))
              (Some (0, 0)))
           (lit "k")).
  - vm_compute. reflexivity.
  - discriminate.
  - discriminate.
Defined.


Section Chain.
Context {L : StdLib} (HL : StdLibSpec L).
Context (readable writable : std_string → bool).


(** X25: decompression without its code file: when the [.huff] file beside
    the packed file does not exist, the table is empty, and an output file
    that can be opened for writing is written empty, whatever the packed
    file holds. *)
Theorem main_decompress_without_code_file (p inputFileName outputFileName : std_string)
    (fs : files) :
  fs !! (inputFileName ++ lit ".huff") = None →
  writable outputFileName = true →
  ∃ r, main readable writable [p; lit "d"; inputFileName; outputFileName] fs = Some r
    ∧ disk r !! outputFileName = Some [].
Proof.
  intros Hmissing Hw. eexists. split.
  { cbn [main]. rewrite bool_decide_false by discriminate.
    rewrite bool_decide_true by done. reflexivity. }
  rewrite disk_finish. unfold DecodeFile_files.
  rewrite lookup_ofstream_write, bool_decide_true, Hw by done. cbn [andb]. f_equal.
  assert (Hcode : ifstream_content readable fs (inputFileName ++ lit ".huff") = []).
  { unfold ifstream_content. rewrite Hmissing. by destruct (readable _). }
  rewrite Hcode. unfold DecodeFile, DecodeBinaryFile, Decode.
  change (read_code_table []) with (∅ : gmap std_string ascii).
  destruct (Decode_loop ∅ [] _).1 as [| c out] eqn:Hout; [done |].
  assert (Hin : c ∈ (Decode_loop ∅ [] (unpack (to_unsigned_char <$>
                  ifstream_content readable
                    (ofstream_write writable outputFileName [] fs) inputFileName))).1)
    by (rewrite Hout; left).
  by apply Decode_loop_occurrences in Hin as (_ & w & _ & _ & _ & Hw').
Qed.

End Chain.


Lemma main_decompress_without_code_file_witness :
  ∃ r, @main insertion_order_lib (λ _, true) (λ _, true)
         [lit "huffman"; lit "d"; lit "packed"; lit "out"]
         {[ lit "packed" := lit "A" ]} = Some r
    ∧ disk r !! lit "out" = Some [].
Proof.
  apply (@main_decompress_without_code_file insertion_order_lib (λ _, true) (λ _, true)
           (lit "huffman") (lit "packed") (lit "out") {[ lit "packed" := lit "A" ]});
    reflexivity.
Defined.

(** * Optimality of the generated code *)

Section OptimalCode.
Context {L : StdLib} (HL : StdLibSpec L).

(** C6, while no sum of counts wraps: the builder returns a tree whose
    leaves are the entries of the table; the code generated from it gives
    every symbol of the table a word, a non-empty string of bits, and no
    word of it is a prefix of another symbol's; and the weighted path
    length of this code (the sum over the symbols of count times code word
    length) is at most that of any assignment of bit strings to the
    symbols in which no symbol's word is a prefix of another's. *)
Theorem huffman_tree_optimal (m : umap Z) (code : ascii → std_string) :
  (2 ≤ length m)%nat → NoDup (keys m) → counts_in_range m →
  sum_counts m < UINT_MODULUS →
  (∀ c, c ∈ keys m → is_bits (code c)) →
  (∀ a b, a ∈ keys m → b ∈ keys m → a ≠ b → ¬ code a `prefix_of` code b) →
  ∃ root, huffman_tree m [] = Some root
    ∧ leaves root ≡ₚ m
    ∧ (∀ c, c ∈ keys m →
         ∃ w, umap_find c (GenerateHuffmanCodes root [] []) = Some w
           ∧ is_bits w ∧ w ≠ [])
    ∧ (∀ a b ca cb, a ≠ b →
         umap_find a (GenerateHuffmanCodes root [] []) = Some ca →
         umap_find b (GenerateHuffmanCodes root [] []) = Some cb →
         ¬ ca `prefix_of` cb)
    ∧ weighted_length m (code_of (GenerateHuffmanCodes root [] []))
        ≤ weighted_length m code.
Proof.
  intros Hlen Hnd Hrange Hsum Hbits Hpf.
  assert (Hm : m ≠ []) by (intros ->; simpl in Hlen; lia).
  destruct (huffman_tree_leaves HL m Hm) as (root & Hroot & Hproper & Hleaves).
  exists root. split; [done |]. split; [done |].
  assert (Hndl : NoDup (keys (leaves root))) by (unfold keys; by rewrite Hleaves).
  assert (Hcodes : GenerateHuffmanCodes root [] [] = paths root []).
  { rewrite GenerateHuffmanCodes_paths, set_codes_NoDup; [done |].
    simpl. by rewrite keys_paths. }
  rewrite Hcodes. split; [| split].
  - intros c Hc.
    assert (Hin : c ∈ keys (paths root [])).
    { rewrite keys_paths. unfold keys. by rewrite Hleaves. }
    destruct (umap_find c (paths root [])) as [w |] eqn:Hw;
      [| by apply umap_find_None in Hw].
    exists w. split; [done |].
    apply umap_find_Some_elem_of in Hw. split.
    + apply elem_of_paths in Hw as [f Hw].
      pose proof (leaf_records_bits root [] ltac:(constructor)) as Hall.
      rewrite Forall_forall in Hall. apply (Hall _ Hw).
    + destruct root as [| c0 f0 l r]; [done |].
      apply (paths_internal_nonempty c0 f0 l r c w); [| done].
      destruct (is_null l && is_null r) eqn:Hleaf; [| done].
      apply andb_true_iff in Hleaf as [->%is_null_true ->%is_null_true].
      apply Permutation_length in Hleaves. simpl in Hleaves. lia.
  - intros a b ca cb Hab Ha%umap_find_Some_elem_of Hb%umap_find_Some_elem_of Hp.
    by destruct (paths_prefix_eq root [] _ _ _ _ Ha Hb Hp).
  - rewrite (weighted_length_code_table m root Hleaves Hnd).
    by apply (cost_minimal HL m root code).
Qed.

End OptimalCode.

Lemma huffman_tree_optimal_witness :
  ∃ root, @huffman_tree insertion_order_lib (count_frequencies (lit "aab")) [] = Some root
    ∧ leaves root ≡ₚ count_frequencies (lit "aab")
    ∧ (∀ c, c ∈ keys (count_frequencies (lit "aab")) →
         ∃ w, umap_find c (GenerateHuffmanCodes root [] []) = Some w
           ∧ is_bits w ∧ w ≠ [])
    ∧ (∀ a b ca cb, a ≠ b →
         umap_find a (GenerateHuffmanCodes root [] []) = Some ca →
         umap_find b (GenerateHuffmanCodes root [] []) = Some cb →
         ¬ ca `prefix_of` cb)
    ∧ weighted_length (count_frequencies (lit "aab"))
        (code_of (GenerateHuffmanCodes root [] []))
      ≤ weighted_length (count_frequencies (lit "aab"))
          (code_of [("a"%char, lit "11"); ("b"%char, lit "0"); (ch_nl, lit "10")]).
Proof.
  apply (huffman_tree_optimal insertion_order_lib_spec (count_frequencies (lit "aab"))
           (code_of [("a"%char, lit "11"); ("b"%char, lit "0"); (ch_nl, lit "10")])).
  - simpl. lia.
  - apply count_frequencies_NoDup.
  - apply counts_in_range_increment, counts_in_range_count_all. constructor.
  - reflexivity.
  - intros c _. apply code_of_is_bits. reflexivity.
  - apply prefix_free_check. reflexivity.
Defined.

(** ** The counts of the wrapping input *)

Lemma umap_update_last {V} k (f : option V → V) (m : umap V) v :
  k ∉ keys m → umap_update k f (m ++ [(k, v)]) = m ++ [(k, f (Some v))].
Proof.
  unfold keys. induction m as [| [k0 v0] m IH]; intros Hk.
  - simpl. by rewrite bool_decide_true.
  - rewrite fmap_cons, not_elem_of_cons in Hk. destruct Hk as [Hne Hk].
    cbn [app umap_update]. rewrite bool_decide_false by done. by rewrite IH.
Qed.

Lemma count_all_repeat_last a m : ∀ n v,
  a ∉ keys m → 0 ≤ v < UINT_MODULUS →
  count_all (repeat a n) (m ++ [(a, v)]) = m ++ [(a, unsigned_wrap (v + Z.of_nat n))].
Proof.
  induction n as [| n IH]; intros v Ha Hv.
  - cbn [repeat count_all fold_left]. by rewrite Z.add_0_r, unsigned_wrap_small.
  - change (count_all (repeat a (S n)) ?x) with (count_all (repeat a n) (increment a x)).
    unfold increment. rewrite umap_update_last by done. cbn [default]. unfold id.
    rewrite IH by (done || apply unsigned_wrap_range).
    rewrite unsigned_wrap_add_l.
    by replace (v + Z.of_nat (S n)) with (v + 1 + Z.of_nat n) by lia.
Qed.

(** Counting a run of a character that has no entry yet. *)
Lemma count_all_repeat_new a m n :
  a ∉ keys m → (0 < n)%nat →
  count_all (repeat a n) m = m ++ [(a, unsigned_wrap (Z.of_nat n))].
Proof.
  intros Ha Hn. destruct n as [| n]; [lia |].
  change (count_all (repeat a (S n)) m) with (count_all (repeat a n) (increment a m)).
  unfold increment. rewrite umap_update_absent by done. cbn [default]. unfold id.
  rewrite count_all_repeat_last by (done || apply unsigned_wrap_range).
  rewrite unsigned_wrap_add_l.
  by replace (Z.of_nat (S n)) with (0 + 1 + Z.of_nat n) by lia.
Qed.

Lemma count_all_app t1 t2 m : count_all (t1 ++ t2) m = count_all t2 (count_all t1 m).
Proof. unfold count_all. apply fold_left_app. Qed.

Lemma not_elem_of_keys_cons {V} k k0 (v0 : V) m :
  k ≠ k0 → k ∉ keys m → k ∉ keys ((k0, v0) :: m).
Proof. intros Hne Hk. unfold keys in *. rewrite fmap_cons, not_elem_of_cons. done. Qed.

(** The frequency map of an input of four runs: three letters, then
    newlines. *)
Lemma count_frequencies_runs (a b c : ascii) (n1 n2 n3 n4 : nat) :
  a ≠ b → a ≠ c → b ≠ c → a ≠ ch_nl → b ≠ ch_nl → c ≠ ch_nl →
  (0 < n1)%nat → (0 < n2)%nat → (0 < n3)%nat → (0 < n4)%nat →
  count_frequencies (repeat a n1 ++ repeat b n2 ++ repeat c n3 ++ repeat ch_nl n4) =
    [(a, unsigned_wrap (Z.of_nat n1)); (b, unsigned_wrap (Z.of_nat n2));
     (c, unsigned_wrap (Z.of_nat n3));
     (ch_nl, unsigned_wrap (unsigned_wrap (Z.of_nat n4) + 1))].
Proof.
  intros Hab Hac Hbc Ha Hb Hc H1 H2 H3 H4.
  unfold count_frequencies.
  fold (count_all (repeat a n1 ++ repeat b n2 ++ repeat c n3 ++ repeat ch_nl n4) []).
  rewrite !count_all_app.
  rewrite (count_all_repeat_new a []) by (apply not_elem_of_nil || done). cbn [app].
  rewrite (count_all_repeat_new b) by
    (done || (apply not_elem_of_keys_cons; [done | apply not_elem_of_nil])).
  cbn [app].
  rewrite (count_all_repeat_new c) by
    (done || (repeat (apply not_elem_of_keys_cons; [done |]); apply not_elem_of_nil)).
  cbn [app].
  rewrite (count_all_repeat_new ch_nl) by
    (done || (repeat (apply not_elem_of_keys_cons; [done |]); apply not_elem_of_nil)).
  cbn [app]. unfold increment. cbn [umap_update].
  rewrite !bool_decide_false by done. rewrite bool_decide_true by done. reflexivity.
Qed.

Lemma count_frequencies_wrapping_input :
  count_frequencies wrapping_input =
    [("a"%char, 2147483648); ("b"%char, 2147483648);
     ("c"%char, 2147483653); (ch_nl, 2147483653)].
Proof.
  unfold wrapping_input.
  rewrite count_frequencies_runs;
    [| discriminate | discriminate | discriminate | discriminate | discriminate
     | discriminate
     | by apply (Z2Nat.inj_lt 0) | by apply (Z2Nat.inj_lt 0)
     | by apply (Z2Nat.inj_lt 0) | by apply (Z2Nat.inj_lt 0)].
  rewrite !Z2Nat.id by done. reflexivity.
Qed.

(** C6 fails once a sum of counts wraps, here on the input of [2^31]
    letters [a], [2^31] letters [b], [2^31 + 5] letters [c] and [2^31 + 4]
    newlines, whose table has the counts [2^31], [2^31], [2^31 + 5] and,
    with the newline that [BuildHuffmanTree] adds, [2^31 + 5]: the first
    merge gets the frequency [2^32 mod 2^32 = 0] and is merged again at
    once, so the words have the lengths 3, 3, 2, 1 and the code costs more
    than the prefix code of four two-bit words. *)
Lemma huffman_tree_wrapped_not_optimal :
  count_frequencies wrapping_input =
    [("a"%char, 2147483648); ("b"%char, 2147483648);
     ("c"%char, 2147483653); (ch_nl, 2147483653)]
  ∧ (2 ≤ length (count_frequencies wrapping_input))%nat
  ∧ NoDup (keys (count_frequencies wrapping_input))
  ∧ counts_in_range (count_frequencies wrapping_input)
  ∧ UINT_MODULUS ≤ sum_counts (count_frequencies wrapping_input)
  ∧ ∃ root,
      @huffman_tree insertion_order_lib (count_frequencies wrapping_input) [] = Some root
      ∧ GenerateHuffmanCodes root [] [] =
          [(ch_nl, lit "0"); ("a"%char, lit "100"); ("b"%char, lit "101");
           ("c"%char, lit "11")]
      ∧ weighted_length (count_frequencies wrapping_input)
          (code_of [("a"%char, lit "00"); ("b"%char, lit "01");
                    ("c"%char, lit "10"); (ch_nl, lit "11")])
        < weighted_length (count_frequencies wrapping_input)
            (code_of (GenerateHuffmanCodes root [] []))
      ∧ (∀ x, x ∈ keys (count_frequencies wrapping_input) →
           is_bits (code_of [("a"%char, lit "00"); ("b"%char, lit "01");
                             ("c"%char, lit "10"); (ch_nl, lit "11")] x))
      ∧ ∀ x y, x ∈ keys (count_frequencies wrapping_input) →
          y ∈ keys (count_frequencies wrapping_input) → x ≠ y →
          ¬ code_of [("a"%char, lit "00"); ("b"%char, lit "01");
                     ("c"%char, lit "10"); (ch_nl, lit "11")] x
            `prefix_of`
            code_of [("a"%char, lit "00"); ("b"%char, lit "01");
                     ("c"%char, lit "10"); (ch_nl, lit "11")] y.
Proof.
  rewrite count_frequencies_wrapping_input.
  split; [done |]. split; [simpl; lia |].
  split; [by apply (bool_decide_unpack _) |].
  split; [repeat constructor; simpl; done |]. split; [by vm_compute |].
  eexists. split; [vm_compute; reflexivity |]. split; [reflexivity |].
  split; [reflexivity |]. split.
  - intros x _. apply code_of_is_bits. reflexivity.
  - apply prefix_free_check. reflexivity.
Qed.

(** * Determinism across libraries *)

Lemma no_ties_fuel_perm fuel (l1 l2 : list Z) :
  l1 ≡ₚ l2 → no_ties_fuel fuel l1 → no_ties_fuel fuel l2.
Proof.
  intros Hp. destruct fuel as [| fuel]; [done |].
  cbn [no_ties_fuel]. by rewrite (merge_sort_perm_eq l1 l2 Hp).
Qed.

(** A round on a queue without a tie: what the two least frequencies
    are. *)
Lemma no_ties_fuel_round fuel (q : list TreeNodePtr) x y rest :
  q ≡ₚ x :: y :: rest →
  (∀ z, z ∈ y :: rest → frequency_of x ≤ frequency_of z) →
  (∀ z, z ∈ rest → frequency_of y ≤ frequency_of z) →
  no_ties_fuel (S fuel) (frequency_of <$> q) →
  frequency_of x < frequency_of y
  ∧ (∀ z, z ∈ rest → frequency_of y < frequency_of z)
  ∧ no_ties_fuel fuel (frequency_of <$> (merge_nodes x y :: rest)).
Proof.
  intros Hq Hx Hy Hno.
  apply (no_ties_fuel_perm _ _ (frequency_of <$> (x :: y :: rest))) in Hno;
    [| by rewrite Hq].
  cbn [no_ties_fuel] in Hno. rewrite !fmap_cons in Hno.
  rewrite merge_sort_two_least in Hno.
  - destruct Hno as (Hxy & Hrest & Hnext). split; [done |]. split.
    + intros z Hz. rewrite merge_sort_Permutation in Hrest.
      rewrite Forall_forall in Hrest. apply Hrest.
      apply list_elem_of_fmap. by exists z.
    + eapply no_ties_fuel_perm; [| exact Hnext].
      rewrite fmap_cons. apply Permutation_skip. by rewrite merge_sort_Permutation.
  - apply Hx. left.
  - apply Forall_fmap, Forall_forall. intros z Hz. by apply Hy.
Qed.

Section TwoLibraries.
Context (L1 L2 : StdLib) (HL1 : StdLibSpec L1) (HL2 : StdLibSpec L2).

(** Without a tie, two libraries merge the same two trees in every
    round. *)
Lemma merge_loop_no_ties : ∀ fuel q1 q2,
  @is_heap q1 → @is_heap q2 → q1 ≡ₚ q2 →
  length q1 = fuel → (1 ≤ fuel)%nat →
  no_ties_fuel fuel (frequency_of <$> q1) →
  ∃ root, @merge_loop L1 fuel q1 = Some [root] ∧ @merge_loop L2 fuel q2 = Some [root].
Proof.
  induction fuel as [| fuel IH]; intros q1 q2 Hh1 Hh2 Hp Hlen Hpos Hno; [lia |].
  pose proof (Permutation_length Hp) as Hlen2.
  destruct (decide (fuel = 0)%nat) as [-> | Hfuel].
  { destruct q1 as [| r [| ? ?]]; simpl in Hlen; try lia.
    apply Permutation_singleton_l in Hp. subst q2. exists r. split; reflexivity. }
  destruct (merge_loop_round HL1 fuel q1 Hh1 ltac:(lia))
    as (x1 & y1 & rest1 & q1' & Heq1 & Hh1' & Hq1 & Hq1' & Hx1 & Hy1).
  destruct (merge_loop_round HL2 fuel q2 Hh2 ltac:(lia))
    as (x2 & y2 & rest2 & q2' & Heq2 & Hh2' & Hq2 & Hq2' & Hx2 & Hy2).
  destruct (no_ties_fuel_round fuel q1 x1 y1 rest1 Hq1 Hx1 Hy1 Hno)
    as (Hxy & Hrest & Hnext).
  assert (Hall : x2 :: y2 :: rest2 ≡ₚ x1 :: y1 :: rest1) by (by rewrite <- Hq2, <- Hp).
  assert (x2 = x1) as ->.
  { assert (Hin : x2 ∈ x1 :: y1 :: rest1) by (rewrite <- Hall; left).
    apply elem_of_cons in Hin as [-> | Hin]; [done | exfalso].
    assert (Hin1 : x1 ∈ x2 :: y2 :: rest2) by (rewrite Hall; left).
    apply elem_of_cons in Hin1 as [-> | Hin1]; [| apply Hx2 in Hin1].
    - apply elem_of_cons in Hin as [-> | Hin]; [lia | apply Hrest in Hin; lia].
    - apply elem_of_cons in Hin as [-> | Hin]; [lia | apply Hrest in Hin; lia]. }
  apply Permutation.Permutation_cons_inv in Hall.
  assert (y2 = y1) as ->.
  { assert (Hin : y2 ∈ y1 :: rest1) by (rewrite <- Hall; left).
    apply elem_of_cons in Hin as [-> | Hin]; [done | exfalso].
    assert (Hin1 : y1 ∈ y2 :: rest2) by (rewrite Hall; left).
    apply elem_of_cons in Hin1 as [-> | Hin1]; [| apply Hy2 in Hin1].
    - apply Hrest in Hin. lia.
    - apply Hrest in Hin. lia. }
  apply Permutation.Permutation_cons_inv in Hall.
  rewrite Heq1, Heq2. apply IH; try done.
  - by rewrite Hq1', Hq2', Hall.
  - apply Permutation_length in Hq1, Hq1'. simpl in *. lia.
  - lia.
  - eapply no_ties_fuel_perm; [| exact Hnext]. by rewrite Hq1'.
Qed.

Lemma huffman_tree_no_ties (m : umap Z) :
  m ≠ [] → no_ties m →
  ∃ root, @huffman_tree L1 m [] = Some root ∧ @huffman_tree L2 m [] = Some root.
Proof.
  intros Hm Hno. unfold huffman_tree.
  destruct (push_leaves_spec HL1 m [] is_heap_nil) as [Hh1 Hp1].
  destruct (push_leaves_spec HL2 m [] is_heap_nil) as [Hh2 Hp2].
  simpl in Hp1, Hp2.
  assert (Hlen1 : length (@push_leaves L1 m []) = length m).
  { by rewrite Hp1, length_fmap. }
  assert (Hlen2 : length (@push_leaves L2 m []) = length m).
  { by rewrite Hp2, length_fmap. }
  rewrite Hlen1, Hlen2.
  destruct (merge_loop_no_ties (length m) (@push_leaves L1 m []) (@push_leaves L2 m []))
    as (root & -> & ->); try done.
  - by rewrite Hp1, Hp2.
  - destruct m; [done | simpl; lia].
  - eapply no_ties_fuel_perm; [| exact Hno]. rewrite Hp1.
    assert (Hw : frequency_of <$> ((λ pair : ascii * Z, new_TreeNode pair.1 pair.2) <$> m)
                 = m.*2).
    { rewrite <- list_fmap_compose. by apply list_fmap_ext. }
    by rewrite Hw.
  - by exists root.
Qed.

End TwoLibraries.

Lemma code_record_code_line pair : code_record pair = code_line pair ++ [ch_nl].
Proof. unfold code_record, code_line. by rewrite <- !app_assoc. Qed.

Lemma code_line_no_newline pair : ch_nl ∉ pair.2 → ch_nl ∉ code_line pair.
Proof.
  intros Hw. unfold code_line. rewrite !not_elem_of_app. split; [| split; [| done]].
  - case_bool_decide as Hc.
    + rewrite !not_elem_of_cons. repeat split; try discriminate. apply not_elem_of_nil.
    + rewrite not_elem_of_cons. split; [congruence | apply not_elem_of_nil].
  - rewrite not_elem_of_cons. split; [discriminate | apply not_elem_of_nil].
Qed.

(** The lines of a code file are the records of the entries, in the order
    in which they were written. *)
Lemma getlines_code_records (pairs : list (ascii * std_string)) :
  Forall (λ p : ascii * std_string, ch_nl ∉ p.2) pairs →
  getlines [] (concat (map code_record pairs)) = code_line <$> pairs.
Proof.
  induction 1 as [| p pairs Hp _ IH]; [done |].
  cbn [map concat]. rewrite code_record_code_line, <- app_assoc. cbn [app].
  rewrite getlines_line by (by apply code_line_no_newline).
  rewrite fmap_cons, IH. reflexivity.
Qed.

(** Entries of which no two have a key in common give the same table in
    every order. *)
Lemma insert_all_Permutation entries1 entries2 T :
  (∀ k v v', (k, v) ∈ entries1 → (k, v') ∈ entries1 → v = v') →
  entries1 ≡ₚ entries2 →
  insert_all entries1 T = insert_all entries2 T.
Proof.
  intros Hfun Hp. apply map_eq. intros k.
  destruct (decide (k ∈ entries1.*1)) as [Hin | Hout].
  - apply list_elem_of_fmap in Hin as ([k' v] & -> & Hin). cbn [fst].
    rewrite (insert_all_lookup entries1 T k' v), (insert_all_lookup entries2 T k' v);
      [done | by rewrite <- Hp | | done |].
    + intros [k2 v2] Hin2 Hk. simpl in *. subst k2. rewrite <- Hp in Hin2.
      by apply (Hfun k').
    + intros [k2 v2] Hin2 Hk. simpl in *. subst k2. by apply (Hfun k').
  - rewrite !insert_all_lookup_ne; [done | |].
    + intros e He Hk. apply Hout. apply list_elem_of_fmap. exists e.
      split; [done | by rewrite Hp].
    + intros e He Hk. apply Hout. apply list_elem_of_fmap. by exists e.
Qed.

(** No two entries read back from the code file of a tree have a key in
    common. *)
Lemma read_back_paths_functional root k v v' :
  (k, v) ∈ read_back <$> paths root [] → (k, v') ∈ read_back <$> paths root [] → v = v'.
Proof.
  intros [[c w] [Heq Hin]]%list_elem_of_fmap [[c' w'] [Heq' Hin']]%list_elem_of_fmap.
  assert (Hbits : ∀ c w, (c, w) ∈ paths root [] → is_bits w).
  { intros c0 w0 [f Hw]%elem_of_paths.
    pose proof (leaf_records_bits root [] ltac:(constructor)) as Hall.
    rewrite Forall_forall in Hall. apply (Hall _ Hw). }
  pose proof (Hbits _ _ Hin) as Hw. pose proof (Hbits _ _ Hin') as Hw'.
  unfold read_back in Heq, Heq'. cbn [fst snd] in Heq, Heq'.
  case_bool_decide as Hc; case_bool_decide as Hc'; inversion Heq; inversion Heq'; subst;
    try done;
    try (exfalso;
         match goal with
         | H : is_bits (ch_colon :: _) |- _ => apply (is_bits_no_colon _ H); left
         end).
  by destruct (paths_prefix_eq root [] _ _ _ _ Hin Hin' ltac:(done)).
Qed.

Section WithoutTies.
Context (L1 L2 : StdLib) (HL1 : StdLibSpec L1) (HL2 : StdLibSpec L2).

(** C9, on the inputs on which no two nodes tie: under every two standard
    libraries that keep the standard's promises, whatever the order in
    which their unordered maps are enumerated and whatever the layout of
    their heaps, the compression returns, with the same code table and the
    same packed bytes; the two code files hold the same records, up to
    their order, are read back as the same table, and the two results
    decompress to the same text. *)
Theorem compress_without_ties (text : std_string) :
  no_ties (count_frequencies text) →
  ∃ codes c1 c2,
    @code_table L1 text [] = Some codes ∧ @code_table L2 text [] = Some codes
    ∧ @compress L1 text = Some c1 ∧ @compress L2 text = Some c2
    ∧ packed_file c1 = packed_file c2
    ∧ getlines [] (huff_file c1) ≡ₚ getlines [] (huff_file c2)
    ∧ read_code_table (huff_file c1) = read_code_table (huff_file c2)
    ∧ decompress c1 = decompress c2.
Proof.
  intros Hno.
  destruct (huffman_tree_no_ties L1 L2 HL1 HL2 (count_frequencies text)
              (count_frequencies_not_nil text) Hno) as (root & Hroot1 & Hroot2).
  destruct (code_table_paths HL1 text) as (root' & Hroot' & _ & _ & Hct1).
  unfold build_tree in Hroot'. rewrite Hroot1 in Hroot'. injection Hroot' as <-.
  assert (Hct2 : @code_table L2 text [] = Some (paths root [])).
  { rewrite <- Hct1. unfold code_table, build_tree. by rewrite Hroot1, Hroot2. }
  set (codes := paths root []) in *.
  assert (Hbits : Forall (λ p : ascii * std_string, is_bits p.2) codes).
  { unfold codes, paths. apply Forall_fmap. apply (leaf_records_bits root []). constructor. }
  assert (Hnl : ∀ l : list (ascii * std_string), l ≡ₚ codes →
            Forall (λ p : ascii * std_string, ch_nl ∉ p.2) l).
  { intros l ->. eapply Forall_impl; [exact Hbits |]. intros p. apply is_bits_no_newline. }
  destruct (WriteEncodedStringToFile_total (encode codes text)) as [packed Hpacked].
  assert (Htable : read_code_table (@write_code_file L1 codes)
                   = read_code_table (@write_code_file L2 codes)).
  { rewrite (read_write_code_file HL1), (read_write_code_file HL2) by done.
    apply insert_all_Permutation.
    - intros k v v'. rewrite !(umap_iterate_perm _ codes).
      apply read_back_paths_functional.
    - apply fmap_Permutation.
      by rewrite (@umap_iterate_perm L1 HL1 _ codes), (@umap_iterate_perm L2 HL2 _ codes). }
  exists codes, (mk_compressed (@write_code_file L1 codes) packed),
    (mk_compressed (@write_code_file L2 codes) packed).
  split; [done |]. split; [done |]. split; [| split].
  - unfold compress, BuildHuffmanTree. rewrite Hct1. cbn [mbind option_bind].
    by rewrite Hpacked.
  - unfold compress, BuildHuffmanTree. rewrite Hct2. cbn [mbind option_bind].
    by rewrite Hpacked.
  - split; [done |]. cbn [huff_file packed_file]. split; [| split; [done |]].
    + unfold write_code_file.
      rewrite !getlines_code_records by (apply Hnl; apply umap_iterate_perm).
      apply fmap_Permutation.
      by rewrite (@umap_iterate_perm L1 HL1 _ codes), (@umap_iterate_perm L2 HL2 _ codes).
    + unfold decompress, DecodeFile. cbn [huff_file packed_file]. by rewrite Htable.
Qed.

End WithoutTies.

Lemma compress_without_ties_witness :
  ∃ codes c1 c2,
    @code_table insertion_order_lib (lit "aaaab" ++ [ch_nl]) [] = Some codes
    ∧ @code_table newest_first_lib (lit "aaaab" ++ [ch_nl]) [] = Some codes
    ∧ @compress insertion_order_lib (lit "aaaab" ++ [ch_nl]) = Some c1
    ∧ @compress newest_first_lib (lit "aaaab" ++ [ch_nl]) = Some c2
    ∧ packed_file c1 = packed_file c2
    ∧ getlines [] (huff_file c1) ≡ₚ getlines [] (huff_file c2)
    ∧ read_code_table (huff_file c1) = read_code_table (huff_file c2)
    ∧ decompress c1 = decompress c2.
Proof.
  apply (compress_without_ties insertion_order_lib newest_first_lib
           insertion_order_lib_spec newest_first_lib_spec (lit "aaaab" ++ [ch_nl])).
  unfold no_ties. vm_compute. repeat split; repeat constructor.
Defined.

(** C9 fails at the input ["a"]: the letter and the newline both have count
    1, a tie, and which of them becomes the left child is the order in
    which the frequency map is enumerated.  With the same heap algorithms,
    the library that enumerates in insertion order gives [a] the word ["0"]
    and the packed byte 0; the one that enumerates the newest entry first
    gives [a] the word ["1"] and the packed byte 1.  And on an input
    without a tie the two code files still differ, in the order of their
    records, which is the order in which the code map is enumerated. *)
Lemma compress_depends_on_enumeration :
  @push_heap insertion_order_lib = @push_heap newest_first_lib
  ∧ @pop_heap insertion_order_lib = @pop_heap newest_first_lib
  ∧ @code_table insertion_order_lib (lit "a") [] = Some [("a"%char, lit "0"); (ch_nl, lit "1")]
  ∧ @code_table newest_first_lib (lit "a") [] = Some [(ch_nl, lit "0"); ("a"%char, lit "1")]
  ∧ packed_file <$> @compress insertion_order_lib (lit "a") = Some [0]
  ∧ packed_file <$> @compress newest_first_lib (lit "a") = Some [1]
  ∧ ¬ no_ties (count_frequencies (lit "a"))
  ∧ no_ties (count_frequencies (lit "aaaab" ++ [ch_nl]))
  ∧ huff_file <$> @compress insertion_order_lib (lit "aaaab" ++ [ch_nl])
      = Some (lit "b:00" ++ [ch_nl] ++ [ch_backslash] ++ lit "n:01" ++ [ch_nl]
                ++ lit "a:1" ++ [ch_nl])
  ∧ huff_file <$> @compress newest_first_lib (lit "aaaab" ++ [ch_nl])
      = Some (lit "a:1" ++ [ch_nl] ++ [ch_backslash] ++ lit "n:01" ++ [ch_nl]
                ++ lit "b:00" ++ [ch_nl]).
Proof.
  split; [reflexivity |]. split; [reflexivity |]. split; [reflexivity |].
  split; [reflexivity |]. split; [reflexivity |]. split; [reflexivity |]. split; [| split].
  - intros Hno. vm_compute in Hno. by destruct Hno as [Hlt _].
  - unfold no_ties. vm_compute. repeat split; repeat constructor.
  - split; reflexivity.
Qed.
